(** * Evacuation simulation engine: a shallow embedding of the backend.

    The development follows the Python sources module by module:
    [congestion.py], [hazard.py], [utils/graph_builder.py], [routing.py],
    [agents.py] and [model.py].

    Numbers.  Python [int] is [Z].  Python [float] is modelled by the
    canonical rationals [Qc]: arithmetic and comparisons are exact, and two
    floats are the same dictionary key exactly when they are equal numbers.
    The functions of the [math] module (and the map projection of [pyproj])
    leave the rationals; they are the fields of the class [FloatMath].

    Tables.  The files are read by geopandas: every row of a table has a
    cell for every column of the table, and where a feature of the file
    lacks a numeric property that other features have, its cell holds NaN.
    A number that comes out of a table is therefore an [or_nan]. *)

From Stdlib Require Import QArith Qcanon Lqa Sorted.
From stdpp Require Import base option list gmap.

Local Open Scope Z_scope.

(** ** Numbers *)

Definition float := Qc.

Definition of_int (z : Z) : float := Qc_of_Z z.

(** A float literal, as the fraction it denotes: [1.4] is [ratio 14 10]. *)
Definition ratio (n : Z) (d : positive) : float := Q2Qc (n # d).

(** [x <= y] and [x < y] *)
Definition fle (x y : float) : bool := bool_decide (x ≤ y)%Qc.
Definition flt (x y : float) : bool := bool_decide (x < y)%Qc.

(** [max(x, y)] and [min(x, y)]: the first argument unless the second is
    strictly beyond it. *)
Definition fmax (x y : float) : float := if flt x y then y else x.
Definition fmin (x y : float) : float := if flt y x then y else x.

(** [float("inf")] only ever starts a running minimum: [None] stands for it. *)
Definition lt_min (d : float) (min_dist : option float) : bool :=
  match min_dist with
  | None => true
  | Some m => flt d m
  end.

(** The [math] functions the sources call, and the forward transform of the
    [pyproj] transformer EPSG:4326 -> EPSG:3857 ([always_xy]). *)
Class FloatMath := {
  sqrt : float → float;
  sin : float → float;
  cos : float → float;
  atan2 : float → float → float;
  radians : float → float;
  hypot : float → float → float;
  transform : float → float → float * float
}.

(** Exceptions that cross a function boundary in the sources. *)
Inductive exn := NetworkXNoPath | NodeNotFound | ValueError.

Inductive result (A : Type) :=
  | Ok (a : A)
  | Raise (e : exn).
Arguments Ok {A} a.
Arguments Raise {A} e.

Global Instance exn_eq_dec : EqDecision exn.
Proof. solve_decision. Defined.

Global Instance result_eq_dec {A} `{EqDecision A} : EqDecision (result A).
Proof. solve_decision. Defined.

Definition is_ok {A} (c : result A) : bool :=
  match c with
  | Ok _ => true
  | Raise _ => false
  end.

(** [try: x = c  except Exception: x = d] *)
Definition try_except {A} (c : result A) (d : A) : A :=
  match c with
  | Ok a => a
  | Raise _ => d
  end.

(** A number that may be NaN. *)
Inductive or_nan (A : Type) :=
  | Finite (x : A)
  | NaN.
Arguments Finite {A} x.
Arguments NaN {A}.

Global Instance or_nan_eq_dec {A} `{EqDecision A} : EqDecision (or_nan A).
Proof. solve_decision. Defined.

(** The cell of a row under a column name: [None] when the table has no
    such column ([key in row] is false, [row.get(key, d)] is [d]). *)
Definition Cell (A : Type) : Type := option (or_nan A).

(** [x <= y] and [x - y] for a float [x] that may be NaN: a comparison with
    NaN is false, a difference with NaN is NaN. *)
Definition nan_le (x : or_nan float) (y : float) : bool :=
  match x with
  | Finite a => fle a y
  | NaN => false
  end.

Definition nan_sub (x : or_nan float) (y : float) : or_nan float :=
  match x with
  | Finite a => Finite (a - y)%Qc
  | NaN => NaN
  end.

(** [n < c] for an integer [n] and a number [c] that may be NaN. *)
Definition lt_nan (n : Z) (c : or_nan Z) : bool :=
  match c with
  | Finite c => bool_decide (n < c)
  | NaN => false
  end.

(** [int(x)]: [ValueError] on NaN. *)
Definition int (x : or_nan Z) : result Z :=
  match x with
  | Finite n => Ok n
  | NaN => Raise ValueError
  end.

(** A coordinate is a [(lon, lat)] tuple of floats. *)
Definition Coord : Type := float * float.

(** Tuples compare lexicographically, as [sorted] does. *)
Definition coord_le (a b : Coord) : bool :=
  flt a.1 b.1 || (bool_decide (a.1 = b.1) && fle a.2 b.2).

(** ** congestion.py *)

Module Congestion.

Record SegmentEntry := mkEntry { capacity : Z; density : Z }.

Global Instance SegmentEntry_eq_dec : EqDecision SegmentEntry.
Proof. solve_decision. Defined.

Record CongestionManager := mkManager {
  segment_data : gmap (Coord * Coord) SegmentEntry;
  default_capacity : Z;
  congestion_strength : float
}.

(** [CongestionManager.__init__] *)
Definition init : CongestionManager :=
  {| segment_data := ∅; default_capacity := 8; congestion_strength := ratio 8 10 |}.

(** [tuple(sorted([a, b]))]; the sort is stable. *)
Definition key (a b : Coord) : Coord * Coord :=
  if coord_le a b then (a, b) else (b, a).

Definition set_data (cm : CongestionManager) d : CongestionManager :=
  {| segment_data := d;
     default_capacity := default_capacity cm;
     congestion_strength := congestion_strength cm |}.

(** [capacity or self.default_capacity]: [None] and [0] are falsy. *)
Definition capacity_or_default (cm : CongestionManager) (cap : option Z) : Z :=
  match cap with
  | Some c => if bool_decide (c = 0) then default_capacity cm else c
  | None => default_capacity cm
  end.

Definition register_segment (cm : CongestionManager) (a b : Coord)
    (cap : option Z) : CongestionManager :=
  match segment_data cm !! key a b with
  | Some _ => cm
  | None =>
      set_data cm (<[key a b := mkEntry (capacity_or_default cm cap) 0]> (segment_data cm))
  end.

Definition enter_segment (cm : CongestionManager) (a b : Coord) : CongestionManager :=
  match segment_data cm !! key a b with
  | None => cm
  | Some e =>
      set_data cm (<[key a b := mkEntry (capacity e) (density e + 1)]> (segment_data cm))
  end.

Definition leave_segment (cm : CongestionManager) (a b : Coord) : CongestionManager :=
  match segment_data cm !! key a b with
  | None => cm
  | Some e =>
      set_data cm
        (<[key a b := mkEntry (capacity e) (Z.max 0 (density e - 1))]> (segment_data cm))
  end.

Definition get_speed_multiplier (cm : CongestionManager) (a b : Coord) : float :=
  match segment_data cm !! key a b with
  | None => 1%Qc
  | Some e =>
      let cap := capacity e in
      let dens := density e in
      if bool_decide (dens ≤ cap) then 1%Qc
      else
        let overflow := dens - cap in
        (1 / (1 + congestion_strength cm * of_int overflow))%Qc
  end.

Definition get_density (cm : CongestionManager) (a b : Coord) : Z :=
  match segment_data cm !! key a b with
  | None => 0
  | Some e => density e
  end.

End Congestion.

(** ** hazard.py *)

Module Hazard.

(** A prepared shapely geometry, seen through the two predicates the
    module calls on it; [None] is a raised exception. *)
Record PreparedGeom := mkGeom {
  contains : Coord → option bool;
  intersects : Coord → option bool
}.

(** A row of the inundation file: its geometry ([None] when missing or
    empty) and its cells under the four names an arrival time may have.  A
    cell is also [None] here when it holds [None] or something [float]
    refuses: the loader passes over such a cell as over a missing column. *)
Record Feature := mkFeature {
  geometry : option PreparedGeom;
  attr_arrival_time : Cell float;
  attr_time_to_inundation : Cell float;
  attr_t_arrival : Cell float;
  attr_t0 : Cell float
}.

Record TsunamiHazard := mkHazard {
  current_time : float;
  _has_precomputed : bool;
  _has_dynamic : bool;
  _polygons : list (PreparedGeom * or_nan float);
  _source_points_m : list (float * float);
  _prop_speed : option float
}.

Definition lonlat_to_meters `{FloatMath} (coord : Coord) : float * float :=
  let '(lon, lat) := coord in transform lon lat.

Definition meters_distance `{FloatMath} (a_m b_m : float * float) : float :=
  let dx := (a_m.1 - b_m.1)%Qc in
  let dy := (a_m.2 - b_m.2)%Qc in
  hypot dx dy.

(** [for key in ("arrival_time", "time_to_inundation", "t_arrival", "t0")]:
    the first cell that is there is taken, NaN included. *)
Fixpoint first_cell (cells : list (Cell float)) : option (or_nan float) :=
  match cells with
  | [] => None
  | Some x :: _ => Some x
  | None :: rest => first_cell rest
  end.

(** The arrival time of a row: 0 only when none of the four cells is there. *)
Definition arrival_of (row : Feature) : or_nan float :=
  let arrival_time :=
    first_cell [attr_arrival_time row; attr_time_to_inundation row;
                attr_t_arrival row; attr_t0 row] in
  default (Finite 0%Qc) arrival_time.

(** The loop of [_load_inundation_polygons] over the rows of the file. *)
Fixpoint load_rows (rows : list Feature) : list (PreparedGeom * or_nan float) :=
  match rows with
  | [] => []
  | row :: rest =>
      match geometry row with
      | None => load_rows rest
      | Some geom => (geom, arrival_of row) :: load_rows rest
      end
  end.

Definition empty_hazard : TsunamiHazard :=
  {| current_time := 0%Qc;
     _has_precomputed := false;
     _has_dynamic := false;
     _polygons := [];
     _source_points_m := [];
     _prop_speed := None |}.

Definition _load_inundation_polygons (h : TsunamiHazard) (rows : list Feature)
    : TsunamiHazard :=
  let polys := load_rows rows in
  {| current_time := current_time h;
     _has_precomputed := bool_decide (0 < length polys)%nat;
     _has_dynamic := _has_dynamic h;
     _polygons := polys;
     _source_points_m := _source_points_m h;
     _prop_speed := _prop_speed h |}.

Definition _load_dynamic_sources `{FloatMath} (h : TsunamiHazard)
    (source_points : list Coord) (propagation_speed : float) : TsunamiHazard :=
  let pts := lonlat_to_meters <$> source_points in
  {| current_time := current_time h;
     _has_precomputed := _has_precomputed h;
     _has_dynamic := bool_decide (0 < length pts)%nat && flt 0%Qc propagation_speed;
     _polygons := _polygons h;
     _source_points_m := pts;
     _prop_speed := Some propagation_speed |}.

(** Truthiness of an optional list and of an optional float. *)
Definition truthy_list {A} (l : option (list A)) : bool :=
  match l with Some (_ :: _) => true | _ => false end.
Definition truthy_float (x : option float) : bool :=
  match x with Some v => negb (bool_decide (v = 0%Qc)) | None => false end.

(** [TsunamiHazard.__init__]: [inundation_geojson] is the content of the
    file when a file name is given. *)
Definition init `{FloatMath} (inundation_geojson : option (list Feature))
    (source_points : option (list Coord)) (propagation_speed : option float)
    : TsunamiHazard :=
  match inundation_geojson with
  | Some rows => _load_inundation_polygons empty_hazard rows
  | None =>
      if truthy_list source_points && truthy_float propagation_speed
      then _load_dynamic_sources empty_hazard
             (default [] source_points) (default 0%Qc propagation_speed)
      else empty_hazard
  end.

Definition update (h : TsunamiHazard) (current_time_seconds : float) : TsunamiHazard :=
  {| current_time := current_time_seconds;
     _has_precomputed := _has_precomputed h;
     _has_dynamic := _has_dynamic h;
     _polygons := _polygons h;
     _source_points_m := _source_points_m h;
     _prop_speed := _prop_speed h |}.

(** [prep_geom.contains(pt) or prep_geom.intersects(pt)] under
    [try ... except: continue]. *)
Definition covers (g : PreparedGeom) (pt : Coord) : bool :=
  match contains g pt with
  | None => false
  | Some true => true
  | Some false => default false (intersects g pt)
  end.

Fixpoint first_polygon (polys : list (PreparedGeom * or_nan float)) (pt : Coord)
    : option (or_nan float) :=
  match polys with
  | [] => None
  | (prep_geom, arrival_time) :: rest =>
      if covers prep_geom pt then Some arrival_time else first_polygon rest pt
  end.

Fixpoint min_source_dist `{FloatMath} (coord_m : float * float)
    (sources : list (float * float)) (min_dist : option float) : option float :=
  match sources with
  | [] => min_dist
  | s :: rest =>
      let d := meters_distance coord_m s in
      min_source_dist coord_m rest (if lt_min d min_dist then Some d else min_dist)
  end.

(** The arrival time it returns is NaN where the file gave NaN. *)
Definition get_time_to_inundation `{FloatMath} (h : TsunamiHazard) (coord : Coord)
    : option (or_nan float) :=
  if _has_precomputed h then first_polygon (_polygons h) coord
  else if _has_dynamic h then
    let coord_m := lonlat_to_meters coord in
    match min_source_dist coord_m (_source_points_m h) None with
    | Some min_dist =>
        if truthy_float (_prop_speed h)
        then Some (Finite (min_dist / default 0%Qc (_prop_speed h))%Qc)
        else None
    | None => None
    end
  else None.

Definition is_inundated `{FloatMath} (h : TsunamiHazard) (coord : Coord)
    (time : option float) : bool :=
  let t := match time with None => current_time h | Some t => t end in
  match get_time_to_inundation h coord with
  | None => false
  | Some arrival => nan_le arrival t
  end.

(** The loop of [nearest_inundation_feature]. *)
Fixpoint first_feature (polys : list (PreparedGeom * or_nan float)) (pt : Coord)
    : option (PreparedGeom * or_nan float) :=
  match polys with
  | [] => None
  | (prep_geom, arrival_time) :: rest =>
      if covers prep_geom pt then Some (prep_geom, arrival_time)
      else first_feature rest pt
  end.

Definition nearest_inundation_feature (h : TsunamiHazard) (coord : Coord)
    : option (PreparedGeom * or_nan float) :=
  if negb (_has_precomputed h) then None
  else first_feature (_polygons h) coord.

(** The dictionary that [summary] returns. *)
Record Summary := mkSummary {
  has_precomputed : bool;
  num_polygons : nat;
  has_dynamic : bool;
  num_sources : nat;
  propagation_speed_m_s : option float;
  current_time_s : float
}.

Definition summary (h : TsunamiHazard) : Summary :=
  {| has_precomputed := _has_precomputed h;
     num_polygons := length (_polygons h);
     has_dynamic := _has_dynamic h;
     num_sources := length (_source_points_m h);
     propagation_speed_m_s := _prop_speed h;
     current_time_s := current_time h |}.

End Hazard.

(** ** utils/graph_builder.py *)

Module GraphBuilder.

(** The part of [networkx.Graph] the sources use: the nodes in insertion
    order and the undirected edges with their [weight] attribute. *)
Record Graph := mkGraph {
  nodes : list Coord;
  edges : list (Coord * Coord * float)
}.

Definition empty_graph : Graph := mkGraph [] [].

Definition add_node (G : Graph) (p : Coord) : Graph :=
  if bool_decide (p ∈ nodes G) then G else mkGraph (nodes G ++ [p]) (edges G).

Definition same_edge (u v : Coord) (e : Coord * Coord * float) : bool :=
  let '(a, b, _) := e in
  bool_decide (a = u ∧ b = v) || bool_decide (a = v ∧ b = u).

(** [G.add_edge(u, v, weight=w)]: a second call on the same pair only
    updates the attribute. *)
Definition add_edge (G : Graph) (u v : Coord) (w : float) : Graph :=
  let G := add_node (add_node G u) v in
  if existsb (same_edge u v) (edges G)
  then mkGraph (nodes G)
         ((λ e, if same_edge u v e then (e.1.1, e.1.2, w) else e) <$> edges G)
  else mkGraph (nodes G) (edges G ++ [(u, v, w)]).

Definition distance `{FloatMath} (p1 p2 : Coord) : float :=
  sqrt ((p1.1 - p2.1) * (p1.1 - p2.1) + (p1.2 - p2.2) * (p1.2 - p2.2))%Qc.

(** The geometry of a row of [roads.geojson]. *)
Inductive RoadGeom :=
  | NoGeom                                      (* [None] or empty *)
  | LineString (coords : list Coord)
  | MultiLineString (geoms : list (list Coord))
  | OtherGeom.                                  (* Point, Polygon, ... *)

(** [for i in range(len(coords) - 1)] over one line. *)
Fixpoint add_line `{FloatMath} (G : Graph) (coords : list Coord) : Graph :=
  match coords with
  | p1 :: ((p2 :: _) as rest) =>
      let G := add_node G p1 in
      let G := add_node G p2 in
      add_line (add_edge G p1 p2 (distance p1 p2)) rest
  | _ => G
  end.

Definition add_row `{FloatMath} (G : Graph) (geom : RoadGeom) : Graph :=
  match geom with
  | NoGeom | OtherGeom => G
  | LineString coords => add_line G coords
  | MultiLineString geoms => foldl add_line G geoms
  end.

Definition build_road_graph `{FloatMath} (roads : list RoadGeom) : Graph :=
  foldl add_row empty_graph roads.

(** [G[u]]: the neighbours of [u] with the edge weights. *)
Definition neighbors (G : Graph) (u : Coord) : list (Coord * float) :=
  omap (λ e : Coord * Coord * float,
          let '(a, b, w) := e in
          if bool_decide (a = u) then Some (b, w)
          else if bool_decide (b = u) then Some (a, w)
          else None) (edges G).

End GraphBuilder.

(** ** networkx.shortest_path

    The library call of [routing.py], after its documentation: Dijkstra's
    algorithm on the [weight] attribute; [NodeNotFound] when the source is not
    a node, [NetworkXNoPath] when the target cannot be reached. *)

Module Nx.
Import GraphBuilder.

(** The frontier holds, for a node reached so far, the length of a walk
    to it and that walk, last node first. *)
Definition Entry : Type := float * list Coord.

(** The first entry of least length, and the others. *)
Fixpoint extract_min (frontier : list Entry) : option (Entry * list Entry) :=
  match frontier with
  | [] => None
  | e :: rest =>
      match extract_min rest with
      | None => Some (e, [])
      | Some (m, others) =>
          if flt m.1 e.1 then Some (m, e :: others) else Some (e, rest)
      end
  end.

Definition relax (G : Graph) (settled : list Coord) (d : float)
    (walk : list Coord) (u : Coord) : list Entry :=
  omap (λ vw : Coord * float,
          if bool_decide (vw.1 ∈ settled) then None
          else Some ((d + vw.2)%Qc, vw.1 :: walk)) (neighbors G u).

Fixpoint dijkstra (fuel : nat) (G : Graph) (target : Coord)
    (settled : list Coord) (frontier : list Entry) : result (list Coord) :=
  match fuel with
  | O => Raise NetworkXNoPath
  | S fuel =>
      match extract_min frontier with
      | None => Raise NetworkXNoPath
      | Some ((d, walk), rest) =>
          match walk with
          | [] => dijkstra fuel G target settled rest
          | u :: _ =>
              if bool_decide (u ∈ settled) then dijkstra fuel G target settled rest
              else if bool_decide (u = target) then Ok (reverse walk)
              else dijkstra fuel G target (u :: settled)
                     (rest ++ relax G (u :: settled) d walk u)
          end
      end
  end.

(** Every round pops one entry, and no more than one per edge end is
    ever pushed after the first: the fuel below is never used up
    ([RoutingFacts.shortest_path_fuel]). *)
Definition shortest_path (G : Graph) (source target : Coord) : result (list Coord) :=
  if bool_decide (source ∈ nodes G)
  then dijkstra (2 * length (edges G) + 2) G target [] [(0%Qc, [source])]
  else Raise NodeNotFound.

(** A walk of the graph from [s] to [t]. *)
Definition adjacent (G : Graph) (u v : Coord) : Prop :=
  ∃ w, (u, v, w) ∈ edges G ∨ (v, u, w) ∈ edges G.

Inductive walk_from (G : Graph) (s : Coord) : Coord → list Coord → Prop :=
  | walk_start : walk_from G s s [s]
  | walk_step u v p : walk_from G s u p → adjacent G u v → walk_from G s v (p ++ [v]).

End Nx.

(** ** simulation/routing.py *)

Module Routing.
Import GraphBuilder.

(** The scan of [nearest_node], carrying [(min_dist, nearest)]. *)
Fixpoint nearest_scan (ns : list Coord) (point : Coord)
    (min_dist : option float) (nearest : option Coord) : option Coord :=
  match ns with
  | [] => nearest
  | node :: rest =>
      let '(px, py) := point in
      let '(nx, ny) := node in
      let dist := ((nx - px) * (nx - px) + (ny - py) * (ny - py))%Qc in
      if lt_min dist min_dist
      then nearest_scan rest point (Some dist) (Some node)
      else nearest_scan rest point min_dist nearest
  end.

Definition nearest_node (graph : Graph) (point : Coord) : option Coord :=
  nearest_scan (nodes graph) point None None.

(** [ROAD_GRAPH] is the module's global, built once. *)
Definition compute_shortest_route (ROAD_GRAPH : Graph) (start end_ : Coord)
    : result (list Coord) :=
  match nearest_node ROAD_GRAPH start, nearest_node ROAD_GRAPH end_ with
  | Some start_node, Some end_node => Nx.shortest_path ROAD_GRAPH start_node end_node
  | _, _ => Ok []
  end.

End Routing.

(** ** simulation/agents.py *)

Module Agents.
Import Congestion Hazard.

Definition interpolate (a b : Coord) (t : float) : Coord :=
  ((a.1 + (b.1 - a.1) * t)%Qc, (a.2 + (b.2 - a.2) * t)%Qc).

(** An evacuation centre.  [evac_id] is its [unique_id] and [evac_capacity]
    its [capacity] (the plain names are those of a person and of a road
    segment here), the number the model read from the table, NaN included;
    its [name] plays no part in the simulation. *)
Record EvacCenterAgent := mkEvac {
  evac_id : Z;
  loc : Coord;
  evac_capacity : or_nan Z;
  occupants : Z
}.

(** [self.occupants < self.capacity] *)
Definition can_accept (e : EvacCenterAgent) : bool :=
  lt_nan (occupants e) (evac_capacity e).

Definition add_occupant (e : EvacCenterAgent) : EvacCenterAgent * bool :=
  if can_accept e
  then (mkEvac (evac_id e) (loc e) (evac_capacity e) (occupants e + 1), true)
  else (e, false).

Inductive State := idle | evacuating | safe | stuck | overtaken.

Global Instance State_eq_dec : EqDecision State.
Proof. solve_decision. Defined.

Record PersonAgent := mkPerson {
  unique_id : Z;
  home : Coord;
  pos : Coord;
  speed : float;
  state : State;
  evac_center_id : option Z;
  route : list Coord;
  _route_idx : nat;
  _segment_progress : float;
  reached : bool
}.

Global Instance EvacCenterAgent_eq_dec : EqDecision EvacCenterAgent.
Proof. solve_decision. Defined.

Global Instance PersonAgent_eq_dec : EqDecision PersonAgent.
Proof. solve_decision. Defined.

(** [PersonAgent.__init__] *)
Definition new_person (uid : Z) (home_loc : Coord) (speed : float) : PersonAgent :=
  {| unique_id := uid; home := home_loc; pos := home_loc; speed := speed;
     state := idle; evac_center_id := None; route := []; _route_idx := 0;
     _segment_progress := 0%Qc; reached := false |}.

(** The attributes of the model an agent reaches through [self.model].
    [congestion] is [None] while [EvacuationModel.__init__] has not yet
    created it: every use of it sits in a [try] that swallows the
    [AttributeError]. *)
Record EvacuationModel := mkModel {
  step_time_seconds : float;
  evac_agents : list EvacCenterAgent;
  person_agents : list PersonAgent;
  sim_time : float;
  hazard : TsunamiHazard;
  congestion : option CongestionManager;
  reroute_threshold_s : float;
  ROAD_GRAPH : GraphBuilder.Graph
}.

Definition set_congestion (m : EvacuationModel) (c : option CongestionManager)
    : EvacuationModel :=
  {| step_time_seconds := step_time_seconds m; evac_agents := evac_agents m;
     person_agents := person_agents m; sim_time := sim_time m; hazard := hazard m;
     congestion := c; reroute_threshold_s := reroute_threshold_s m;
     ROAD_GRAPH := ROAD_GRAPH m |}.

Definition set_evac_agents (m : EvacuationModel) (es : list EvacCenterAgent)
    : EvacuationModel :=
  {| step_time_seconds := step_time_seconds m; evac_agents := es;
     person_agents := person_agents m; sim_time := sim_time m; hazard := hazard m;
     congestion := congestion m; reroute_threshold_s := reroute_threshold_s m;
     ROAD_GRAPH := ROAD_GRAPH m |}.

Definition set_person_agents (m : EvacuationModel) (ps : list PersonAgent)
    : EvacuationModel :=
  {| step_time_seconds := step_time_seconds m; evac_agents := evac_agents m;
     person_agents := ps; sim_time := sim_time m; hazard := hazard m;
     congestion := congestion m; reroute_threshold_s := reroute_threshold_s m;
     ROAD_GRAPH := ROAD_GRAPH m |}.

(** [try: self.model.congestion.leave_segment(a, b)  except: pass] *)
Definition leave (m : EvacuationModel) (a b : Coord) : EvacuationModel :=
  set_congestion m ((λ c, leave_segment c a b) <$> congestion m).

Definition enter (m : EvacuationModel) (a b : Coord) : EvacuationModel :=
  set_congestion m ((λ c, enter_segment c a b) <$> congestion m).

(** [self.model.get_evac_agent_by_id] *)
Definition get_evac_agent_by_id (m : EvacuationModel) (id_ : Z) : option EvacCenterAgent :=
  find (λ e, bool_decide (evac_id e = id_)) (evac_agents m).

(** Writing a mutated agent object back into the model's dictionary. *)
Definition put_evac_agent (m : EvacuationModel) (e : EvacCenterAgent) : EvacuationModel :=
  set_evac_agents m
    ((λ x, if bool_decide (evac_id x = evac_id e) then e else x) <$> evac_agents m).

(** Field updates of a person. *)
Definition set_state (p : PersonAgent) (s : State) : PersonAgent :=
  {| unique_id := unique_id p; home := home p; pos := pos p; speed := speed p;
     state := s; evac_center_id := evac_center_id p; route := route p;
     _route_idx := _route_idx p; _segment_progress := _segment_progress p;
     reached := reached p |}.

Definition set_reached (p : PersonAgent) (r : bool) : PersonAgent :=
  {| unique_id := unique_id p; home := home p; pos := pos p; speed := speed p;
     state := state p; evac_center_id := evac_center_id p; route := route p;
     _route_idx := _route_idx p; _segment_progress := _segment_progress p;
     reached := r |}.

Definition set_pos (p : PersonAgent) (c : Coord) : PersonAgent :=
  {| unique_id := unique_id p; home := home p; pos := c; speed := speed p;
     state := state p; evac_center_id := evac_center_id p; route := route p;
     _route_idx := _route_idx p; _segment_progress := _segment_progress p;
     reached := reached p |}.

Definition set_cursor (p : PersonAgent) (idx : nat) (progress : float) : PersonAgent :=
  {| unique_id := unique_id p; home := home p; pos := pos p; speed := speed p;
     state := state p; evac_center_id := evac_center_id p; route := route p;
     _route_idx := idx; _segment_progress := progress;
     reached := reached p |}.

Definition set_route (p : PersonAgent) (r : list Coord) (target : option Z)
    : PersonAgent :=
  {| unique_id := unique_id p; home := home p; pos := pos p; speed := speed p;
     state := state p; evac_center_id := target; route := r;
     _route_idx := _route_idx p; _segment_progress := _segment_progress p;
     reached := reached p |}.

(** [self._route_idx >= len(self.route) - 1], on Python integers. *)
Definition at_last_node (p : PersonAgent) : bool :=
  bool_decide (Z.of_nat (length (route p)) - 1 ≤ Z.of_nat (_route_idx p)).

(** [(None, None)] is [None]. *)
Definition _current_segment (p : PersonAgent) : option (Coord * Coord) :=
  if at_last_node p then None
  else
    match route p !! _route_idx p, route p !! S (_route_idx p) with
    | Some a, Some b => Some (a, b)
    | _, _ => None
    end.

Definition _segment_length_m `{FloatMath} (a b : Coord) : float :=
  let '(lon1, lat1) := a in
  let '(lon2, lat2) := b in
  let R := of_int 6371000 in
  let phi1 := radians lat1 in
  let phi2 := radians lat2 in
  let dphi := radians (lat2 - lat1)%Qc in
  let dlambda := radians (lon2 - lon1)%Qc in
  let hav := (sin (dphi / 2) * sin (dphi / 2)
              + cos phi1 * cos phi2 * (sin (dlambda / 2) * sin (dlambda / 2)))%Qc in
  let c := (2 * atan2 (sqrt hav) (sqrt (1 - hav)))%Qc in
  (R * c)%Qc.

(** Leave the segment under the cursor, when there is one. *)
Definition leave_current (m : EvacuationModel) (p : PersonAgent) : EvacuationModel :=
  match _current_segment p with
  | Some (s_start, s_end) => leave m s_start s_end
  | None => m
  end.

Definition enter_current (m : EvacuationModel) (p : PersonAgent) : EvacuationModel :=
  match _current_segment p with
  | Some (ns, ne) => enter m ns ne
  | None => m
  end.

Definition assign_route (m : EvacuationModel) (self : PersonAgent)
    (route_nodes : list Coord) (evac_center_id : Z) : EvacuationModel * PersonAgent :=
  let m := leave_current m self in
  if bool_decide (length route_nodes < 2)%nat
  then (m, set_state (set_route self [] None) stuck)
  else
    let self := set_state
                  (set_cursor (set_route self route_nodes (Some evac_center_id)) 0 0%Qc)
                  evacuating in
    match route self !! 0%nat, route self !! 1%nat with
    | Some a, Some b => (enter m a b, self)
    | _, _ => (m, self)
    end.

Definition _become_overtaken (m : EvacuationModel) (self : PersonAgent)
    : EvacuationModel * PersonAgent :=
  let m := leave_current m self in
  (m, set_reached (set_state self overtaken) false).

Definition _arrive (m : EvacuationModel) (self : PersonAgent)
    : EvacuationModel * PersonAgent :=
  let m :=
    match _route_idx self with
    | O => m
    | S i =>
        match route self !! i, route self !! S i with
        | Some prev_start, Some prev_end => leave m prev_start prev_end
        | _, _ => m
        end
    end in
  let self := set_reached (set_state self safe) true in
  match evac_center_id self with
  | None => (m, self)
  | Some id_ =>
      match get_evac_agent_by_id m id_ with
      | None => (m, self)
      | Some agent => (put_evac_agent m (add_occupant agent).1, self)
      end
  end.

(** The [while] loop of [step].  It runs while the cursor is before the
    last node, so [n], the number of nodes still ahead of the cursor,
    bounds its rounds; at [n = 0] the loop condition is false. *)
Fixpoint roll_over (n : nat) (m : EvacuationModel) (self : PersonAgent)
    : EvacuationModel * PersonAgent :=
  match n with
  | O => (m, self)
  | S n =>
      if fle 1%Qc (_segment_progress self) && negb (at_last_node self)
      then
        let m := leave_current m self in
        let self := set_cursor self (S (_route_idx self)) (_segment_progress self - 1)%Qc in
        let m := enter_current m self in
        roll_over n m self
      else (m, self)
  end.

Definition nodes_ahead (p : PersonAgent) : nat :=
  length (route p) - 1 - _route_idx p.

Definition speed_factor_on (m : EvacuationModel) (a b : Coord) : float :=
  match congestion m with
  | Some c => get_speed_multiplier c a b
  | None => 1%Qc
  end.

(** The agent-level hazard check that ends [step]. *)
Definition hazard_check `{FloatMath} (m : EvacuationModel) (self : PersonAgent)
    : EvacuationModel * PersonAgent :=
  match get_time_to_inundation (hazard m) (pos self) with
  | Some arrival =>
      if nan_le arrival (sim_time m) then _become_overtaken m self else (m, self)
  | None => (m, self)
  end.

(** The part of [step] that moves a person along a segment of positive
    length [seg_len], up to and including the arrival check. *)
Definition move `{FloatMath} (m : EvacuationModel) (self : PersonAgent)
    (start_node end_node : Coord) (seg_len : float) : EvacuationModel * PersonAgent :=
  let speed_factor := speed_factor_on m start_node end_node in
  let effective_speed := (speed self * speed_factor)%Qc in
  let step_seconds := step_time_seconds m in
  let dist_this_step := (effective_speed * step_seconds)%Qc in
  let delta := (dist_this_step / seg_len)%Qc in
  let self := set_cursor self (_route_idx self) (_segment_progress self + delta)%Qc in
  let '(m, self) := roll_over (nodes_ahead self) m self in
  let s := fmax 0%Qc (fmin 1%Qc (_segment_progress self)) in
  let self := set_pos self (interpolate start_node end_node s) in
  if at_last_node self then
    match last (route self) with
    | Some end_coord =>
        if flt (_segment_length_m (pos self) end_coord) 1%Qc
        then _arrive m self else (m, self)
    | None => (m, self)
    end
  else (m, self).

(** The jump over a segment of length 0. *)
Definition hop (m : EvacuationModel) (self : PersonAgent) (start_node end_node : Coord)
    : EvacuationModel * PersonAgent :=
  let m := leave m start_node end_node in
  let self := set_cursor self (S (_route_idx self)) 0%Qc in
  (enter_current m self, self).

(** [PersonAgent.step] *)
Definition step `{FloatMath} (m : EvacuationModel) (self : PersonAgent)
    : EvacuationModel * PersonAgent :=
  if negb (bool_decide (state self = evacuating)) then (m, self)
  else if at_last_node self then _arrive m self
  else
    match _current_segment self with
    | None => (m, set_state self stuck)
    | Some (start_node, end_node) =>
        let seg_len := _segment_length_m start_node end_node in
        if bool_decide (seg_len = 0%Qc) then hop m self start_node end_node
        else
          let '(m, self) := move m self start_node end_node seg_len in
          hazard_check m self
    end.

(** [get_latlon]: the position as [(lat, lon)]. *)
Definition get_latlon (self : PersonAgent) : float * float :=
  let '(lon, lat) := pos self in (lat, lon).

End Agents.

(** ** simulation/model.py *)

Module Model.
Import Congestion Hazard Agents.

(** What the loaders read of a geometry of [buildings.geojson] or
    [evac.geojson]: a point, or the representative point of another shape. *)
Inductive SiteGeom :=
  | Point (x y : float)
  | NonPoint (representative_point : Coord).

Definition site_lonlat (geom : SiteGeom) : Coord :=
  match geom with
  | Point x y => (x, y)
  | NonPoint centroid => centroid
  end.

(** A row of [evac.geojson] and a row of [buildings.geojson]: the geometry
    and the cell under [capacity], respectively [pop]. *)
Record EvacRow := mkEvacRow {
  evac_geometry : option SiteGeom;
  row_capacity : Cell Z
}.

Record BuildingRow := mkBuildingRow {
  building_geometry : option SiteGeom;
  pop : Cell Z
}.

Definition set_sim_time (m : EvacuationModel) (t : float) : EvacuationModel :=
  {| step_time_seconds := step_time_seconds m; evac_agents := evac_agents m;
     person_agents := person_agents m; sim_time := t; hazard := hazard m;
     congestion := congestion m; reroute_threshold_s := reroute_threshold_s m;
     ROAD_GRAPH := ROAD_GRAPH m |}.

Definition set_hazard (m : EvacuationModel) (h : TsunamiHazard) : EvacuationModel :=
  {| step_time_seconds := step_time_seconds m; evac_agents := evac_agents m;
     person_agents := person_agents m; sim_time := sim_time m; hazard := h;
     congestion := congestion m; reroute_threshold_s := reroute_threshold_s m;
     ROAD_GRAPH := ROAD_GRAPH m |}.

(** The dictionary [person_agents], keyed by [unique_id]. *)
Definition get_person (m : EvacuationModel) (uid : Z) : option PersonAgent :=
  find (λ p, bool_decide (unique_id p = uid)) (person_agents m).

Definition put_person (m : EvacuationModel) (p : PersonAgent) : EvacuationModel :=
  set_person_agents m
    ((λ x, if bool_decide (unique_id x = unique_id p) then p else x) <$> person_agents m).

(** A loop over agent objects: each body runs on the agent as the model
    holds it at that moment, and its mutations stay in the model. *)
Definition for_each_person
    (body : EvacuationModel → PersonAgent → EvacuationModel * PersonAgent)
    (uids : list Z) (m : EvacuationModel) : EvacuationModel :=
  foldl (λ m uid,
           match get_person m uid with
           | Some person => let '(m, person) := body m person in put_person m person
           | None => m
           end) m uids.

(** [_spawn_evac_centers], with the counter [evac_id_gen]; the capacity is
    [row.get("capacity", 9999)]. *)
Fixpoint _spawn_evac_centers (rows : list EvacRow) (evac_id_gen : Z)
    : list EvacCenterAgent :=
  match rows with
  | [] => []
  | row :: rest =>
      match evac_geometry row with
      | None => _spawn_evac_centers rest evac_id_gen
      | Some geom =>
          mkEvac evac_id_gen (site_lonlat geom)
            (default (Finite 9999) (row_capacity row)) 0
            :: _spawn_evac_centers rest (evac_id_gen + 1)
      end
  end.

(** [population_limit and spawned >= population_limit] *)
Definition limit_reached (population_limit : option Z) (spawned : Z) : bool :=
  match population_limit with
  | None => false
  | Some l => negb (bool_decide (l = 0)) && bool_decide (l ≤ spawned)
  end.

(** The state of the two loops of [_spawn_people]: the count [spawned],
    the counter [person_id_gen] and the agents created so far. *)
Record Spawn := mkSpawn {
  spawned : Z;
  person_id_gen : Z;
  created : list PersonAgent
}.

(** [for i in range(count)] *)
Fixpoint spawn_building (count : nat) (population_limit : option Z)
    (lonlat : Coord) (st : Spawn) : Spawn :=
  match count with
  | O => st
  | S count =>
      if limit_reached population_limit (spawned st) then st
      else
        let person := new_person (person_id_gen st) lonlat (ratio 14 10) in
        spawn_building count population_limit lonlat
          (mkSpawn (spawned st + 1) (person_id_gen st + 1) (created st ++ [person]))
  end.

(** [int(row.get("pop", default_per_building)) if "pop" in row else
    default_per_building] *)
Definition building_count (row : BuildingRow) (default_per_building : Z) : result Z :=
  match pop row with
  | Some x => int x
  | None => Ok default_per_building
  end.

(** [for idx, row in self.buildings_gdf.iterrows()]: the [ValueError] of a
    row leaves the loop, and the constructor. *)
Fixpoint spawn_rows (rows : list BuildingRow) (population_limit : option Z)
    (default_per_building : Z) (st : Spawn) : result Spawn :=
  match rows with
  | [] => Ok st
  | row :: rest =>
      if limit_reached population_limit (spawned st) then Ok st
      else
        match building_geometry row with
        | None => spawn_rows rest population_limit default_per_building st
        | Some geom =>
            match building_count row default_per_building with
            | Ok count =>
                spawn_rows rest population_limit default_per_building
                  (spawn_building (Z.to_nat count) population_limit (site_lonlat geom) st)
            | Raise e => Raise e
            end
        end
  end.

Fixpoint nearest_evac_scan (es : list EvacCenterAgent) (point : Coord)
    (min_d : option float) (best_id : option Z) : option Z :=
  match es with
  | [] => best_id
  | evac :: rest =>
      let '(px, py) := point in
      let '(ex, ey) := loc evac in
      let d := ((ex - px) * (ex - px) + (ey - py) * (ey - py))%Qc in
      if lt_min d min_d
      then nearest_evac_scan rest point (Some d) (Some (evac_id evac))
      else nearest_evac_scan rest point min_d best_id
  end.

Definition _find_nearest_evac_center (m : EvacuationModel) (point : Coord) : option Z :=
  nearest_evac_scan (evac_agents m) point None None.

(** [compute_shortest_route] under [try ... except Exception: path = []]. *)
Definition route_or_empty (m : EvacuationModel) (start end_ : Coord) : list Coord :=
  try_except (Routing.compute_shortest_route (ROAD_GRAPH m) start end_) [].

(** The body of the loop of [_assign_routes_to_people]. *)
Definition assign_initial_route (m : EvacuationModel) (person : PersonAgent)
    : EvacuationModel * PersonAgent :=
  match _find_nearest_evac_center m (home person) ≫= get_evac_agent_by_id m with
  | None => (m, person)
  | Some evac_agent =>
      let path := route_or_empty m (home person) (loc evac_agent) in
      if bool_decide (2 ≤ length path)%nat
      then assign_route m person path (evac_id evac_agent)
      else (m, set_state person stuck)
  end.

Definition _assign_routes_to_people (m : EvacuationModel) : EvacuationModel :=
  for_each_person assign_initial_route (unique_id <$> person_agents m) m.

(** The end of [_spawn_people]: the persons created are in the model, and
    get their routes. *)
Definition populate (m : EvacuationModel) (st : Spawn) : EvacuationModel :=
  _assign_routes_to_people (set_person_agents m (person_agents m ++ created st)).

(** [_spawn_people]: a fresh model has no person and its counter
    [person_id_gen] stands at 1000. *)
Definition _spawn_people (m : EvacuationModel) (buildings_gdf : list BuildingRow)
    (population_limit : option Z) : result EvacuationModel :=
  match spawn_rows buildings_gdf population_limit 1 (mkSpawn 0 1000 []) with
  | Ok st => Ok (populate m st)
  | Raise e => Raise e
  end.

(** [sorted(xs, key=key)]: stable, ascending. *)
Fixpoint insert_by {A} (key : A → float) (x : A) (l : list A) : list A :=
  match l with
  | [] => [x]
  | y :: ys => if flt (key y) (key x) then y :: insert_by key x ys else x :: y :: ys
  end.

Definition sorted_by {A} (key : A → float) (l : list A) : list A :=
  foldr (insert_by key) [] l.

(** [if current_target]: an id is truthy unless it is [None] or [0]. *)
Definition truthy_id (id_ : option Z) : option Z :=
  match id_ with
  | Some i => if bool_decide (i = 0) then None else Some i
  | None => None
  end.

Definition recompute_route_for_person (m : EvacuationModel) (person : PersonAgent)
    : EvacuationModel * PersonAgent * bool :=
  match route person with
  | [] => (m, person, false)
  | _ :: _ =>
      let current_target := evac_center_id person in
      let target_agent := truthy_id current_target ≫= get_evac_agent_by_id m in
      let target_agent :=
        match target_agent with
        | Some t => if can_accept t then Some t else None
        | None => None
        end in
      let target_agent :=
        match target_agent with
        | Some t => Some t
        | None =>
            let key (e : EvacCenterAgent) :=
              (((loc e).1 - (pos person).1) * ((loc e).1 - (pos person).1)
               + ((loc e).2 - (pos person).2) * ((loc e).2 - (pos person).2))%Qc in
            let candidates := sorted_by key (evac_agents m) in
            find can_accept candidates
        end in
      match target_agent with
      | None => (m, person, false)
      | Some target_agent =>
          let new_path := route_or_empty m (pos person) (loc target_agent) in
          if bool_decide (2 ≤ length new_path)%nat
          then (assign_route m person new_path (evac_id target_agent), true)
          else (m, person, false)
      end
  end.

Definition reroute (m : EvacuationModel) (person : PersonAgent)
    : EvacuationModel * PersonAgent :=
  (recompute_route_for_person m person).1.

Definition terminal (s : State) : bool :=
  match s with
  | safe | overtaken | stuck => true
  | idle | evacuating => false
  end.

(** The last block of the post-step loop. *)
Definition cleanup (m : EvacuationModel) (person : PersonAgent)
    : EvacuationModel * PersonAgent :=
  if terminal (state person) then (leave_current m person, person) else (m, person).

(** The body of the post-step loop of [step] for one person. *)
Definition post_step `{FloatMath} (m : EvacuationModel) (person : PersonAgent)
    : EvacuationModel * PersonAgent :=
  if bool_decide (state person = evacuating) then
    let arrival := get_time_to_inundation (hazard m) (pos person) in
    let overtaken_now :=
      match arrival with
      | Some a => nan_le a (sim_time m)
      | None => false
      end in
    if overtaken_now then _become_overtaken m person
    else
      let '(m, person) :=
        match arrival with
        | Some a =>
            let time_left := nan_sub a (sim_time m) in
            if nan_le time_left (reroute_threshold_s m) then reroute m person
            else (m, person)
        | None => (m, person)
        end in
      let '(m, person) :=
        match evac_center_id person ≫= get_evac_agent_by_id m with
        | Some evac_agent =>
            if negb (can_accept evac_agent) then reroute m person else (m, person)
        | None => (m, person)
        end in
      cleanup m person
  else cleanup m person.

(** [self.schedule.step()]: [RandomActivation] activates every agent once,
    in an order shuffled anew at each step; [order] is that order, as the
    ids of the persons (the step of an evacuation centre does nothing). *)
Definition schedule_step `{FloatMath} (order : list Z) (m : EvacuationModel)
    : EvacuationModel :=
  for_each_person Agents.step order m.

(** The first two statements of [step]: the clock of the model, then that
    of the hazard. *)
Definition advance_clock (m : EvacuationModel) : EvacuationModel :=
  let m := set_sim_time m (sim_time m + step_time_seconds m)%Qc in
  set_hazard m (update (hazard m) (sim_time m)).

(** [EvacuationModel.step] *)
Definition step `{FloatMath} (order : list Z) (m : EvacuationModel) : EvacuationModel :=
  let m := advance_clock m in
  let m := schedule_step order m in
  for_each_person post_step (unique_id <$> person_agents m) m.

Definition coastal_sources : list Coord :=
  [ (ratio 1226955 10000, ratio 142895 10000);
    (ratio 1227030 10000, ratio 142935 10000);
    (ratio 1226875 10000, ratio 142840 10000) ].

Definition register_all (c : CongestionManager) (G : GraphBuilder.Graph)
    : CongestionManager :=
  foldl (λ c e, register_segment c e.1.1 e.1.2 None) c (GraphBuilder.edges G).

(** The model of [__init__] when the shelters are spawned and nobody else
    yet: the attributes that the constructor sets later are never read
    before, and the congestion manager does not exist yet. *)
Definition unpopulated `{FloatMath} (evac_gdf : list EvacRow) (G : GraphBuilder.Graph)
    (step_time_seconds reroute_threshold_s : float) : EvacuationModel :=
  {| step_time_seconds := step_time_seconds;
     evac_agents := _spawn_evac_centers evac_gdf 1;
     person_agents := [];
     sim_time := 0%Qc;
     hazard := Hazard.init None (Some coastal_sources) (Some (of_int 15));
     congestion := None;
     reroute_threshold_s := reroute_threshold_s;
     ROAD_GRAPH := G |}.

(** [EvacuationModel.__init__], on the rows of the two files it reads and
    on the road graph the routing module built at import.  It raises what
    [_spawn_people] raises. *)
Definition init `{FloatMath} (buildings_gdf : list BuildingRow) (evac_gdf : list EvacRow)
    (G : GraphBuilder.Graph) (population_limit : option Z)
    (step_time_seconds reroute_threshold_s : float) : result EvacuationModel :=
  let m := unpopulated evac_gdf G step_time_seconds reroute_threshold_s in
  match _spawn_people m buildings_gdf population_limit with
  | Ok m => Ok (set_congestion m (Some (register_all Congestion.init G)))
  | Raise e => Raise e
  end.

(** The simulation driven from outside: one [step] per shuffled order. *)
Definition run `{FloatMath} (orders : list (list Z)) (m : EvacuationModel)
    : EvacuationModel :=
  foldl (λ m order, step order m) m orders.

(** An entry of the list that [get_agent_positions] returns. *)
Record AgentPosition := mkPosition {
  id : Z;
  lat : float;
  lon : float;
  position_state : State
}.

Definition get_agent_positions (m : EvacuationModel) : list AgentPosition :=
  (λ p, let '(lat, lon) := get_latlon p in
        mkPosition (unique_id p) lat lon (state p)) <$> person_agents m.

(** The model reporters of the data collector. *)
Definition num_agents (m : EvacuationModel) : nat := length (person_agents m).

Definition num_safe (m : EvacuationModel) : nat :=
  length (filter (λ p, reached p = true) (person_agents m)).

Definition num_overtaken (m : EvacuationModel) : nat :=
  length (filter (λ p, state p = overtaken) (person_agents m)).

End Model.

(** ** app.py *)

Module App.

(** [start_simulation] reads the query argument [limit]: absent or empty
    it stays falsy, a string that is not an integer becomes [None]. *)
Inductive LimitArg :=
  | Absent
  | NotAnInteger
  | Integer (n : Z).

Definition pop_limit (arg : LimitArg) : option Z :=
  match arg with
  | Integer n => Some n
  | Absent | NotAnInteger => None
  end.

(** The new [SIM_MODEL], or the exception that makes the reply an error 500
    and leaves [SIM_MODEL] as it was. *)
Definition start_simulation `{FloatMath} (arg : LimitArg)
    (buildings_gdf : list Model.BuildingRow) (evac_gdf : list Model.EvacRow)
    (G : GraphBuilder.Graph) : result Agents.EvacuationModel :=
  Model.init buildings_gdf evac_gdf G (pop_limit arg) 1%Qc (of_int 30).

(** The [population] field of the reply. *)
Definition population (m : Agents.EvacuationModel) : nat :=
  length (Agents.person_agents m).

(** The reply of [simulation_stats], for a running simulation. *)
Record Stats := mkStats {
  time : float;
  stats_population : nat;
  num_safe : nat;
  num_stuck : nat;
  num_overtaken : nat;
  hazard_summary : Hazard.Summary
}.

Definition count_state (s : Agents.State) (m : Agents.EvacuationModel) : nat :=
  length (filter (λ p, Agents.state p = s) (Agents.person_agents m)).

Definition simulation_stats (m : Agents.EvacuationModel) : Stats :=
  {| time := Agents.sim_time m;
     stats_population := length (Agents.person_agents m);
     num_safe := count_state Agents.safe m;
     num_stuck := count_state Agents.stuck m;
     num_overtaken := count_state Agents.overtaken m;
     hazard_summary := Hazard.summary (Agents.hazard m) |}.

(** A feature of the reply of [congestion_geojson]: the two ends of the
    segment and its properties. *)
Record CongestionFeature := mkFeature {
  coordinates : Coord * Coord;
  feature_capacity : Z;
  feature_density : Z;
  intensity : float
}.

(** [min(1.0, density / capacity) if capacity > 0 else 0] *)
Definition intensity_of (capacity density : Z) : float :=
  if bool_decide (0 < capacity)%Z
  then fmin 1%Qc (of_int density / of_int capacity)%Qc
  else 0%Qc.

(** The features of [congestion_geojson], one for each item of
    [segment_data]. *)
Definition congestion_geojson (m : Agents.EvacuationModel) : list CongestionFeature :=
  match Agents.congestion m with
  | None => []
  | Some cong =>
      (λ item : Coord * Coord * Congestion.SegmentEntry,
         let '(key, meta) := item in
         mkFeature key (Congestion.capacity meta) (Congestion.density meta)
           (intensity_of (Congestion.capacity meta) (Congestion.density meta)))
        <$> map_to_list (Congestion.segment_data cong)
  end.

End App.

(** ** Vocabulary of the properties *)

Module Spec.
Import Congestion Hazard Agents Model.
Local Open Scope Z_scope.

(** *** Congestion *)

(** A call on the manager. *)
Inductive Call :=
  | Register (a b : Coord) (cap : option Z)
  | Enter (a b : Coord)
  | Leave (a b : Coord).

Definition call (cm : CongestionManager) (c : Call) : CongestionManager :=
  match c with
  | Register a b cap => register_segment cm a b cap
  | Enter a b => enter_segment cm a b
  | Leave a b => leave_segment cm a b
  end.

Definition calls (cs : list Call) (cm : CongestionManager) : CongestionManager :=
  foldl call cm cs.

(** No entry has a negative density. *)
Definition nonneg (cm : CongestionManager) : Prop :=
  map_Forall (λ _ e, 0 ≤ density e) (segment_data cm).

(** *** Routing *)

(** Every entry of the frontier is a walk from the source, last node first. *)
Definition sound_frontier (G : GraphBuilder.Graph) (s : Coord) (frontier : list Nx.Entry) : Prop :=
  ∀ d walk, (d, walk) ∈ frontier →
    ∃ u rest, walk = u :: rest ∧ Nx.walk_from G s u (reverse walk).

(** What bounds the rounds of [Nx.dijkstra]: the entries waiting in the
    frontier, and the edge ends that are not settled yet (settling a node
    pushes at most one entry per edge end at that node). *)
Definition unsettled (settled : list Coord) (x : Coord) : nat :=
  if bool_decide (x ∈ settled) then 0%nat else 1%nat.

Definition unsettled_ends (settled : list Coord) (es : list (Coord * Coord * float)) : nat :=
  sum_list ((λ e, unsettled settled e.1.1 + unsettled settled e.1.2)%nat <$> es).

Definition rounds_left (G : GraphBuilder.Graph) (settled : list Coord)
    (frontier : list Nx.Entry) : nat :=
  (length frontier + unsettled_ends settled (GraphBuilder.edges G))%nat.

(** *** Shelters *)

(** The counter of a shelter is within its capacity; a shelter whose
    capacity is negative or NaN can accept nobody and its counter stays
    at 0. *)
Definition within_capacity (e : EvacCenterAgent) : Prop :=
  0 ≤ occupants e
  ∧ match evac_capacity e with
    | Finite c => occupants e ≤ Z.max 0 c
    | NaN => occupants e ≤ 0
    end.

Definition shelters_ok (m : EvacuationModel) : Prop :=
  Forall within_capacity (evac_agents m).

(** What can happen to a shelter counter: a tick of the simulation (with the
    activation order of that tick), the arrival of a person, or a bare call of
    [add_occupant] on a shelter. *)
Inductive Event :=
  | Tick (order : list Z)
  | Arrival (uid : Z)
  | Increment (id_ : Z).

Definition occur `{FloatMath} (m : EvacuationModel) (ev : Event) : EvacuationModel :=
  match ev with
  | Tick order => Model.step order m
  | Arrival uid => for_each_person _arrive [uid] m
  | Increment id_ =>
      match get_evac_agent_by_id m id_ with
      | Some agent => put_evac_agent m (add_occupant agent).1
      | None => m
      end
  end.

Definition history `{FloatMath} (evs : list Event) (m : EvacuationModel) : EvacuationModel :=
  foldl occur m evs.

(** *** Movement *)

(** The hop over the segment [(a, b)] of length 0 costs none of the tick:
    the step goes on from the next segment, as the step of the person
    put there would. *)
Definition instantaneous_hop `{FloatMath} (m : EvacuationModel) (self : PersonAgent)
    (a b : Coord) : Prop :=
  Agents.step m self = Agents.step (hop m self a b).1 (hop m self a b).2.

(** *** Population *)

(** The number of persons a row of the building data stands for: none
    without geometry, one when the table has no [pop] column, and none either
    where [pop] is NaN (the constructor does not get past such a row). *)
Definition inhabitants (row : BuildingRow) : nat :=
  match building_geometry row, building_count row 1 with
  | Some _, Ok count => Z.to_nat count
  | _, _ => 0
  end.

(** The number of persons the building data stands for. *)
Fixpoint full_population (rows : list BuildingRow) : nat :=
  match rows with
  | [] => 0
  | row :: rest => (inhabitants row + full_population rest)%nat
  end.

(** The rows the loop of [_spawn_people] cannot get past: those with a
    geometry and NaN under [pop]. *)
Definition unreadable (row : BuildingRow) : Prop :=
  is_Some (building_geometry row) ∧ pop row = Some NaN.

(** What a limit makes of a number of persons: [None] and [0] are no limit. *)
Definition capped (population_limit : option Z) (k : nat) : nat :=
  match population_limit with
  | None => k
  | Some l => if bool_decide (l = 0) then k else Nat.min (Z.to_nat l) k
  end.

(** The loops keep [spawned] equal to the number of persons created. *)
Definition counted (st : Spawn) : Prop := spawned st = Z.of_nat (length (created st)).

(** The operations on one person neither add nor remove persons of the
    model, and keep the id of the person. *)
Definition same_people (before : EvacuationModel * PersonAgent)
    (after : EvacuationModel * PersonAgent) : Prop :=
  person_agents after.1 = person_agents before.1
  ∧ unique_id after.2 = unique_id before.2.

(** *** Congestion, call by call *)

(** The segment a call is about. *)
Definition segment_of (c : Call) : Coord * Coord :=
  match c with
  | Register a b _ | Enter a b | Leave a b => key a b
  end.

(** The calls the agents make while they move: never a registration. *)
Definition traffic (c : Call) : Prop :=
  match c with
  | Register _ _ _ => False
  | Enter _ _ | Leave _ _ => True
  end.

(** No capacity is 0, neither the default nor that of a segment. *)
Definition sized (cm : CongestionManager) : Prop :=
  default_capacity cm ≠ 0 ∧ map_Forall (λ _ e, capacity e ≠ 0) (segment_data cm).

(** The manager holds exactly the segments of the road graph, each of
    capacity 8 and with a density that is not negative. *)
Definition road_segments (G : GraphBuilder.Graph) (cm : CongestionManager) : Prop :=
  (∀ k e, segment_data cm !! k = Some e →
     capacity e = 8 ∧ 0 ≤ density e
     ∧ ∃ (u v : Coord) (w : float), (u, v, w) ∈ GraphBuilder.edges G ∧ k = key u v)
  ∧ (∀ (u v : Coord) (w : float),
       (u, v, w) ∈ GraphBuilder.edges G → is_Some (segment_data cm !! key u v)).

Definition on_roads (G : GraphBuilder.Graph) (m : EvacuationModel) : Prop :=
  ∃ cm, congestion m = Some cm ∧ road_segments G cm.

(** *** Hazard *)

(** The mode flags of a hazard say what it holds, and it holds polygons or
    source points, never both. *)
Definition coherent (h : TsunamiHazard) : Prop :=
  (_has_precomputed h = true ↔ _polygons h ≠ [])
  ∧ (_has_dynamic h = true ↔
       _source_points_m h ≠ [] ∧ ∃ v, _prop_speed h = Some v ∧ (0 < v)%Qc)
  ∧ (_polygons h = [] ∨ _source_points_m h = []).

(** The hazard that [EvacuationModel.__init__] builds. *)
Definition initial_hazard `{FloatMath} : TsunamiHazard :=
  Hazard.init None (Some coastal_sources) (Some (of_int 15)).

(** *** Road graph *)

(** The lines of a row of the road file, and of all its rows. *)
Definition lines_of (geom : GraphBuilder.RoadGeom) : list (list Coord) :=
  match geom with
  | GraphBuilder.LineString coords => [coords]
  | GraphBuilder.MultiLineString geoms => geoms
  | GraphBuilder.NoGeom | GraphBuilder.OtherGeom => []
  end.

Definition road_lines (roads : list GraphBuilder.RoadGeom) : list (list Coord) :=
  roads ≫= lines_of.

(** [v] follows [u] in the line [l]. *)
Definition consecutive (l : list Coord) (u v : Coord) : Prop :=
  ∃ i, l !! i = Some u ∧ l !! S i = Some v.

(** The two ends of an edge. *)
Definition ends (e : Coord * Coord * float) : Coord * Coord := (e.1.1, e.1.2).

(** No node twice, every edge between two nodes and weighted by their
    distance, and no two edges between the same two nodes. *)
Definition well_formed `{FloatMath} (G : GraphBuilder.Graph) : Prop :=
  NoDup (GraphBuilder.nodes G)
  ∧ (∀ u v w, (u, v, w) ∈ GraphBuilder.edges G →
       u ∈ GraphBuilder.nodes G ∧ v ∈ GraphBuilder.nodes G
       ∧ w = GraphBuilder.distance u v)
  ∧ (∀ i j e e', GraphBuilder.edges G !! i = Some e → GraphBuilder.edges G !! j = Some e' →
       GraphBuilder.same_edge e.1.1 e.1.2 e' = true → i = j).

(** *** Nearest of a list *)

(** The squared distance in degrees that the scans compare. *)
Definition sqdist (a b : Coord) : float :=
  ((a.1 - b.1) * (a.1 - b.1) + (a.2 - b.2) * (a.2 - b.2))%Qc.

(** [res] is the first element of [l] at which [d] is least; [None] when
    [l] is empty. *)
Definition first_least {A} (d : A → float) (l : list A) (res : option A) : Prop :=
  match res with
  | None => l = []
  | Some x =>
      ∃ i, l !! i = Some x
        ∧ (∀ j y, l !! j = Some y → (d x ≤ d y)%Qc)
        ∧ (∀ j y, (j < i)%nat → l !! j = Some y → (d x < d y)%Qc)
  end.

(** The scan for a least distance, whatever is scanned: the shape shared by
    [nearest_node] and [_find_nearest_evac_center]. *)
Fixpoint scan {A} (d : A → float) (l : list A) (min_dist : option float)
    (nearest : option A) : option A :=
  match l with
  | [] => nearest
  | x :: rest =>
      if lt_min (d x) min_dist then scan d rest (Some (d x)) (Some x)
      else scan d rest min_dist nearest
  end.

(** *** Shelters over time *)

(** [n] calls of [add_occupant] on a shelter. *)
Definition arrivals (n : nat) (e : EvacCenterAgent) : EvacCenterAgent :=
  Nat.iter n (λ e, (add_occupant e).1) e.

(** A shelter later on: the same shelter, with no fewer occupants. *)
Definition fills (before after : EvacCenterAgent) : Prop :=
  evac_id after = evac_id before ∧ loc after = loc before
  ∧ evac_capacity after = evac_capacity before
  ∧ occupants before ≤ occupants after.

(** The id and the place of every shelter. *)
Definition static (m : EvacuationModel) : list (Z * Coord) :=
  (λ e, (evac_id e, loc e)) <$> evac_agents m.

(** *** What an operation on a person may do to the model

    It leaves the clock, the hazard and the road graph alone, it lets
    shelters fill, and all it does to the congestion manager is enter and
    leave segments. *)
Record evolves (before after : EvacuationModel) : Prop := mkEvolves {
  evolves_step_time : step_time_seconds after = step_time_seconds before;
  evolves_sim_time : sim_time after = sim_time before;
  evolves_hazard : hazard after = hazard before;
  evolves_threshold : reroute_threshold_s after = reroute_threshold_s before;
  evolves_graph : ROAD_GRAPH after = ROAD_GRAPH before;
  evolves_shelters :
    NoDup (evac_id <$> evac_agents before) →
    Forall2 fills (evac_agents before) (evac_agents after);
  evolves_traffic :
    ∃ cs, Forall traffic cs ∧ congestion after = calls cs <$> congestion before
}.

(** The model after [k] ticks of [dt] seconds. *)
Record ticking `{FloatMath} (dt threshold : float) (G : GraphBuilder.Graph) (k : nat)
    (m : EvacuationModel) : Prop := mkTicking {
  ticking_time : sim_time m = (of_int (Z.of_nat k) * dt)%Qc;
  ticking_hazard : hazard m = update initial_hazard (sim_time m);
  ticking_step : step_time_seconds m = dt;
  ticking_threshold : reroute_threshold_s m = threshold;
  ticking_graph : ROAD_GRAPH m = G
}.

(** *** What a step may do to a person *)

(** The plan of the person stays, and the cursor only moves forward, never
    past the last node of the route. *)
Definition keeps (p p' : PersonAgent) : Prop :=
  unique_id p' = unique_id p ∧ home p' = home p ∧ speed p' = speed p
  ∧ route p' = route p ∧ evac_center_id p' = evac_center_id p
  ∧ (_route_idx p' = _route_idx p
     ∨ (_route_idx p < _route_idx p' < length (route p))%nat).

(** The state and the flag [reached] after an operation: as before, or
    safe and reached, or overtaken and not reached, or stuck from
    evacuating. *)
Definition outcome (p p' : PersonAgent) : Prop :=
  (state p' = state p ∧ reached p' = reached p)
  ∨ (state p' = safe ∧ reached p' = true)
  ∨ (state p' = overtaken ∧ reached p' = false)
  ∨ (state p' = stuck ∧ reached p' = reached p ∧ state p = evacuating).

(** A person of a running simulation on the graph [G] with the shelters
    [E]: the cursor is inside the route, [reached] says safe, the speed is
    the walking speed, and an evacuating person has a route of two nodes or
    more that is a walk of the graph to the node nearest to its shelter. *)
Record sound (G : GraphBuilder.Graph) (E : list (Z * Coord)) (p : PersonAgent) : Prop :=
  mkSound {
  sound_cursor : route p = [] ∨ (_route_idx p < length (route p))%nat;
  sound_flag : reached p = true ↔ state p = safe;
  sound_speed : speed p = ratio 14 10;
  sound_route :
    state p = evacuating →
    (2 ≤ length (route p))%nat
    ∧ ∃ id_ where_ s t,
        evac_center_id p = Some id_ ∧ (id_, where_) ∈ E
        ∧ Routing.nearest_node G where_ = Some t
        ∧ Nx.walk_from G s t (route p)
}.

Definition world (G : GraphBuilder.Graph) (E : list (Z * Coord)) (m : EvacuationModel)
    : Prop :=
  ROAD_GRAPH m = G ∧ static m = E ∧ NoDup E.*1.

(** The loops of [_spawn_people] number the persons from 1000 on. *)
Definition numbered (st : Spawn) : Prop :=
  unique_id <$> created st = seqZ 1000 (Z.of_nat (length (created st)))
  ∧ person_id_gen st = 1000 + Z.of_nat (length (created st)).

(** A person who has not moved and has nowhere to go. *)
Definition at_home (p : PersonAgent) : Prop :=
  pos p = home p ∧ route p = [] ∧ reached p = false
  ∧ (state p = idle ∨ state p = stuck).

(** The homes that the building file asks for, one per inhabitant, in the
    order of the file. *)
Definition homes_of (rows : list BuildingRow) : list Coord :=
  rows ≫= λ row,
    match building_geometry row with
    | Some geom => replicate (inhabitants row) (site_lonlat geom)
    | None => []
    end.

(** The person numbered [1000 + i] lives at the [i]-th of these homes. *)
Definition housed (homes : list Coord) (p : PersonAgent) : Prop :=
  ∃ i : nat, unique_id p = 1000 + Z.of_nat i ∧ homes !! i = Some (home p).

(** *** Evaluation

    [with_value x k] is [k x]; written so, a value that is costly to compute
    is not copied into the statement that uses it. *)
Definition with_value {A B} (x : A) (k : A → B) : B := k x.

End Spec.

(** ** A computable instance of the numeric functions

    Closed examples need numbers.  [approx_math] evaluates the library
    functions by their power series around 0, rounded down to 18 decimal
    places; on the angles of the examples (a fraction of a radian) it agrees
    with the floating-point functions to better than one part in 10^9. *)

Module Approx.

Definition ulp : Z := 1000000000000000000.

Definition round (x : float) : float :=
  Q2Qc ((Qnum x * ulp / Z.pos (Qden x)) # Z.to_pos ulp).

Definition pi : float := ratio 3141592653589793238 1000000000000000000.

Definition sqrt (x : float) : float :=
  Q2Qc (Z.sqrt (Qnum x * (ulp * ulp) / Z.pos (Qden x)) # Z.to_pos ulp).

Definition sin (x : float) : float :=
  round (x - x * x * x / of_int 6 + x * x * x * x * x / of_int 120
         - x * x * x * x * x * x * x / of_int 5040)%Qc.

Definition cos (x : float) : float :=
  round (1 - x * x / of_int 2 + x * x * x * x / of_int 24
         - x * x * x * x * x * x / of_int 720)%Qc.

(** Only the first quadrant near the axis is needed: [atan2 y x] for
    [0 <= y] much smaller than [x]. *)
Definition atan2 (y x : float) : float :=
  if flt 0%Qc x
  then let t := round (y / x)%Qc in
       round (t - t * t * t / of_int 3 + t * t * t * t * t / of_int 5)%Qc
  else (pi / of_int 2)%Qc.

Definition radians (x : float) : float := round (x * pi / of_int 180)%Qc.

Definition hypot (x y : float) : float := sqrt (x * x + y * y)%Qc.

(** Spherical Mercator on the radius 6378137 m: [x = R * lon],
    [y = R * ln (tan (pi/4 + lat/2))], the latter by its series in [lat]. *)
Definition transform (lon lat : float) : float * float :=
  let R := of_int 6378137 in
  let l := radians lon in
  let p := radians lat in
  (round (R * l)%Qc,
   round (R * (p + p * p * p / of_int 6 + p * p * p * p * p / of_int 24
               + of_int 61 * p * p * p * p * p * p * p / of_int 5040))%Qc).

End Approx.

Definition approx_math : FloatMath := {|
  sqrt := Approx.sqrt; sin := Approx.sin; cos := Approx.cos; atan2 := Approx.atan2;
  radians := Approx.radians; hypot := Approx.hypot; transform := Approx.transform |}.

(** ** Worked simulations *)

Module Scenario.
Import Agents Model.

(** A coordinate given in millionths of a degree. *)
Definition deg6 (lon lat : Z) : Coord := (ratio lon 1000000, ratio lat 1000000).

Definition building (c : Coord) : BuildingRow := mkBuildingRow (Some (Point c.1 c.2)) None.
Definition shelter (c : Coord) : EvacRow := mkEvacRow (Some (Point c.1 c.2)) None.

(** The model that a start gives; the tables of the examples hold no NaN,
    so that their start does not raise. *)
Definition started (r : result EvacuationModel) : EvacuationModel :=
  try_except r (@Model.unpopulated approx_math [] GraphBuilder.empty_graph 1%Qc (of_int 30)).

Definition start (roads : list GraphBuilder.RoadGeom) (buildings : list Coord)
    (shelters : list Coord) : EvacuationModel :=
  started
    (@App.start_simulation approx_math App.Absent (building <$> buildings)
       (shelter <$> shelters) (@GraphBuilder.build_road_graph approx_math roads)).

Definition tick (order : list Z) (m : EvacuationModel) : EvacuationModel :=
  @Model.step approx_math order m.

Definition ticks (orders : list (list Z)) (m : EvacuationModel) : EvacuationModel :=
  @Model.run approx_math orders m.

Definition length_m (a b : Coord) : float := @_segment_length_m approx_math a b.

(** Reading a model: a person, the counter of a shelter, the density and the
    multiplier of a segment. *)
Definition person (m : EvacuationModel) (uid : Z) : PersonAgent :=
  default (new_person uid (0%Qc, 0%Qc) 0%Qc) (get_person m uid).

Definition occupants_of (m : EvacuationModel) (id_ : Z) : Z :=
  default 0 (occupants <$> get_evac_agent_by_id m id_).

Definition density_on (m : EvacuationModel) (a b : Coord) : Z :=
  default 0 ((λ c, Congestion.get_density c a b) <$> congestion m).

(** The length of a route, segment by segment. *)
Fixpoint route_length_m (r : list Coord) : float :=
  match r with
  | a :: ((b :: _) as rest) => (length_m a b + route_length_m rest)%Qc
  | _ => 0%Qc
  end.

(** The least integer that is not below [x]. *)
Definition ceiling (x : float) : Z := - ((- Qnum x) / Z.pos (Qden x)).

(** *** A short first segment before a longer one

    A road of three nodes on the meridian 122 E, far from the coast: [A1],
    1.0 m further north [B1], 10.1 m further [C1].  One building at [A1],
    the shelter at [C1]. *)
Definition A1 : Coord := deg6 122000000 14000000.
Definition B1 : Coord := deg6 122000000 14000009.
Definition C1 : Coord := deg6 122000000 14000100.

Definition bend_graph : GraphBuilder.Graph :=
  @GraphBuilder.build_road_graph approx_math [GraphBuilder.LineString [A1; B1; C1]].

Definition bend : EvacuationModel :=
  start [GraphBuilder.LineString [A1; B1; C1]] [A1] [C1].

(** Three ticks of its one person, who is safe after the second. *)
Definition three_ticks : list (list Z) := [[1000]; [1000]; [1000]].

(** *** A very short first segment

    The same road with [B2] only 0.11 m from [A1]. *)
Definition B2 : Coord := deg6 122000000 14000001.

Definition stub : EvacuationModel :=
  start [GraphBuilder.LineString [A1; B2; C1]] [A1] [C1].

(** *** A shelter on the shore

    A road of 1.0 m that starts on the first source point of the hazard;
    the building at its start, the shelter at its end. *)
Definition A3 : Coord := deg6 122695500 14289500.
Definition B3 : Coord := deg6 122695500 14289509.

Definition shore : EvacuationModel :=
  start [GraphBuilder.LineString [A3; B3]] [A3] [B3].

(** *** Two persons on one segment

    A road of 301 m from the shore ([A3]) inland ([B4]), and two shelters
    beside it.  The person of [home_b] (id 1000) starts from [B4] towards the
    shelter [shelter_a], which snaps to [A3]; the person of [home_a] (id 1001)
    starts from [A3] towards [shelter_b], which snaps to [B4]. *)
Definition B4 : Coord := deg6 122694200 14291900.
Definition home_a : Coord := deg6 122694440 14290320.
Definition home_b : Coord := deg6 122695260 14291080.
Definition shelter_a : Coord := deg6 122695400 14290840.
Definition shelter_b : Coord := deg6 122694300 14290560.

Definition shared : EvacuationModel :=
  start [GraphBuilder.LineString [A3; B4]] [home_b; home_a] [shelter_a; shelter_b].

(** The same without the person who starts on the shore. *)
Definition alone : EvacuationModel :=
  start [GraphBuilder.LineString [A3; B4]] [home_b] [shelter_a; shelter_b].

(** The second tick of that simulation, with the post-step loop cut in two:
    the model after the loop has handled person 1000, and after it has
    handled person 1001 as well. *)
Definition second_tick (m1 : EvacuationModel) : EvacuationModel * EvacuationModel :=
  let moved := @schedule_step approx_math [1000; 1001] (advance_clock m1) in
  let half := for_each_person (@post_step approx_math) [1000] moved in
  (half, for_each_person (@post_step approx_math) [1001] half).

(** *** Two persons for one place

    A road of 1.0 m with two persons at its start and, at its end, a shelter
    of capacity 1. *)
Definition crowd : EvacuationModel :=
  started
    (@App.start_simulation approx_math App.Absent [building A1; building A1]
       [mkEvacRow (Some (Point B1.1 B1.2)) (Some (Finite 1))]
       (@GraphBuilder.build_road_graph approx_math [GraphBuilder.LineString [A1; B1]])).

(** *** Two roads that do not meet *)
Definition R1 : Coord := deg6 122010000 14000000.
Definition T1 : Coord := deg6 122010000 14000100.

Definition two_islands : GraphBuilder.Graph :=
  @GraphBuilder.build_road_graph approx_math
    [GraphBuilder.LineString [A1; C1]; GraphBuilder.LineString [R1; T1]].

(** The nodes of the western road. *)
Definition west (c : Coord) : bool := flt c.1 (ratio 122005 1000).

(** *** Two persons on a segment of capacity 1

    The segment from (0, 0) to (0, 0.0009), about 100 m. *)
Definition O1 : Coord := deg6 0 0.
Definition N1 : Coord := deg6 0 900.

Definition two_on_one : Congestion.CongestionManager :=
  Spec.calls [Spec.Register O1 N1 (Some 1); Spec.Enter O1 N1; Spec.Enter O1 N1]
    Congestion.init.

(** *** A hazard without data: no file, no source point *)
Definition no_hazard : Hazard.TsunamiHazard :=
  @Hazard.init approx_math None None (Some (of_int 15)).

(** *** Building data for eight persons: a point with 3, a row without
    geometry, a point with 1, a polygon with 4 *)
Definition census : list BuildingRow :=
  [ mkBuildingRow (Some (Point A1.1 A1.2)) (Some (Finite 3));
    mkBuildingRow None (Some (Finite 10));
    mkBuildingRow (Some (Point A1.1 A1.2)) (Some (Finite 1));
    mkBuildingRow (Some (NonPoint B1)) (Some (Finite 4)) ].

(** The town of these buildings on the road of [bend], started with
    [limit=5]. *)
Definition census_town : EvacuationModel :=
  started (@App.start_simulation approx_math (App.Integer 5) census [shelter C1] bend_graph).

(** The same data from a file whose third feature has no [pop]. *)
Definition census_with_gap : list BuildingRow :=
  [ mkBuildingRow (Some (Point A1.1 A1.2)) (Some (Finite 3));
    mkBuildingRow None (Some (Finite 10));
    mkBuildingRow (Some (Point A1.1 A1.2)) (Some NaN);
    mkBuildingRow (Some (NonPoint B1)) (Some (Finite 4)) ].

(** *** A route with a repeated node, on registered segments

    The road [A1; A1; C1]: the road graph has the edge from [A1] to itself,
    of length 0, and the edge from [A1] to [C1], and the constructor
    registers both segments.  The person of the model is sent along
    [A1; A1; C1]. *)
Definition detour : EvacuationModel :=
  start [GraphBuilder.LineString [A1; A1; C1]] [A1] [C1].

Definition hopper : EvacuationModel * PersonAgent :=
  assign_route detour (person detour 1000) [A1; A1; C1] 1.

(** *** Two segments in a row

    The segment of [two_on_one] and the next one, from [N1] to [M1], of
    the default capacity, with one person on it. *)
Definition M1 : Coord := deg6 0 1800.

Definition two_segments : Congestion.CongestionManager :=
  Spec.calls
    [Spec.Register O1 N1 (Some 1); Spec.Register N1 M1 None;
     Spec.Enter O1 N1; Spec.Enter O1 N1; Spec.Enter N1 M1]
    Congestion.init.

(** *** The hazard of [test_hazard.py]

    One source point, a wave of 10 m/s, and the point 0.001 degrees east of
    the source, about 111 m away. *)
Definition test_source : Coord := (ratio 122695 1000, ratio 1429 100).
Definition test_point : Coord := (ratio 122696 1000, ratio 1429 100).

Definition test_hazard : Hazard.TsunamiHazard :=
  @Hazard.init approx_math None (Some [test_source]) (Some (of_int 10)).

(** *** A wave that does not advance: the coastal sources with the speed -15 *)
Definition ebb : Hazard.TsunamiHazard :=
  @Hazard.init approx_math None (Some Model.coastal_sources) (Some (of_int (-15))).

(** *** A person who lives on the node of the shelter of [bend] *)
Definition neighbour : PersonAgent := new_person 1000 C1 (ratio 14 10).

(** *** A town without roads, and one without shelter *)
Definition roadless : EvacuationModel := start [] [A1] [C1].

Definition shelterless : EvacuationModel :=
  start [GraphBuilder.LineString [A1; B1; C1]] [A1] [].

(** *** A person at the start of one segment of 11.1 m

    The person of [bend] with the route from [A1] straight to [C1], and the
    progress after one step of 1.4 m. *)
Definition walker : EvacuationModel * PersonAgent :=
  assign_route bend (new_person 1000 A1 (ratio 14 10)) [A1; C1] 1.

Definition walker_progress : float :=
  (_segment_progress walker.2
   + speed walker.2 * speed_factor_on walker.1 A1 C1 * step_time_seconds walker.1
     / length_m A1 C1)%Qc.

End Scenario.

(** * Properties *)

(** ** Proof by evaluation *)

Import Spec.

(** A closed, decidable statement, settled by evaluating its decision. *)
Ltac by_evaluation :=
  apply (bool_decide_eq_true_1 _); vm_compute; reflexivity.

(** A statement about a value [x] that is costly to compute, or about [x]
    and [f x], settled by evaluating its decision with each computed once. *)
Lemma decide_at {A} (P : A → Prop) `{∀ a, Decision (P a)} (x : A) :
  with_value x (λ a, bool_decide (P a)) = true → P x.
Proof. apply bool_decide_eq_true_1. Qed.

Lemma decide_at2 {A B} (f : A → B) (P : B → A → Prop)
    `{∀ b a, Decision (P b a)} (x : A) :
  with_value x (λ a, with_value (f a) (λ b, bool_decide (P b a))) = true → P (f x) x.
Proof. apply bool_decide_eq_true_1. Qed.

(** A start that does not raise gives the model of the example. *)
Lemma started_ok (r : result Agents.EvacuationModel) :
  is_ok r = true → r = Ok (Scenario.started r).
Proof. by destruct r. Qed.

Ltac by_starting := apply started_ok; vm_compute; reflexivity.

Ltac evaluate_at x :=
  pattern x;
  match goal with
  | |- ?P _ => refine (@decide_at _ P (λ a, _) x _); [vm_compute; reflexivity]
  end.

Ltac evaluate_at2 f x :=
  let y := fresh in
  set (y := f x); pattern y, x;
  match goal with
  | |- ?P _ _ => refine (@decide_at2 _ _ f P (λ b a, _) x _); [vm_compute; reflexivity]
  end.

(** ** Rational arithmetic *)

Section FloatFacts.
Local Open Scope Qc_scope.

Lemma fle_spec (x y : float) : fle x y = true ↔ x ≤ y.
Proof. unfold fle. apply bool_decide_eq_true. Qed.

Lemma flt_spec (x y : float) : flt x y = true ↔ x < y.
Proof. unfold flt. apply bool_decide_eq_true. Qed.

Lemma Qc_one_pos : (0 : Qc) < 1.
Proof. reflexivity. Qed.

Lemma Qcdiv_one_l (x : Qc) : 1 / x = / x.
Proof. unfold Qcdiv. apply Qcmult_1_l. Qed.

(** The reciprocal reverses the order on positive numbers. *)
Lemma Qcinv_lt_anti (x y : Qc) : 0 < x → x < y → / y < / x.
Proof.
  intros Hx Hxy.
  assert (Hy : 0 < y) by (eapply Qclt_trans; eauto).
  assert (x ≠ 0) by (intros ->; by apply (Qclt_not_eq 0 0)).
  assert (y ≠ 0) by (intros ->; by apply (Qclt_not_eq 0 0)).
  apply (Qcmult_lt_mono_pos_r _ _ (x * y)); [by apply Qcmult_pos_pos|].
  replace (/ y * (x * y)) with (x * (/ y * y)) by ring.
  replace (/ x * (x * y)) with (y * (/ x * x)) by ring.
  rewrite !Qcmult_inv_l by done. by rewrite !Qcmult_1_r.
Qed.

Lemma Qcinv_le_one (x : Qc) : 1 ≤ x → / x ≤ 1.
Proof.
  intros Hx.
  assert (Hpos : 0 < x) by (eapply Qclt_le_trans; [apply Qc_one_pos | done]).
  assert (x ≠ 0) by (intros ->; by apply (Qclt_not_eq 0 0)).
  apply (Qcmult_le_mono_pos_r _ _ x); [done|].
  rewrite Qcmult_inv_l, Qcmult_1_l by done. done.
Qed.

Lemma of_int_pos (n : Z) : (0 < n)%Z → 0 < of_int n.
Proof.
  intros Hn. unfold of_int.
  pose proof (proj1 (Z2Qc_inj_lt 0 n) Hn) as H. by rewrite Z2Qc_inj_0 in H.
Qed.

(** NaN is below nothing. *)
Lemma nan_le_spec (x : or_nan float) (y : float) :
  nan_le x y = true ↔ ∃ a, x = Finite a ∧ a ≤ y.
Proof.
  destruct x as [a|]; simpl.
  - rewrite fle_spec. split; [by exists a | by intros (? & [= <-] & ?)].
  - split; [done | by intros (? & ? & _)].
Qed.

End FloatFacts.

(** ** congestion.py *)

Module CongestionFacts.
Import Congestion Spec.
Local Open Scope Z_scope.


Lemma nonneg_init : nonneg init.
Proof. apply map_Forall_empty. Qed.

Lemma nonneg_register cm a b cap : nonneg cm → nonneg (register_segment cm a b cap).
Proof.
  intros H. unfold register_segment.
  destruct (segment_data cm !! key a b); [done|].
  apply map_Forall_insert_2; [simpl; lia | done].
Qed.

Lemma nonneg_enter cm a b : nonneg cm → nonneg (enter_segment cm a b).
Proof.
  intros H. unfold enter_segment.
  destruct (segment_data cm !! key a b) as [e|] eqn:He; [|done].
  apply map_Forall_insert_2; [|done].
  simpl. specialize (H _ _ He). simpl in H. lia.
Qed.

Lemma nonneg_leave cm a b : nonneg cm → nonneg (leave_segment cm a b).
Proof.
  intros H. unfold leave_segment.
  destruct (segment_data cm !! key a b) as [e|] eqn:He; [|done].
  apply map_Forall_insert_2; [simpl; lia | done].
Qed.

Lemma nonneg_call cm c : nonneg cm → nonneg (call cm c).
Proof.
  destruct c; simpl; auto using nonneg_register, nonneg_enter, nonneg_leave.
Qed.

Lemma nonneg_calls cs cm : nonneg cm → nonneg (calls cs cm).
Proof.
  revert cm. induction cs as [|c cs IH]; intros cm H; [done|].
  simpl. apply IH. by apply nonneg_call.
Qed.

Lemma get_density_nonneg cm a b : nonneg cm → 0 ≤ get_density cm a b.
Proof.
  intros H. unfold get_density.
  destruct (segment_data cm !! key a b) as [e|] eqn:He; [|done].
  apply (H _ _ He).
Qed.

(** C7.  Start from a fresh manager and make any finite sequence of
    [register_segment], [enter_segment] and [leave_segment] calls, in any
    order.  After each call (that is, after every prefix [take n cs] of the
    sequence) the density stored for every registered segment is an
    integer that is at least 0, and so is what [get_density] reports. *)
Theorem density_never_negative (cs : list Call) (n : nat) :
  let cm := calls (take n cs) init in
  (∀ k e, segment_data cm !! k = Some e → 0 ≤ density e)
  ∧ (∀ a b, 0 ≤ get_density cm a b).
Proof.
  intros cm.
  assert (H : nonneg cm) by apply nonneg_calls, nonneg_init.
  split; [exact H | intros; by apply get_density_nonneg].
Qed.

(** More [leave] than [enter] calls: the counter stops at 0. *)
Lemma leave_clamps cm a b e :
  segment_data cm !! key a b = Some e → density e = 0 →
  get_density (leave_segment cm a b) a b = 0.
Proof.
  intros He Hd. unfold get_density, leave_segment. rewrite He. simpl.
  rewrite lookup_insert_eq. simpl. lia.
Qed.

Lemma get_speed_multiplier_registered cm a b e :
  segment_data cm !! key a b = Some e →
  get_speed_multiplier cm a b =
    if bool_decide (density e ≤ capacity e) then 1%Qc
    else (1 / (1 + congestion_strength cm * of_int (density e - capacity e)))%Qc.
Proof. intros He. unfold get_speed_multiplier. by rewrite He. Qed.

(** The slowdown past saturation, as a function of the overflow. *)
Lemma denominator_ge_one (k : float) (n : Z) :
  (0 < k)%Qc → 0 < n → (1 < 1 + k * of_int n)%Qc.
Proof.
  intros Hk Hn.
  rewrite <-(Qcplus_0_r 1) at 1. apply Qcplus_lt_mono_l.
  apply Qcmult_pos_pos; [done | by apply of_int_pos].
Qed.

Lemma strength_pos : (0 < ratio 8 10)%Qc.
Proof. reflexivity. Qed.

(** C2.  On a registered segment, with the congestion strength 0.8 of
    the manager: the multiplier is exactly 1 when density <= capacity, and
    1 / (1 + 0.8 * (density - capacity)) otherwise; it always lies in
    (0, 1]; and of two states of the segment above capacity (same
    capacity), the denser one has the strictly smaller multiplier. *)
Theorem speed_multiplier_law (cm : CongestionManager) (a b : Coord) (e : SegmentEntry) :
  congestion_strength cm = ratio 8 10 →
  segment_data cm !! key a b = Some e →
  (density e ≤ capacity e → get_speed_multiplier cm a b = 1%Qc)
  ∧ (capacity e < density e →
     get_speed_multiplier cm a b
     = (1 / (1 + ratio 8 10 * of_int (density e - capacity e)))%Qc)
  ∧ (0 < get_speed_multiplier cm a b)%Qc
  ∧ (get_speed_multiplier cm a b ≤ 1)%Qc
  ∧ (∀ cm' e',
       congestion_strength cm' = ratio 8 10 →
       segment_data cm' !! key a b = Some e' →
       capacity e' = capacity e →
       capacity e < density e → density e < density e' →
       (get_speed_multiplier cm' a b < get_speed_multiplier cm a b)%Qc).
Proof.
  intros Hk He.
  rewrite (get_speed_multiplier_registered _ _ _ _ He), Hk.
  repeat split.
  - intros H. by rewrite bool_decide_true.
  - intros H. rewrite bool_decide_false by lia. done.
  - case_bool_decide; [reflexivity|].
    rewrite Qcdiv_one_l. apply Qcinv_pos.
    eapply Qclt_trans; [apply Qc_one_pos|].
    apply denominator_ge_one; [apply strength_pos | lia].
  - case_bool_decide; [apply Qcle_refl|].
    rewrite Qcdiv_one_l. apply Qcinv_le_one, Qclt_le_weak.
    apply denominator_ge_one; [apply strength_pos | lia].
  - intros cm' e' Hk' He' Hcap H1 H2.
    rewrite (get_speed_multiplier_registered _ _ _ _ He'), Hk'.
    rewrite !bool_decide_false by lia.
    rewrite !Qcdiv_one_l. apply Qcinv_lt_anti.
    + eapply Qclt_trans; [apply Qc_one_pos|].
      apply denominator_ge_one; [apply strength_pos | lia].
    + apply Qcplus_lt_mono_l. apply Qcmult_lt_mono_pos_l; [apply strength_pos|].
      unfold of_int. apply (proj1 (Z2Qc_inj_lt _ _)). lia.
Qed.

(** Two persons on the segment of capacity 1: the multiplier is
    1 / (1 + 0.8 * 1) = 5/9. *)
Lemma speed_multiplier_two_on_one :
  get_speed_multiplier Scenario.two_on_one Scenario.O1 Scenario.N1 = ratio 5 9
  ∧ (0 < get_speed_multiplier Scenario.two_on_one Scenario.O1 Scenario.N1)%Qc
  ∧ (get_speed_multiplier Scenario.two_on_one Scenario.O1 Scenario.N1 ≤ 1)%Qc.
Proof.
  destruct (speed_multiplier_law Scenario.two_on_one Scenario.O1 Scenario.N1
              (mkEntry 1 2)) as (_ & Hover & Hpos & Hle & _);
    [reflexivity | by_evaluation |].
  split; [|exact (conj Hpos Hle)].
  rewrite Hover by (simpl; lia). by_evaluation.
Defined.

End CongestionFacts.

(** ** hazard.py *)

Module HazardFacts.
Import Hazard.

Section Contract.
Context `{FloatMath}.

Lemma unconfigured_unknown (h : TsunamiHazard) (p : Coord) :
  _has_precomputed h = false → _has_dynamic h = false →
  get_time_to_inundation h p = None.
Proof. intros Hp Hd. unfold get_time_to_inundation. by rewrite Hp, Hd. Qed.

Lemma init_unconfigured (source_points : option (list Coord))
    (propagation_speed : option float) :
  truthy_list source_points && truthy_float propagation_speed = false →
  init None source_points propagation_speed = empty_hazard.
Proof. intros Hc. unfold init. by rewrite Hc. Qed.

Lemma update_flags (h : TsunamiHazard) (t : float) :
  _has_precomputed (update h t) = _has_precomputed h
  ∧ _has_dynamic (update h t) = _has_dynamic h
  ∧ current_time (update h t) = t.
Proof. done. Qed.

(** C4.  [is_inundated] at time [t] (the given time, or the current
    time of the model when none is given) is true exactly when the
    arrival time at the point is known and at most [t]; an unknown
    arrival time gives [false], and so does the arrival time NaN of a
    polygon whose row lacks it; and a hazard with neither strategy
    configured (both mode flags off, which is what the constructor
    builds without an inundation file and without both sources and a
    speed) answers every query with unknown and not inundated. *)
Theorem inundation_contract (h : TsunamiHazard) (p : Coord) (time : option float) :
  let t := match time with None => current_time h | Some t => t end in
  (is_inundated h p time = true
   ↔ ∃ arrival, get_time_to_inundation h p = Some (Finite arrival) ∧ (arrival ≤ t)%Qc)
  ∧ (get_time_to_inundation h p = None → is_inundated h p time = false)
  ∧ (get_time_to_inundation h p = Some NaN → is_inundated h p time = false)
  ∧ (_has_precomputed h = false → _has_dynamic h = false →
     get_time_to_inundation h p = None ∧ is_inundated h p time = false)
  ∧ (∀ source_points propagation_speed now,
       truthy_list source_points && truthy_float propagation_speed = false →
       let h0 := update (init None source_points propagation_speed) now in
       get_time_to_inundation h0 p = None ∧ is_inundated h0 p time = false).
Proof.
  intros t. unfold is_inundated. fold t.
  split; [split|split; [|split; [|split]]].
  - destruct (get_time_to_inundation h p) as [x|]; [|done].
    intros (a & -> & Ha)%nan_le_spec. by exists a.
  - intros (a & -> & Ha). by apply fle_spec.
  - by intros ->.
  - by intros ->.
  - intros Hp Hd. by rewrite (unconfigured_unknown h p Hp Hd).
  - intros sp ps now Hc. by rewrite init_unconfigured.
Qed.

End Contract.

(** A hazard built without file and without source points: unknown
    everywhere, nothing inundated at any time. *)
Lemma no_hazard_is_silent :
  _has_precomputed Scenario.no_hazard = false
  ∧ _has_dynamic Scenario.no_hazard = false
  ∧ @get_time_to_inundation approx_math Scenario.no_hazard Scenario.A3 = None
  ∧ @is_inundated approx_math Scenario.no_hazard Scenario.A3 (Some (of_int 3600)) = false.
Proof.
  split; [reflexivity|]. split; [reflexivity|].
  apply (@inundation_contract approx_math Scenario.no_hazard Scenario.A3
           (Some (of_int 3600))); reflexivity.
Defined.

End HazardFacts.

(** ** routing.py *)

Module RoutingFacts.
Import GraphBuilder Nx Routing Spec.

Lemma neighbors_adjacent G u v w : (v, w) ∈ neighbors G u → adjacent G u v.
Proof.
  unfold neighbors. rewrite list_elem_of_omap.
  intros ([[a b] w'] & Hin & Hsel). simpl in Hsel.
  repeat case_bool_decide; simplify_eq; exists w; auto.
Qed.

Lemma extract_min_elem frontier e rest :
  extract_min frontier = Some (e, rest) →
  e ∈ frontier ∧ ∀ x, x ∈ rest → x ∈ frontier.
Proof.
  revert e rest. induction frontier as [|x f IH]; intros e rest; [done|].
  simpl. destruct (extract_min f) as [[m others]|] eqn:Hm.
  - destruct (IH _ _ eq_refl) as [Hin Hsub].
    destruct (flt m.1 x.1); intros [= <- <-].
    + split; [by right|]. intros y [->|Hy]%elem_of_cons; [by left|]. right. auto.
    + split; [by left|]. intros y Hy. by right.
  - intros [= <- <-]. split; [by left|]. intros y Hy. by apply elem_of_nil in Hy.
Qed.


Lemma relax_sound G s settled d walk u rest :
  walk = u :: rest → walk_from G s u (reverse walk) →
  sound_frontier G s (relax G settled d walk u).
Proof.
  intros Hw Hwalk d' walk'. unfold relax. rewrite list_elem_of_omap.
  intros ([v w] & Hin & Hsel). simpl in Hsel.
  case_bool_decide; simplify_eq.
  exists v, (u :: rest). split; [done|].
  rewrite reverse_cons. econstructor; [done|]. by eapply neighbors_adjacent.
Qed.

Lemma dijkstra_sound fuel G s target settled frontier p :
  sound_frontier G s frontier →
  dijkstra fuel G target settled frontier = Ok p →
  walk_from G s target p.
Proof.
  revert settled frontier.
  induction fuel as [|fuel IH]; intros settled frontier Hinv; [done|].
  simpl. destruct (extract_min frontier) as [[[d walk] rest]|] eqn:Hmin; [|done].
  destruct (extract_min_elem _ _ _ Hmin) as [Hin Hsub].
  assert (Hrest : sound_frontier G s rest) by (intros ???; eapply Hinv; eauto).
  destruct walk as [|u walk']; [by apply IH|].
  case_bool_decide; [by apply IH|].
  destruct (Hinv _ _ Hin) as (u' & rest' & [= <- <-] & Hwalk).
  case_bool_decide as Hu.
  - intros [= <-]. by rewrite <-Hu.
  - apply IH. intros d' walk''. rewrite elem_of_app. intros [?|Hr]; [by eapply Hrest|].
    by eapply relax_sound.
Qed.

Lemma dijkstra_raises fuel G target settled frontier e :
  dijkstra fuel G target settled frontier = Raise e → e = NetworkXNoPath.
Proof.
  revert settled frontier.
  induction fuel as [|fuel IH]; intros settled frontier; simpl; [by intros [= <-]|].
  destruct (extract_min frontier) as [[[d walk] rest]|]; [|by intros [= <-]].
  destruct walk as [|u walk']; [by apply IH|].
  repeat case_bool_decide; [by apply IH | done | by apply IH].
Qed.

(** What [shortest_path] returns is a walk of the graph between its
    arguments. *)
Lemma shortest_path_sound G s t p :
  shortest_path G s t = Ok p → walk_from G s t p.
Proof.
  unfold shortest_path. case_bool_decide; [|done].
  apply dijkstra_sound. intros d walk [[= -> ->]|Hin%elem_of_nil]%elem_of_cons; [|done].
  exists s, []. split; [done|]. constructor.
Qed.

Lemma shortest_path_no_walk G s t :
  s ∈ nodes G → (∀ p, ¬ walk_from G s t p) →
  shortest_path G s t = Raise NetworkXNoPath.
Proof.
  intros Hs Hno.
  destruct (shortest_path G s t) as [p|e] eqn:Hsp.
  - by apply shortest_path_sound, Hno in Hsp.
  - f_equal. revert Hsp. unfold shortest_path. rewrite bool_decide_true by done.
    apply dijkstra_raises.
Qed.

(** The fuel of [dijkstra] never runs out: every round lowers
    [rounds_left], so any two amounts of fuel above it give the same result. *)
Lemma extract_min_None frontier : extract_min frontier = None → frontier = [].
Proof.
  destruct frontier as [|x f]; [done|]. simpl.
  destruct (extract_min f) as [[m others]|]; [|done]. by destruct (flt _ _).
Qed.

Lemma extract_min_length frontier e rest :
  extract_min frontier = Some (e, rest) → length frontier = S (length rest).
Proof.
  revert e rest. induction frontier as [|x f IH]; intros e rest; [done|].
  simpl. destruct (extract_min f) as [[m others]|] eqn:Hm.
  - specialize (IH _ _ eq_refl).
    destruct (flt m.1 x.1); intros [= <- <-]; simpl; lia.
  - intros [= <- <-]. by rewrite (extract_min_None _ Hm).
Qed.

Lemma unsettled_mono settled u x : (unsettled (u :: settled) x ≤ unsettled settled x)%nat.
Proof.
  unfold unsettled. repeat case_bool_decide; try lia.
  exfalso. set_solver.
Qed.

Lemma unsettled_self settled u :
  u ∉ settled → unsettled settled u = 1%nat ∧ unsettled (u :: settled) u = 0%nat.
Proof.
  intros Hu. unfold unsettled.
  rewrite bool_decide_false by done. rewrite bool_decide_true by set_solver. done.
Qed.

Lemma settle_pays settled u es :
  u ∉ settled →
  (length (omap (λ e : Coord * Coord * float,
                   let '(a, b, w) := e in
                   if bool_decide (a = u) then Some (b, w)
                   else if bool_decide (b = u) then Some (a, w)
                   else None) es)
   + unsettled_ends (u :: settled) es ≤ unsettled_ends settled es)%nat.
Proof.
  intros Hu. unfold unsettled_ends.
  induction es as [|[[a b] w] es IH]; [done|].
  cbn [omap list_omap fmap list_fmap sum_list]. simpl fst. simpl snd.
  pose proof (unsettled_mono settled u a) as Ha.
  pose proof (unsettled_mono settled u b) as Hb.
  destruct (unsettled_self settled u Hu) as [Hone Hzero].
  unfold id in *.
  destruct (decide (a = u)) as [->|Ha'].
  - rewrite bool_decide_true by done. cbn [length]. lia.
  - rewrite (bool_decide_false (a = u)) by done.
    destruct (decide (b = u)) as [->|Hb'].
    + rewrite bool_decide_true by done. cbn [length]. lia.
    + rewrite (bool_decide_false (b = u)) by done. lia.
Qed.

Lemma omap_length {A B} (f : A → option B) (l : list A) :
  (length (omap f l) ≤ length l)%nat.
Proof.
  induction l as [|x l IH]; [done|].
  cbn [omap list_omap]. destruct (f x); simpl; lia.
Qed.

Lemma relax_length G settled d walk u :
  (length (relax G settled d walk u) ≤ length (neighbors G u))%nat.
Proof. unfold relax. apply omap_length. Qed.

Lemma dijkstra_fuel fuel fuel' G target settled frontier :
  (rounds_left G settled frontier < fuel)%nat →
  (rounds_left G settled frontier < fuel')%nat →
  dijkstra fuel G target settled frontier = dijkstra fuel' G target settled frontier.
Proof.
  revert fuel' settled frontier.
  induction fuel as [|fuel IH]; intros fuel' settled frontier Hf Hf'; [lia|].
  destruct fuel' as [|fuel']; [lia|].
  simpl. destruct (extract_min frontier) as [[[d walk] rest]|] eqn:Hmin; [|done].
  apply extract_min_length in Hmin. unfold rounds_left in *.
  destruct walk as [|u walk']; [apply IH; lia|].
  case_bool_decide as Hset; [apply IH; lia|].
  case_bool_decide; [done|].
  pose proof (relax_length G (u :: settled) d (u :: walk') u).
  pose proof (settle_pays settled u (edges G) Hset) as Hpay.
  fold (neighbors G u) in Hpay.
  apply IH; rewrite length_app; lia.
Qed.

Lemma unsettled_ends_nil es : unsettled_ends [] es = (2 * length es)%nat.
Proof.
  unfold unsettled_ends. induction es as [|e es IH]; [done|].
  cbn [fmap list_fmap sum_list length]. unfold sum_list in *. cbn [sum_list_with].
  rewrite IH. unfold unsettled, id.
  rewrite !bool_decide_false by apply not_elem_of_nil. lia.
Qed.

Lemma shortest_path_fuel G s t extra :
  s ∈ nodes G →
  dijkstra (2 * length (edges G) + 2 + extra) G t [] [(0%Qc, [s])] = shortest_path G s t.
Proof.
  intros Hs. unfold shortest_path. rewrite bool_decide_true by done.
  apply dijkstra_fuel; unfold rounds_left; rewrite unsettled_ends_nil; simpl; lia.
Qed.

Lemma nearest_scan_elem ns point min_dist nearest s :
  nearest_scan ns point min_dist nearest = Some s → s ∈ ns ∨ nearest = Some s.
Proof.
  revert min_dist nearest.
  induction ns as [|n ns IH]; intros min_dist nearest; simpl; [auto|].
  destruct point as [px py], n as [nx ny].
  destruct (lt_min _ _); intros [Hin|Hn]%IH.
  - left. by right.
  - injection Hn as <-. left. by left.
  - left. by right.
  - by right.
Qed.

Lemma nearest_node_elem G point s : nearest_node G point = Some s → s ∈ nodes G.
Proof. intros [?|?]%nearest_scan_elem; done. Qed.

Lemma nearest_node_empty G point : nodes G = [] → nearest_node G point = None.
Proof. unfold nearest_node. by intros ->. Qed.

(** C3, as the code has it.  On an empty graph [compute_shortest_route]
    returns the empty sequence.  When both points snap to nodes between
    which the graph has no walk, it does not return: the [NetworkXNoPath]
    of the library call leaves the function, and it is the caller in the
    model ([route_or_empty], the [try ... except] around the call) that
    turns it into the empty path. *)
Theorem no_route_raises_and_caller_recovers
    (G : Graph) (start end_ : Coord) :
  (nodes G = [] → compute_shortest_route G start end_ = Ok [])
  ∧ (∀ s t,
       nearest_node G start = Some s → nearest_node G end_ = Some t →
       (∀ p, ¬ walk_from G s t p) →
       compute_shortest_route G start end_ = Raise NetworkXNoPath
       ∧ ∀ m, Agents.ROAD_GRAPH m = G → Model.route_or_empty m start end_ = []).
Proof.
  split.
  - intros Hn. unfold compute_shortest_route. by rewrite !nearest_node_empty.
  - intros s t Hs Ht Hno.
    assert (Hr : compute_shortest_route G start end_ = Raise NetworkXNoPath).
    { unfold compute_shortest_route. rewrite Hs, Ht.
      apply shortest_path_no_walk; [by eapply nearest_node_elem | done]. }
    split; [done|]. intros m <-. unfold Model.route_or_empty. by rewrite Hr.
Qed.

(** A walk stays on one side of any colouring that no edge crosses. *)
Lemma walk_keeps_colour (G : Graph) (colour : Coord → bool) s t p :
  Forall (λ e : Coord * Coord * float, colour e.1.1 = colour e.1.2) (edges G) →
  walk_from G s t p → colour t = colour s.
Proof.
  intros Hedges. rewrite Forall_forall in Hedges.
  induction 1 as [|u v p _ IH [w [Hin|Hin]]]; [done| |].
  - rewrite <-IH. symmetry. apply (Hedges _ Hin).
  - rewrite <-IH. apply (Hedges _ Hin).
Qed.

Lemma no_walk_between_islands p :
  ¬ walk_from Scenario.two_islands Scenario.A1 Scenario.T1 p.
Proof.
  intros Hw.
  apply (walk_keeps_colour _ Scenario.west) in Hw; [|by_evaluation].
  revert Hw. by_evaluation.
Qed.

(** C3 at a failing input.  A graph of two roads that do not meet; the
    two query points are nodes of it, one on each road, and no walk joins
    them.  [compute_shortest_route] raises [NetworkXNoPath]; it does not
    return the empty sequence. *)
Lemma no_route_between_islands_raises :
  nearest_node Scenario.two_islands Scenario.A1 = Some Scenario.A1
  ∧ nearest_node Scenario.two_islands Scenario.T1 = Some Scenario.T1
  ∧ (∀ p, ¬ walk_from Scenario.two_islands Scenario.A1 Scenario.T1 p)
  ∧ compute_shortest_route Scenario.two_islands Scenario.A1 Scenario.T1
    = Raise NetworkXNoPath
  ∧ compute_shortest_route Scenario.two_islands Scenario.A1 Scenario.T1 ≠ Ok [].
Proof.
  split; [by_evaluation|]. split; [by_evaluation|].
  split; [apply no_walk_between_islands|].
  split; by_evaluation.
Qed.

(** The same graph and points, and an empty graph, through the theorem. *)
Lemma no_route_between_islands_recovered :
  compute_shortest_route empty_graph Scenario.A1 Scenario.T1 = Ok []
  ∧ compute_shortest_route Scenario.two_islands Scenario.A1 Scenario.T1
    = Raise NetworkXNoPath
  ∧ ∀ m, Agents.ROAD_GRAPH m = Scenario.two_islands →
         Model.route_or_empty m Scenario.A1 Scenario.T1 = [].
Proof.
  split.
  - apply (no_route_raises_and_caller_recovers empty_graph). reflexivity.
  - apply (no_route_raises_and_caller_recovers Scenario.two_islands
             Scenario.A1 Scenario.T1) with (s := Scenario.A1) (t := Scenario.T1);
      [by_evaluation | by_evaluation | apply no_walk_between_islands].
Defined.

End RoutingFacts.

(** ** agents.py and model.py: shelters *)

Module ShelterFacts.
Import Congestion Hazard Agents Model Spec.
Local Open Scope Z_scope.

(** What the constructor returns, when it returns, and what it raises. *)
Lemma init_returns `{FloatMath} buildings_gdf evac_gdf G population_limit dt threshold m0 :
  Model.init buildings_gdf evac_gdf G population_limit dt threshold = Ok m0 →
  ∃ st, spawn_rows buildings_gdf population_limit 1 (mkSpawn 0 1000 []) = Ok st
        ∧ m0 = set_congestion (populate (unpopulated evac_gdf G dt threshold) st)
                 (Some (register_all Congestion.init G)).
Proof.
  unfold Model.init, _spawn_people. cbv zeta.
  destruct (spawn_rows _ _ _ _) as [st|]; [|done].
  intros [= <-]. by exists st.
Qed.

Lemma init_raises `{FloatMath} buildings_gdf evac_gdf G population_limit dt threshold e :
  Model.init buildings_gdf evac_gdf G population_limit dt threshold = Raise e ↔
  spawn_rows buildings_gdf population_limit 1 (mkSpawn 0 1000 []) = Raise e.
Proof.
  unfold Model.init, _spawn_people. cbv zeta.
  destruct (spawn_rows _ _ _ _) as [st|]; [done|].
  split; by intros [= <-].
Qed.


Lemma add_occupant_within e : within_capacity e → within_capacity (add_occupant e).1.
Proof.
  unfold add_occupant, can_accept, within_capacity, lt_nan.
  destruct e as [i l [c|] o]; simpl; [|done].
  case_bool_decide; simpl; lia.
Qed.

Lemma add_occupant_capacity e : evac_capacity (add_occupant e).1 = evac_capacity e.
Proof. unfold add_occupant. by destruct (can_accept e). Qed.

Lemma get_evac_agent_elem m id_ e :
  get_evac_agent_by_id m id_ = Some e → e ∈ evac_agents m.
Proof.
  unfold get_evac_agent_by_id. intros H%find_some. apply list_elem_of_In, H.
Qed.

Lemma put_evac_agent_ok m e :
  shelters_ok m → within_capacity e → shelters_ok (put_evac_agent m e).
Proof.
  unfold shelters_ok, put_evac_agent. simpl. intros Hm He.
  apply Forall_fmap. eapply Forall_impl; [exact Hm|].
  intros x Hx. simpl. by case_bool_decide.
Qed.

(** The operations that leave the shelters alone. *)
Lemma leave_current_evac m p : evac_agents (leave_current m p) = evac_agents m.
Proof. unfold leave_current. by destruct (_current_segment p) as [[??]|]. Qed.

Lemma enter_current_evac m p : evac_agents (enter_current m p) = evac_agents m.
Proof. unfold enter_current. by destruct (_current_segment p) as [[??]|]. Qed.

Lemma become_overtaken_evac m p :
  evac_agents (_become_overtaken m p).1 = evac_agents m.
Proof. unfold _become_overtaken. simpl. apply leave_current_evac. Qed.

Lemma assign_route_evac m p r t : evac_agents (assign_route m p r t).1 = evac_agents m.
Proof.
  unfold assign_route. case_bool_decide; simpl; [apply leave_current_evac|].
  destruct r as [|a [|b r]]; simpl; apply leave_current_evac.
Qed.

Lemma roll_over_evac n m p : evac_agents (roll_over n m p).1 = evac_agents m.
Proof.
  revert m p. induction n as [|n IH]; intros m p; simpl; [done|].
  destruct (_ && _); [|done].
  by rewrite IH, enter_current_evac, leave_current_evac.
Qed.

Lemma arrive_ok m p : shelters_ok m → shelters_ok (_arrive m p).1.
Proof.
  intros Hm. unfold _arrive.
  set (m1 := match _route_idx p with O => m | S i => _ end).
  assert (Hm1 : evac_agents m1 = evac_agents m).
  { subst m1. destruct (_route_idx p) as [|i]; [done|].
    by destruct (route p !! i), (route p !! S i). }
  assert (Hok : shelters_ok m1) by (unfold shelters_ok; by rewrite Hm1).
  simpl. destruct (evac_center_id p) as [id_|]; [|done].
  destruct (get_evac_agent_by_id m1 id_) as [agent|] eqn:Hget; [|done].
  simpl. apply put_evac_agent_ok; [done|].
  apply add_occupant_within.
  apply get_evac_agent_elem in Hget.
  unfold shelters_ok in Hok. rewrite Forall_forall in Hok. by apply Hok.
Qed.

Section Steps.
Context `{FloatMath}.

Lemma hazard_check_evac m p : evac_agents (hazard_check m p).1 = evac_agents m.
Proof.
  unfold hazard_check. destruct (get_time_to_inundation _ _); [|done].
  destruct (nan_le _ _); [apply become_overtaken_evac | done].
Qed.

Lemma move_ok m p a b seg_len : shelters_ok m → shelters_ok (move m p a b seg_len).1.
Proof.
  intros Hm. unfold move.
  match goal with |- context [roll_over ?n ?m ?q] =>
    pose proof (roll_over_evac n m q) as Hr; destruct (roll_over n m q) as [m1 p1] end.
  simpl in Hr.
  assert (Hm1 : shelters_ok m1) by (unfold shelters_ok; by rewrite Hr).
  destruct (at_last_node _); [|done].
  destruct (last _); [|done].
  destruct (flt _ _); [by apply arrive_ok | done].
Qed.

Lemma agent_step_ok m p : shelters_ok m → shelters_ok (Agents.step m p).1.
Proof.
  intros Hm. unfold Agents.step.
  destruct (negb _); [done|].
  destruct (at_last_node p); [by apply arrive_ok|].
  destruct (_current_segment p) as [[a b]|]; [|done].
  case_bool_decide.
  { unfold hop. simpl. unfold shelters_ok. by rewrite enter_current_evac. }
  pose proof (move_ok m p a b (_segment_length_m a b) Hm) as Hmv.
  destruct (move m p a b _) as [m1 p1]. simpl in Hmv.
  unfold shelters_ok. by rewrite hazard_check_evac.
Qed.

Lemma recompute_evac m p :
  evac_agents (recompute_route_for_person m p).1.1 = evac_agents m.
Proof.
  unfold recompute_route_for_person.
  destruct (route p); [done|].
  match goal with |- context [match ?t with Some _ => _ | None => (m, p, false) end] =>
    destruct t as [target|] end; [|done].
  case_bool_decide; [|done]. simpl. apply assign_route_evac.
Qed.

Lemma reroute_evac m p : evac_agents (reroute m p).1 = evac_agents m.
Proof. apply recompute_evac. Qed.

Lemma cleanup_evac m p : evac_agents (cleanup m p).1 = evac_agents m.
Proof. unfold cleanup. destruct (terminal _); [apply leave_current_evac | done]. Qed.

Lemma post_step_evac m p : evac_agents (post_step m p).1 = evac_agents m.
Proof.
  unfold post_step. case_bool_decide; [|apply cleanup_evac].
  destruct (match get_time_to_inundation _ _ with Some a => _ | None => false end);
    [apply become_overtaken_evac|].
  set (r1 := match get_time_to_inundation _ _ with Some a => _ | None => (m, p) end).
  assert (H1 : evac_agents r1.1 = evac_agents m).
  { subst r1. destruct (get_time_to_inundation _ _); [|done].
    destruct (nan_le _ _); [apply reroute_evac | done]. }
  destruct r1 as [m1 p1]. simpl in H1.
  set (r2 := match evac_center_id p1 ≫= get_evac_agent_by_id m1 with
             | Some e => _ | None => (m1, p1) end).
  assert (H2 : evac_agents r2.1 = evac_agents m1).
  { subst r2. destruct (_ ≫= _); [|done].
    destruct (negb _); [apply reroute_evac | done]. }
  destruct r2 as [m2 p2]. simpl in H2.
  by rewrite cleanup_evac, H2.
Qed.

Lemma for_each_person_ok body uids m :
  (∀ m p, shelters_ok m → shelters_ok (body m p).1) →
  shelters_ok m → shelters_ok (for_each_person body uids m).
Proof.
  intros Hbody. revert m. unfold for_each_person.
  induction uids as [|uid uids IH]; intros m Hm; [done|].
  simpl. apply IH. destruct (get_person m uid) as [p|]; [|done].
  specialize (Hbody m p Hm). by destruct (body m p).
Qed.

Lemma model_step_ok order m : shelters_ok m → shelters_ok (Model.step order m).
Proof.
  intros Hm. unfold Model.step, schedule_step.
  apply for_each_person_ok.
  { intros m' p' Hok. unfold shelters_ok. by rewrite post_step_evac. }
  apply for_each_person_ok; [apply agent_step_ok | done].
Qed.

End Steps.

End ShelterFacts.

(** ** The shelter counter over a whole simulation *)

Module CapacityFacts.
Import Congestion Hazard Agents Model Spec ShelterFacts.
Local Open Scope Z_scope.


Lemma spawn_evac_centers_ok rows n :
  Forall within_capacity (_spawn_evac_centers rows n).
Proof.
  revert n. induction rows as [|row rows IH]; intros n; simpl; [constructor|].
  destruct (evac_geometry row); [|apply IH].
  constructor; [|apply IH]. unfold within_capacity. simpl.
  destruct (default _ _); lia.
Qed.

Lemma assign_initial_route_evac m p :
  evac_agents (assign_initial_route m p).1 = evac_agents m.
Proof.
  unfold assign_initial_route. destruct (_ ≫= _); [|done].
  case_bool_decide; [apply assign_route_evac | done].
Qed.

Section Simulation.
Context `{FloatMath}.

Lemma init_ok buildings_gdf evac_gdf G population_limit dt threshold m0 :
  Model.init buildings_gdf evac_gdf G population_limit dt threshold = Ok m0 →
  shelters_ok m0.
Proof.
  intros (st & _ & ->)%init_returns.
  unfold populate, _assign_routes_to_people.
  unfold shelters_ok. simpl.
  apply for_each_person_ok.
  - intros m p Hm. unfold shelters_ok. by rewrite assign_initial_route_evac.
  - apply spawn_evac_centers_ok.
Qed.

Lemma occur_ok m ev : shelters_ok m → shelters_ok (occur m ev).
Proof.
  intros Hm. destruct ev as [order|uid|id_]; unfold occur.
  - by apply model_step_ok.
  - apply for_each_person_ok; [apply arrive_ok | done].
  - destruct (get_evac_agent_by_id m id_) as [agent|] eqn:Hget; [|done].
    apply put_evac_agent_ok; [done|]. apply add_occupant_within.
    apply get_evac_agent_elem in Hget.
    unfold shelters_ok in Hm. rewrite Forall_forall in Hm. by apply Hm.
Qed.

Lemma history_ok evs m : shelters_ok m → shelters_ok (history evs m).
Proof.
  revert m. induction evs as [|ev evs IH]; intros m Hm; [done|].
  simpl. apply IH. by apply occur_ok.
Qed.

(** C8.  Build the model from any data, then let any sequence of
    simulation ticks, arrivals of persons and [add_occupant] calls happen, in
    any order.  After each of them (after every prefix [take n evs]) every
    shelter of the model whose capacity is a number that is not negative has
    0 <= occupants <= capacity; a shelter whose capacity is negative or NaN
    can accept nobody, and its counter is still 0. *)
Theorem occupants_never_exceed_capacity
    (buildings_gdf : list BuildingRow) (evac_gdf : list EvacRow)
    (G : GraphBuilder.Graph) (population_limit : option Z) (dt threshold : float)
    (m0 : EvacuationModel) (evs : list Event) (n : nat) :
  Model.init buildings_gdf evac_gdf G population_limit dt threshold = Ok m0 →
  ∀ e, e ∈ evac_agents (history (take n evs) m0) →
       match evac_capacity e with
       | Finite c =>
           (0 ≤ c → 0 ≤ occupants e ≤ c) ∧ (c < 0 → occupants e = 0)
       | NaN => occupants e = 0
       end.
Proof.
  intros Hinit.
  assert (Hok : shelters_ok (history (take n evs) m0))
    by by eapply history_ok, init_ok.
  unfold shelters_ok in Hok. rewrite Forall_forall in Hok.
  intros e He. specialize (Hok e He). unfold within_capacity in Hok.
  destruct (evac_capacity e); lia.
Qed.

End Simulation.

(** Two persons reach the shelter of capacity 1 in the first tick, then a
    bare [add_occupant] and one more arrival: the counter stays within 1. *)
Lemma crowd_never_exceeds_capacity :
  Forall (λ e, match evac_capacity e with
               | Finite c =>
                   (0 ≤ c → 0 ≤ occupants e ≤ c) ∧ (c < 0 → occupants e = 0)
               | NaN => occupants e = 0
               end)
    (evac_agents
       (@history approx_math [Tick [1000; 1001]; Increment 1; Arrival 1000]
          Scenario.crowd)).
Proof.
  apply Forall_forall.
  apply (@occupants_never_exceed_capacity approx_math
           [Scenario.building Scenario.A1; Scenario.building Scenario.A1]
           [mkEvacRow (Some (Point Scenario.B1.1 Scenario.B1.2)) (Some (Finite 1))]
           (@GraphBuilder.build_road_graph approx_math
              [GraphBuilder.LineString [Scenario.A1; Scenario.B1]])
           None 1%Qc (of_int 30) Scenario.crowd
           [Tick [1000; 1001]; Increment 1; Arrival 1000] 3).
  by_starting.
Defined.

(** The claim as the specification words it, for a shelter that the file
    gives the capacity -1: nobody is in it, and 0 exceeds -1. *)
Lemma negative_capacity_is_exceeded :
  ∃ m0 e c,
    @App.start_simulation approx_math App.Absent [Scenario.building Scenario.A1]
      [mkEvacRow (Some (Point Scenario.B1.1 Scenario.B1.2)) (Some (Finite (-1)))]
      (@GraphBuilder.build_road_graph approx_math
         [GraphBuilder.LineString [Scenario.A1; Scenario.B1]])
    = Ok m0
    ∧ e ∈ evac_agents m0 ∧ evac_capacity e = Finite c ∧ ¬ occupants e ≤ c.
Proof.
  eexists _, (mkEvac 1 Scenario.B1 (Finite (-1)) 0), (-1).
  split; [reflexivity|]. split; [|split; [done | simpl; lia]].
  by_evaluation.
Defined.

(** In that simulation both persons are safe after the first tick and the
    shelter counts one of them. *)
Lemma crowd_counts_one :
  let m := Scenario.tick [1000; 1001] Scenario.crowd in
  state (Scenario.person m 1000) = safe
  ∧ state (Scenario.person m 1001) = safe
  ∧ Scenario.occupants_of m 1 = 1.
Proof. intros m. evaluate_at m. Qed.

End CapacityFacts.

(** ** model.py: the population *)

Module PopulationFacts.
Import Congestion Hazard Agents Model Spec ShelterFacts.
Local Open Scope Z_scope.


Lemma limit_reached_spec population_limit st :
  counted st →
  limit_reached population_limit (spawned st) = true
  ↔ ∃ l, population_limit = Some l ∧ l ≠ 0 ∧ (Z.to_nat l ≤ length (created st))%nat.
Proof.
  unfold counted, limit_reached. intros ->.
  destruct population_limit as [l|].
  - rewrite andb_true_iff, negb_true_iff, bool_decide_eq_false, bool_decide_eq_true.
    split.
    + intros [Hl Hle]. exists l. repeat split; [done | lia].
    + intros (l' & [= <-] & Hl & Hle). split; [done | lia].
  - split; [done | by intros (l & ? & _)].
Qed.

Lemma capped_stop population_limit st k :
  counted st → limit_reached population_limit (spawned st) = true →
  (length (created st) ≤ capped population_limit (length (created st)))%nat →
  length (created st) = capped population_limit (length (created st) + k).
Proof.
  intros Hc (l & -> & Hl & Hle)%limit_reached_spec; [|done].
  unfold capped. rewrite bool_decide_false by done. lia.
Qed.

Lemma capped_go population_limit st :
  counted st → limit_reached population_limit (spawned st) = false →
  (S (length (created st)) ≤ capped population_limit (S (length (created st))))%nat.
Proof.
  intros Hc Hl. unfold capped.
  destruct population_limit as [l|]; [|done].
  case_bool_decide as H0; [done|].
  destruct (decide (Z.to_nat l ≤ length (created st))%nat) as [Hle|Hgt]; [|lia].
  assert (limit_reached (Some l) (spawned st) = true) as Hr.
  { apply limit_reached_spec; [done|]. by exists l. }
  congruence.
Qed.

Lemma spawn_building_count count population_limit lonlat st :
  counted st →
  (length (created st) ≤ capped population_limit (length (created st)))%nat →
  let st' := spawn_building count population_limit lonlat st in
  counted st'
  ∧ length (created st') = capped population_limit (length (created st) + count).
Proof.
  revert st. induction count as [|count IH]; intros st Hc Hle; simpl.
  - split; [done|]. rewrite Nat.add_0_r.
    unfold capped in *. destruct population_limit as [l|]; [|done].
    case_bool_decide; [done | lia].
  - destruct (limit_reached population_limit (spawned st)) eqn:Hl.
    + split; [done|]. by apply capped_stop.
    + pose proof (capped_go _ _ Hc Hl) as Hgo.
      match goal with |- context [spawn_building count _ _ ?s] => set (st1 := s) end.
      assert (Hlen : length (created st1) = S (length (created st))).
      { subst st1. simpl. rewrite length_app. simpl. lia. }
      assert (Hc1 : counted st1).
      { unfold counted. rewrite Hlen. subst st1. simpl. rewrite Hc. lia. }
      destruct (IH st1 Hc1) as [Hc' Hlen']; [by rewrite Hlen|].
      split; [done|]. rewrite Hlen', Hlen. f_equal. lia.
Qed.

Lemma spawn_rows_count rows population_limit d st st' :
  d = 1 → counted st →
  (length (created st) ≤ capped population_limit (length (created st)))%nat →
  spawn_rows rows population_limit d st = Ok st' →
  counted st'
  ∧ length (created st')
    = capped population_limit (length (created st) + full_population rows).
Proof.
  intros ->. revert st. induction rows as [|row rows IH]; intros st Hc Hle; simpl.
  - intros [= <-]. split; [done|]. rewrite Nat.add_0_r.
    unfold capped in *. destruct population_limit as [l|]; [|done].
    case_bool_decide; [done | lia].
  - destruct (limit_reached population_limit (spawned st)) eqn:Hl.
    + intros [= <-]. split; [done|]. by apply capped_stop.
    + unfold inhabitants.
      destruct (building_geometry row) as [geom|]; [|by apply IH].
      destruct (building_count row 1) as [count|]; [|done].
      destruct (spawn_building_count (Z.to_nat count) population_limit
                  (site_lonlat geom) st Hc Hle) as [Hc1 Hlen1].
      match goal with |- context [spawn_rows rows _ _ ?s] => set (st1 := s) in * end.
      intros Hst'.
      destruct (IH st1 Hc1) as [Hc' Hlen']; [|done|].
      { rewrite Hlen1. unfold capped. destruct population_limit as [l|]; [|done].
        case_bool_decide; [done | lia]. }
      split; [done|]. rewrite Hlen', Hlen1.
      unfold capped. destruct population_limit as [l|]; [|lia].
      case_bool_decide; lia.
Qed.

(** The loop raises nothing but the [ValueError] of a row it cannot read,
    and nothing at all when the table has no such row. *)
Lemma spawn_rows_raises rows population_limit d st e :
  spawn_rows rows population_limit d st = Raise e →
  e = ValueError ∧ Exists unreadable rows.
Proof.
  revert st. induction rows as [|row rows IH]; intros st; simpl; [done|].
  destruct (limit_reached _ _); [done|].
  destruct (building_geometry row) as [geom|] eqn:Hg.
  - unfold building_count.
    destruct (pop row) as [[n|]|] eqn:Hp; simpl.
    + intros [-> Hex]%IH. split; [done | by right].
    + intros [= <-]. split; [done|]. left. split; [by rewrite Hg | done].
    + intros [-> Hex]%IH. split; [done | by right].
  - intros [-> Hex]%IH. split; [done | by right].
Qed.

(** What every inner loop keeps, the outer loop keeps. *)
Lemma spawn_rows_keeps (P : Spawn → Prop) rows population_limit d st st' :
  (∀ count lonlat st, P st → P (spawn_building count population_limit lonlat st)) →
  P st → spawn_rows rows population_limit d st = Ok st' → P st'.
Proof.
  intros Hinner. revert st. induction rows as [|row rows IH]; intros st Hst; simpl.
  - by intros [= <-].
  - destruct (limit_reached _ _); [by intros [= <-]|].
    destruct (building_geometry row); [|by apply IH].
    destruct (building_count row d); [|done].
    by apply IH, Hinner.
Qed.

Lemma spawn_rows_readable rows population_limit d st :
  Forall (λ row, ¬ unreadable row) rows →
  ∃ st', spawn_rows rows population_limit d st = Ok st'.
Proof.
  intros Hrows.
  destruct (spawn_rows rows population_limit d st) as [st'|e] eqn:Hs; [by exists st'|].
  apply spawn_rows_raises in Hs as [_ Hex].
  apply Exists_exists in Hex as (row & Hin & Hrow).
  rewrite Forall_forall in Hrows. by destruct (Hrows row Hin).
Qed.

(** The starts of the examples return: their buildings have no [pop]
    column. *)
Lemma start_returns roads buildings shelters :
  @App.start_simulation approx_math App.Absent (Scenario.building <$> buildings)
    (Scenario.shelter <$> shelters) (@GraphBuilder.build_road_graph approx_math roads)
  = Ok (Scenario.start roads buildings shelters).
Proof.
  unfold Scenario.start. apply started_ok.
  unfold App.start_simulation, Model.init, _spawn_people. cbv zeta.
  destruct (spawn_rows_readable (Scenario.building <$> buildings)
              (App.pop_limit App.Absent) 1 (mkSpawn 0 1000 [])) as [st ->]; [|done].
  apply Forall_fmap, Forall_forall. by intros c _ [_ ?].
Qed.

(** A limit of 0 is read exactly as no limit. *)
Lemma limit_zero_is_no_limit_reached spawned :
  limit_reached (Some 0) spawned = limit_reached None spawned.
Proof. done. Qed.

Lemma spawn_building_zero count lonlat st :
  spawn_building count (Some 0) lonlat st = spawn_building count None lonlat st.
Proof. revert st. induction count as [|count IH]; intros st; simpl; [done|]. apply IH. Qed.

Lemma spawn_rows_zero rows d st :
  spawn_rows rows (Some 0) d st = spawn_rows rows None d st.
Proof.
  revert st. induction rows as [|row rows IH]; intros st; simpl; [done|].
  destruct (building_geometry row); [|apply IH].
  destruct (building_count row d); [|done].
  by rewrite spawn_building_zero, IH.
Qed.


Lemma same_people_refl mp : same_people mp mp.
Proof. done. Qed.

Lemma same_people_trans x y z : same_people x y → same_people y z → same_people x z.
Proof. intros [??] [??]. split; congruence. Qed.

Lemma leave_current_persons m p : person_agents (leave_current m p) = person_agents m.
Proof. unfold leave_current. by destruct (_current_segment p) as [[??]|]. Qed.

Lemma enter_current_persons m p : person_agents (enter_current m p) = person_agents m.
Proof. unfold enter_current. by destruct (_current_segment p) as [[??]|]. Qed.

Lemma become_overtaken_same m p : same_people (m, p) (_become_overtaken m p).
Proof. split; [apply leave_current_persons | done]. Qed.

Lemma assign_route_same m p r t : same_people (m, p) (assign_route m p r t).
Proof.
  unfold assign_route. case_bool_decide; [split; [apply leave_current_persons | done]|].
  destruct r as [|a [|b r]]; (split; [apply leave_current_persons | done]).
Qed.

Lemma arrive_same m p : same_people (m, p) (_arrive m p).
Proof.
  unfold _arrive.
  set (m1 := match _route_idx p with O => m | S i => _ end).
  assert (Hm1 : person_agents m1 = person_agents m).
  { subst m1. destruct (_route_idx p) as [|i]; [done|].
    by destruct (route p !! i), (route p !! S i). }
  simpl. destruct (evac_center_id p) as [id_|]; [|done].
  by destruct (get_evac_agent_by_id m1 id_).
Qed.

Lemma roll_over_same n m p : same_people (m, p) (roll_over n m p).
Proof.
  revert m p. induction n as [|n IH]; intros m p; simpl; [done|].
  destruct (_ && _); [|done].
  eapply same_people_trans; [|apply IH].
  split; [|done]. simpl. by rewrite enter_current_persons, leave_current_persons.
Qed.

Section Steps.
Context `{FloatMath}.

Lemma hazard_check_same m p : same_people (m, p) (hazard_check m p).
Proof.
  unfold hazard_check. destruct (get_time_to_inundation _ _); [|done].
  destruct (nan_le _ _); [apply become_overtaken_same | done].
Qed.

Lemma move_same m p a b seg_len : same_people (m, p) (move m p a b seg_len).
Proof.
  unfold move.
  match goal with |- context [roll_over ?n ?m ?q] =>
    pose proof (roll_over_same n m q) as Hr; destruct (roll_over n m q) as [m1 p1] end.
  assert (Hs : same_people (m, p) (m1, set_pos p1
                 (interpolate a b (fmax 0%Qc (fmin 1%Qc (_segment_progress p1)))))).
  { destruct Hr as [Hr1 Hr2]. by split. }
  destruct (at_last_node _); [|done].
  destruct (last _); [|done].
  destruct (flt _ _); [|done].
  eapply same_people_trans; [exact Hs | apply arrive_same].
Qed.

Lemma agent_step_same m p : same_people (m, p) (Agents.step m p).
Proof.
  unfold Agents.step.
  destruct (negb _); [done|].
  destruct (at_last_node p); [apply arrive_same|].
  destruct (_current_segment p) as [[a b]|]; [|done].
  case_bool_decide.
  { unfold hop. split; [|done]. simpl. by rewrite enter_current_persons. }
  pose proof (move_same m p a b (_segment_length_m a b)) as Hmv.
  destruct (move m p a b _) as [m1 p1].
  eapply same_people_trans; [exact Hmv | apply hazard_check_same].
Qed.

Lemma reroute_same m p : same_people (m, p) (reroute m p).
Proof.
  unfold reroute, recompute_route_for_person.
  destruct (route p); [done|].
  match goal with |- context [match ?t with Some _ => _ | None => (m, p, false) end] =>
    destruct t as [target|] end; [|done].
  case_bool_decide; [|done]. simpl. apply assign_route_same.
Qed.

Lemma cleanup_same m p : same_people (m, p) (cleanup m p).
Proof.
  unfold cleanup. destruct (terminal _); [|done].
  split; [apply leave_current_persons | done].
Qed.

Lemma post_step_same m p : same_people (m, p) (post_step m p).
Proof.
  unfold post_step. case_bool_decide; [|apply cleanup_same].
  destruct (match get_time_to_inundation _ _ with Some a => _ | None => false end);
    [apply become_overtaken_same|].
  set (r1 := match get_time_to_inundation _ _ with Some a => _ | None => (m, p) end).
  assert (H1 : same_people (m, p) r1).
  { subst r1. destruct (get_time_to_inundation _ _); [|done].
    destruct (nan_le _ _); [apply reroute_same | done]. }
  destruct r1 as [m1 p1].
  set (r2 := match evac_center_id p1 ≫= get_evac_agent_by_id m1 with
             | Some e => _ | None => (m1, p1) end).
  assert (H2 : same_people (m1, p1) r2).
  { subst r2. destruct (_ ≫= _); [|done].
    destruct (negb _); [apply reroute_same | done]. }
  destruct r2 as [m2 p2].
  eapply same_people_trans; [exact H1|].
  eapply same_people_trans; [exact H2 | apply cleanup_same].
Qed.

End Steps.

Lemma assign_initial_route_same m p : same_people (m, p) (assign_initial_route m p).
Proof.
  unfold assign_initial_route. destruct (_ ≫= _); [|done].
  case_bool_decide; [apply assign_route_same | done].
Qed.

Lemma put_person_ids m m' p p' :
  person_agents m' = person_agents m → unique_id p' = unique_id p →
  get_person m (unique_id p) = Some p →
  unique_id <$> person_agents (put_person m' p') = unique_id <$> person_agents m.
Proof.
  intros Hm Hp _. unfold put_person. simpl. rewrite Hm, <-list_fmap_compose.
  apply list_fmap_ext. intros i x _. simpl. case_bool_decide; congruence.
Qed.

Lemma get_person_id m uid p : get_person m uid = Some p → unique_id p = uid.
Proof.
  unfold get_person. intros [_ Hp]%find_some. by apply bool_decide_eq_true in Hp.
Qed.

(** A loop over persons keeps the ids of the population, in their order. *)
Lemma for_each_person_ids body uids m :
  (∀ m p, same_people (m, p) (body m p)) →
  unique_id <$> person_agents (for_each_person body uids m)
  = unique_id <$> person_agents m.
Proof.
  intros Hbody. revert m. unfold for_each_person.
  induction uids as [|uid uids IH]; intros m; [done|].
  simpl. rewrite IH. destruct (get_person m uid) as [p|] eqn:Hget; [|done].
  destruct (Hbody m p) as [Hm Hp]. destruct (body m p) as [m' p']. simpl in *.
  apply (put_person_ids m m' p p'); [done | done|].
  by rewrite (get_person_id _ _ _ Hget).
Qed.

Lemma model_step_ids `{FloatMath} order m :
  unique_id <$> person_agents (Model.step order m) = unique_id <$> person_agents m.
Proof.
  unfold Model.step, schedule_step. cbv zeta.
  rewrite !for_each_person_ids; [done | apply agent_step_same | apply post_step_same].
Qed.

Lemma schedule_step_ids `{FloatMath} order m :
  unique_id <$> person_agents (schedule_step order (advance_clock m))
  = unique_id <$> person_agents m.
Proof.
  unfold schedule_step. rewrite for_each_person_ids; [done | apply agent_step_same].
Qed.

Lemma populate_ids m st :
  unique_id <$> person_agents (populate m st)
  = unique_id <$> (person_agents m ++ created st).
Proof.
  unfold populate, _assign_routes_to_people.
  by rewrite for_each_person_ids by apply assign_initial_route_same.
Qed.

Lemma init_count `{FloatMath} buildings_gdf evac_gdf G population_limit dt threshold m0 :
  Model.init buildings_gdf evac_gdf G population_limit dt threshold = Ok m0 →
  length (person_agents m0) = capped population_limit (full_population buildings_gdf).
Proof.
  intros (st & Hst & ->)%init_returns.
  change (person_agents (set_congestion ?m _)) with (person_agents m).
  rewrite <-(length_fmap unique_id), populate_ids, length_fmap. simpl.
  destruct (spawn_rows_count buildings_gdf population_limit 1 (mkSpawn 0 1000 []) st)
    as [_ Hlen]; try done.
  simpl. unfold capped. destruct population_limit as [l|]; [|done].
  case_bool_decide; [done | lia].
Qed.

(** C10.  Started with the query argument [limit=0], the simulation is
    the very model that a start without any limit builds (or fails as that
    start fails), and its population is the full population of the building
    data; started with a positive limit, its population is that limit, or
    the full population when the data stand for fewer persons.  A start
    fails only by the [ValueError] of a building with NaN under [pop], and
    never when the table has no such row. *)
Theorem limit_zero_is_no_limit `{FloatMath}
    (buildings_gdf : list BuildingRow) (evac_gdf : list EvacRow) (G : GraphBuilder.Graph) :
  App.start_simulation (App.Integer 0) buildings_gdf evac_gdf G
  = App.start_simulation App.Absent buildings_gdf evac_gdf G
  ∧ (∀ m, App.start_simulation (App.Integer 0) buildings_gdf evac_gdf G = Ok m →
       App.population m = full_population buildings_gdf)
  ∧ (∀ m, App.start_simulation App.Absent buildings_gdf evac_gdf G = Ok m →
       App.population m = full_population buildings_gdf)
  ∧ (∀ (limit : Z) m, 0 < limit →
       App.start_simulation (App.Integer limit) buildings_gdf evac_gdf G = Ok m →
       App.population m = Nat.min (Z.to_nat limit) (full_population buildings_gdf))
  ∧ (Forall (λ row, ¬ unreadable row) buildings_gdf →
     ∀ arg, ∃ m, App.start_simulation arg buildings_gdf evac_gdf G = Ok m)
  ∧ (∀ arg e, App.start_simulation arg buildings_gdf evac_gdf G = Raise e →
       e = ValueError ∧ Exists unreadable buildings_gdf).
Proof.
  unfold App.start_simulation, App.population.
  split; [|split; [|split; [|split; [|split]]]].
  - unfold Model.init, _spawn_people. simpl. by rewrite spawn_rows_zero.
  - intros m Hm. by rewrite (init_count _ _ _ _ _ _ _ Hm).
  - intros m Hm. by rewrite (init_count _ _ _ _ _ _ _ Hm).
  - intros limit m Hl Hm. rewrite (init_count _ _ _ _ _ _ _ Hm).
    simpl. unfold capped. by rewrite bool_decide_false by lia.
  - intros Hrows arg.
    destruct (spawn_rows_readable buildings_gdf (App.pop_limit arg) 1
                (mkSpawn 0 1000 []) Hrows) as [st Hst].
    unfold Model.init, _spawn_people. cbv zeta. rewrite Hst. by eexists.
  - intros arg e He. apply init_raises in He. by apply spawn_rows_raises in He.
Qed.

(** Building data for eight persons, started with [limit=5]: five persons.
    From the file whose third feature has no [pop], the start fails. *)
Lemma limit_five_of_eight :
  full_population Scenario.census = 8%nat
  ∧ (∃ m, @App.start_simulation approx_math (App.Integer 5) Scenario.census
            [Scenario.shelter Scenario.C1]
            (@GraphBuilder.build_road_graph approx_math
               [GraphBuilder.LineString [Scenario.A1; Scenario.B1; Scenario.C1]])
          = Ok m
          ∧ App.population m = 5%nat).
Proof.
  split; [reflexivity|].
  destruct (@limit_zero_is_no_limit approx_math Scenario.census
              [Scenario.shelter Scenario.C1]
              (@GraphBuilder.build_road_graph approx_math
                 [GraphBuilder.LineString [Scenario.A1; Scenario.B1; Scenario.C1]]))
    as (_ & _ & _ & Hcap & Hok & _).
  destruct (Hok ltac:(by_evaluation) (App.Integer 5)) as [m Hm].
  exists m. split; [exact Hm|]. by rewrite (Hcap 5 m ltac:(lia) Hm).
Defined.

Lemma start_fails_at_a_gap :
  @App.start_simulation approx_math App.Absent Scenario.census_with_gap
    [Scenario.shelter Scenario.C1]
    (@GraphBuilder.build_road_graph approx_math
       [GraphBuilder.LineString [Scenario.A1; Scenario.B1; Scenario.C1]])
  = Raise ValueError.
Proof. reflexivity. Qed.

End PopulationFacts.

(** ** agents.py: movement *)

Module MovementFacts.
Import Congestion Hazard Agents Model.

Lemma current_segment_Some p a b :
  _current_segment p = Some (a, b) →
  at_last_node p = false
  ∧ route p !! _route_idx p = Some a ∧ route p !! S (_route_idx p) = Some b.
Proof.
  unfold _current_segment. destruct (at_last_node p); [done|].
  destruct (route p !! _route_idx p), (route p !! S (_route_idx p)); try done.
  by intros [= -> ->].
Qed.

Lemma set_congestion_twice m c1 c2 :
  set_congestion (set_congestion m c1) c2 = set_congestion m c2.
Proof. done. Qed.

(** What the jump does to the congestion counters. *)
Lemma hop_congestion m p a b :
  route p !! S (_route_idx p) = Some b →
  (hop m p a b).1
  = set_congestion m
      ((λ c, match route p !! S (S (_route_idx p)) with
             | Some c_next => enter_segment (leave_segment c a b) b c_next
             | None => leave_segment c a b
             end) <$> congestion m).
Proof.
  intros Hb. unfold hop, enter_current, _current_segment, at_last_node. simpl.
  destruct (route p !! S (S (_route_idx p))) as [c_next|] eqn:Hc.
  - apply lookup_lt_Some in Hc.
    rewrite bool_decide_false by lia. rewrite Hb.
    unfold enter, leave. rewrite set_congestion_twice. simpl.
    by destruct (congestion m).
  - apply lookup_ge_None in Hc.
    rewrite bool_decide_true by lia. done.
Qed.

Section Hop.
Context `{FloatMath}.

(** C9.  An evacuating person whose current segment [(a, b)] has length 0
    is moved by [step] to the next cursor index, and that is the whole tick
    of the person: the position stays, the progress on the new segment is 0
    (none of the tick's distance is walked on it), the state stays
    [evacuating] (there is no arrival and no hazard check).  The segment
    [(a, b)] is left, and the next segment, when the route has one, is
    entered. *)
Theorem zero_length_hop (m : EvacuationModel) (self : PersonAgent) (a b : Coord) :
  state self = evacuating →
  _current_segment self = Some (a, b) →
  _segment_length_m a b = 0%Qc →
  let m' := (Agents.step m self).1 in
  let self' := (Agents.step m self).2 in
  _route_idx self' = S (_route_idx self)
  ∧ _segment_progress self' = 0%Qc
  ∧ pos self' = pos self
  ∧ state self' = evacuating
  ∧ route self' = route self
  ∧ m' = set_congestion m
           ((λ c, match route self !! S (S (_route_idx self)) with
                  | Some c_next => enter_segment (leave_segment c a b) b c_next
                  | None => leave_segment c a b
                  end) <$> congestion m).
Proof.
  intros Hstate Hseg Hlen.
  destruct (current_segment_Some _ _ _ Hseg) as (Hlast & Ha & Hb).
  unfold Agents.step.
  rewrite Hstate, Hlast, Hseg, Hlen.
  rewrite bool_decide_true by done. simpl negb. cbv iota.
  rewrite bool_decide_true by done.
  repeat split; try done.
  by apply hop_congestion.
Qed.

End Hop.

(** The hop at the repeated node of the route [A1; A1; C1], both segments
    registered: the person is then on the segment [(A1, C1)], still at [A1];
    the count of the segment of length 0 went from 1 to 0, that of
    [(A1, C1)] from 0 to 1. *)
Lemma zero_length_hop_at_repeated_node :
  let m := Scenario.hopper.1 in
  let self := Scenario.hopper.2 in
  let m' := (@Agents.step approx_math m self).1 in
  let self' := (@Agents.step approx_math m self).2 in
  (_route_idx self' = 1%nat
   ∧ _segment_progress self' = 0%Qc
   ∧ pos self' = pos self
   ∧ state self' = evacuating
   ∧ route self' = route self
   ∧ m' = set_congestion m
            ((λ c, match route self !! 2%nat with
                   | Some c_next =>
                       enter_segment (leave_segment c Scenario.A1 Scenario.A1)
                         Scenario.A1 c_next
                   | None => leave_segment c Scenario.A1 Scenario.A1
                   end) <$> congestion m))
  ∧ Scenario.density_on m Scenario.A1 Scenario.A1 = 1%Z
  ∧ Scenario.density_on m Scenario.A1 Scenario.C1 = 0%Z
  ∧ Scenario.density_on m' Scenario.A1 Scenario.A1 = 0%Z
  ∧ Scenario.density_on m' Scenario.A1 Scenario.C1 = 1%Z.
Proof.
  split.
  - apply (@zero_length_hop approx_math Scenario.hopper.1 Scenario.hopper.2
             Scenario.A1 Scenario.A1); by_evaluation.
  - by_evaluation.
Defined.

(** The claim as the specification words it, at that person: had the hop
    cost nothing, the tick would have taken the person 1.4 m along
    [(A1, C1)]; the person is still at [A1]. *)
Lemma hop_takes_the_whole_tick :
  ¬ @instantaneous_hop approx_math Scenario.hopper.1 Scenario.hopper.2
      Scenario.A1 Scenario.A1.
Proof.
  unfold instantaneous_hop. intros Heq.
  apply (f_equal (λ r : EvacuationModel * PersonAgent, pos r.2)) in Heq.
  revert Heq. by_evaluation.
Defined.

(** When the person is on a segment of positive length, [step] is [move]
    followed by the hazard check. *)
Lemma step_moving `{FloatMath} m p a b :
  state p = evacuating → _current_segment p = Some (a, b) →
  _segment_length_m a b ≠ 0%Qc →
  Agents.step m p
  = hazard_check (move m p a b (_segment_length_m a b)).1
                 (move m p a b (_segment_length_m a b)).2.
Proof.
  intros Hstate Hseg Hlen.
  destruct (current_segment_Some _ _ _ Hseg) as (Hlast & _ & _).
  unfold Agents.step. rewrite Hstate, Hlast, Hseg.
  rewrite bool_decide_true by done. simpl negb. cbv iota.
  rewrite bool_decide_false by done.
  by destruct (move m p a b _).
Qed.

(** [step] does nothing to a person who is not evacuating. *)
Lemma step_not_evacuating `{FloatMath} m p :
  state p ≠ evacuating → Agents.step m p = (m, p).
Proof. intros Hs. unfold Agents.step. by rewrite bool_decide_false. Qed.

(** The post-step loop leaves a person in a terminal state as it is, and
    calls [leave_segment] on the segment under its cursor. *)
Lemma post_step_terminal `{FloatMath} m p :
  terminal (state p) = true → post_step m p = (leave_current m p, p).
Proof.
  intros Ht. unfold post_step, cleanup. rewrite Ht.
  rewrite bool_decide_false; [done|]. intros Hs. by rewrite Hs in Ht.
Qed.

(** The loop of [step] ends because its condition fails, never because
    the bound [n] is used up: with at least [nodes_ahead] rounds, the person
    it returns has a progress below 1 or stands at the last node. *)
Lemma roll_over_exit n m p :
  (nodes_ahead p ≤ n)%nat →
  fle 1%Qc (_segment_progress (roll_over n m p).2)
    && negb (at_last_node (roll_over n m p).2) = false.
Proof.
  revert m p. induction n as [|n IH]; intros m p Hn; simpl.
  - apply andb_false_iff. right. apply negb_false_iff, bool_decide_eq_true.
    unfold nodes_ahead in Hn. lia.
  - destruct (fle 1%Qc (_segment_progress p) && negb (at_last_node p)) eqn:Hc; [|done].
    apply IH. unfold nodes_ahead in *. simpl. lia.
Qed.

(** More rounds than [nodes_ahead] change nothing. *)
Lemma roll_over_enough n m p :
  (nodes_ahead p ≤ n)%nat → roll_over n m p = roll_over (nodes_ahead p) m p.
Proof.
  revert m p. induction n as [|n IH]; intros m p Hn.
  - by replace (nodes_ahead p) with 0%nat by lia.
  - simpl. destruct (fle 1%Qc (_segment_progress p) && negb (at_last_node p)) eqn:Hc.
    + pose proof Hc as Hc'. apply andb_true_iff in Hc' as [_ Hlast].
      apply negb_true_iff, bool_decide_eq_false in Hlast.
      set (p1 := set_cursor p (S (_route_idx p)) (_segment_progress p - 1)%Qc).
      assert (Hs : nodes_ahead p = S (nodes_ahead p1)).
      { unfold nodes_ahead in *. simpl. lia. }
      rewrite Hs. simpl. rewrite Hc. fold p1.
      apply IH. lia.
    + destruct (nodes_ahead p); simpl; by rewrite ?Hc.
Qed.

(** A movement that stays on its segment.  When the new progress is a
    fraction in [0, 1), the cursor stays where it is and the position is the
    interpolation at that fraction between the ends of the current segment. *)
Lemma move_within_segment `{FloatMath} m p a b seg_len :
  let progress :=
    (_segment_progress p
     + speed p * speed_factor_on m a b * step_time_seconds m / seg_len)%Qc in
  at_last_node p = false →
  (0 ≤ progress)%Qc → (progress < 1)%Qc →
  move m p a b seg_len
  = (m, set_pos (set_cursor p (_route_idx p) progress) (interpolate a b progress)).
Proof.
  intros progress Hlast H0 H1. unfold move. fold progress.
  set (q := set_cursor p (_route_idx p) progress).
  assert (Hno : fle 1%Qc (_segment_progress q) = false).
  { apply not_true_is_false. intros Hle%fle_spec. simpl in Hle.
    by apply Qcle_not_lt in Hle. }
  assert (Hroll : roll_over (nodes_ahead q) m q = (m, q)).
  { destruct (nodes_ahead q); [done|]. cbn [roll_over]. by rewrite Hno. }
  rewrite Hroll. simpl _segment_progress.
  assert (Hclamp : fmax 0%Qc (fmin 1%Qc progress) = progress).
  { unfold fmin, fmax.
    destruct (flt progress 1%Qc) eqn:Hlt.
    - destruct (flt 0%Qc progress) eqn:Hpos; [done|].
      apply not_true_iff_false in Hpos. rewrite flt_spec in Hpos.
      apply Qcnot_lt_le in Hpos. by apply Qcle_antisym.
    - apply not_true_iff_false in Hlt. by rewrite flt_spec in Hlt. }
  rewrite Hclamp.
  replace (at_last_node (set_pos q (interpolate a b progress))) with (at_last_node p)
    by done.
  by rewrite Hlast.
Qed.

(** Whatever the loop did, the position that [move] stores lies between
    the two nodes it was given, the ends of the segment the step started on. *)
Lemma roll_over_pos n m p : pos (roll_over n m p).2 = pos p.
Proof.
  revert m p. induction n as [|n IH]; intros m p; simpl; [done|].
  destruct (_ && _); [|done]. by rewrite IH.
Qed.

Lemma arrive_cursor m p :
  pos (_arrive m p).2 = pos p
  ∧ _segment_progress (_arrive m p).2 = _segment_progress p
  ∧ _route_idx (_arrive m p).2 = _route_idx p.
Proof.
  unfold _arrive. simpl. destruct (evac_center_id p) as [id_|]; [|done].
  by destruct (get_evac_agent_by_id _ id_).
Qed.

Lemma move_position `{FloatMath} m p a b seg_len :
  let p' := (move m p a b seg_len).2 in
  pos p' = interpolate a b (fmax 0%Qc (fmin 1%Qc (_segment_progress p'))).
Proof.
  unfold move.
  destruct (roll_over _ m _) as [m1 p1].
  set (p2 := set_pos p1 _).
  assert (Hp2 : pos p2
                = interpolate a b (fmax 0%Qc (fmin 1%Qc (_segment_progress p2)))) by done.
  destruct (at_last_node p2); [|done].
  destruct (last (route p2)); [|done].
  destruct (flt _ _); [|done].
  destruct (arrive_cursor m1 p2) as (Hpos & Hprog & _).
  cbv zeta. by rewrite Hpos, Hprog.
Qed.

(** A tick of a model of two persons, with its post-step loop cut in two. *)
Lemma step_in_two_halves `{FloatMath} order m u1 u2 :
  unique_id <$> person_agents (schedule_step order (advance_clock m)) = [u1; u2] →
  Model.step order m
  = for_each_person post_step [u2]
      (for_each_person post_step [u1] (schedule_step order (advance_clock m))).
Proof. intros Hids. unfold Model.step. cbv zeta. rewrite Hids. reflexivity. Qed.

End MovementFacts.

(** ** model.py: persons in a terminal state *)

Module TerminalFacts.
Import Congestion Hazard Agents Model Spec PopulationFacts MovementFacts.

(** Writing a person back leaves the first person of another id in place,
    and writing back an unchanged person changes nothing for its own id. *)
Lemma find_after_put (l : list PersonAgent) uid p q :
  find (λ x, bool_decide (unique_id x = uid)) l = Some p →
  unique_id q ≠ uid ∨ q = p →
  find (λ x, bool_decide (unique_id x = uid))
    ((λ x, if bool_decide (unique_id x = unique_id q) then q else x) <$> l) = Some p.
Proof.
  intros Hfind Hq. induction l as [|x l IH]; [done|].
  assert (Hp : unique_id p = uid).
  { apply find_some in Hfind as [_ Hp]. by apply bool_decide_eq_true in Hp. }
  cbn [fmap list_fmap find] in *.
  destruct (decide (unique_id x = unique_id q)) as [Hxq|Hxq].
  - rewrite (bool_decide_true _ Hxq).
    destruct Hq as [Hne| ->].
    + rewrite bool_decide_false by done.
      rewrite bool_decide_false in Hfind by congruence. by apply IH.
    + rewrite bool_decide_true by done.
      rewrite bool_decide_true in Hfind by congruence. congruence.
  - rewrite (bool_decide_false _ Hxq).
    destruct (bool_decide (unique_id x = uid)); [done | by apply IH].
Qed.

Lemma for_each_person_keeps body uids m uid p :
  (∀ m q, same_people (m, q) (body m q)) →
  (∀ m, (body m p).2 = p) →
  get_person m uid = Some p →
  get_person (for_each_person body uids m) uid = Some p.
Proof.
  intros Hsame Hkeep. revert m. unfold for_each_person.
  induction uids as [|uid' uids IH]; intros m Hget; [done|].
  simpl. apply IH.
  destruct (get_person m uid') as [q|] eqn:Hq; [|done].
  destruct (Hsame m q) as [Hm Hid]. specialize (Hkeep m).
  destruct (body m q) as [m' q'] eqn:Hbody. simpl in *.
  unfold get_person, put_person. simpl. rewrite Hm.
  apply find_after_put; [done|].
  destruct (decide (uid' = uid)) as [->|Hne].
  - right. rewrite Hget in Hq. injection Hq as <-. by rewrite Hbody in Hkeep.
  - left. rewrite Hid. by rewrite (get_person_id _ _ _ Hq).
Qed.

(** Between ticks the terminal states are absorbing.  A person whose state
    is [safe], [stuck] or [overtaken] comes out of a tick of the model as it
    went in: same state, same position, same cursor, whatever the activation
    order. *)
Lemma terminal_person_kept `{FloatMath} order m uid p :
  terminal (state p) = true →
  get_person m uid = Some p →
  get_person (Model.step order m) uid = Some p.
Proof.
  intros Ht Hget. unfold Model.step, schedule_step. cbv zeta.
  assert (Hne : state p ≠ evacuating) by (intros Hs; by rewrite Hs in Ht).
  apply for_each_person_keeps;
    [apply post_step_same | intros m'; by rewrite post_step_terminal |].
  apply for_each_person_keeps;
    [apply agent_step_same | intros m'; by rewrite step_not_evacuating |].
  done.
Qed.

End TerminalFacts.

(** ** Worked simulations *)

Module ScenarioFacts.
Import Congestion Hazard Agents Model Scenario MovementFacts.
Local Open Scope Z_scope.

(** C5 at a failing input.  The simulation [bend], first movement step
    of its person.  The step starts on the segment [(A1, B1)] and carries the
    cursor over [B1]: afterwards the cursor is at index 1, the current segment
    is [(B1, C1)] and the progress is a fraction in [0, 1).  The position
    that [step] stores is the interpolation at that fraction between [A1] and
    [B1], the ends of the segment left behind, and it is not the
    interpolation between [B1] and [C1]. *)
Theorem position_interpolates_the_segment_left_behind :
  let p0 := person bend 1000 in
  let r := @Agents.step approx_math (advance_clock bend) p0 in
  let p1 := r.2 in
  (state p0 = evacuating ∧ _current_segment p0 = Some (A1, B1))
  ∧ state p1 = evacuating
  ∧ _route_idx p1 = 1%nat
  ∧ _current_segment p1 = Some (B1, C1)
  ∧ (0 ≤ _segment_progress p1)%Qc ∧ (_segment_progress p1 < 1)%Qc
  ∧ pos p1 = interpolate A1 B1 (_segment_progress p1)
  ∧ pos p1 ≠ interpolate B1 C1 (_segment_progress p1).
Proof.
  intros p0 r p1. subst p1. split; [subst r; evaluate_at p0 | evaluate_at r].
Qed.

(** C6 at a failing input.  The simulation [stub]: a route of 3 nodes
    and 11.12 m, a person of speed 1.4 m/s, ticks of 1 s, and a congestion
    multiplier that is 1 on both segments at every tick.  The distance takes
    ceil (11.12 / 1.4) = 8 ticks to walk.  The person is still evacuating after
    the first tick and is safe after the second. *)
Theorem safe_after_two_ticks_instead_of_eight :
  let p0 := person stub 1000 in
  let m1 := tick [1000] stub in
  let m2 := tick [1000] m1 in
  (route p0 = [A1; B2; C1] ∧ state p0 = evacuating
   ∧ speed p0 = ratio 14 10 ∧ step_time_seconds stub = 1%Qc
   ∧ ceiling (route_length_m (route p0) / (speed p0 * step_time_seconds stub))%Qc = 8
   ∧ speed_factor_on stub A1 B2 = 1%Qc ∧ speed_factor_on stub B2 C1 = 1%Qc)
  ∧ (state (person m2 1000) = safe
     ∧ speed_factor_on m2 A1 B2 = 1%Qc ∧ speed_factor_on m2 B2 C1 = 1%Qc)
  ∧ (state (person m1 1000) = evacuating
     ∧ speed_factor_on m1 A1 B2 = 1%Qc ∧ speed_factor_on m1 B2 C1 = 1%Qc).
Proof.
  intros p0 m1 m2. subst p0 m2. split; [evaluate_at stub|].
  evaluate_at2 (tick [1000]) m1.
Qed.

(** C1 at two failing inputs.

    First the simulation [shore], first movement step of its person.  The
    movement reaches the shelter: after the arrival check the person is
    [safe] and counted by the shelter.  The hazard check that ends the same
    [step] then finds the wave at the position and makes the person
    [overtaken] - out of [safe] - while the shelter keeps the count.

    Then the simulation [shared].  Person 1001 is overtaken in the first tick,
    with its cursor still on the road segment.  In the second tick person 1000
    is evacuating on that segment and, after its own post-step, is counted on
    it (density 1); the post-step of the overtaken person 1001 then lowers the
    density to 0, and that is the state the tick ends in. *)
Theorem terminal_states_are_left_and_release_other_counts :
  (let m0 := advance_clock shore in
   let p0 := person shore 1000 in
   let arrived := @move approx_math m0 p0 A3 B3 (length_m A3 B3) in
   let stepped := @Agents.step approx_math m0 p0 in
   (state p0 = evacuating ∧ occupants_of m0 1 = 0)
   ∧ (state arrived.2 = safe ∧ reached arrived.2 = true ∧ occupants_of arrived.1 1 = 1)
   ∧ (state stepped.2 = overtaken ∧ reached stepped.2 = false
      ∧ occupants_of stepped.1 1 = 1)
   ∧ stepped = @hazard_check approx_math arrived.1 arrived.2)
  ∧ (let m1 := tick [1000; 1001] shared in
     let half := (second_tick m1).1 in
     let m2 := (second_tick m1).2 in
     (state (person m1 1001) = overtaken
      ∧ _current_segment (person m1 1001) = Some (A3, B4)
      ∧ state (person half 1000) = evacuating
      ∧ _current_segment (person half 1000) = Some (B4, A3)
      ∧ density_on half A3 B4 = 1
      ∧ state (person half 1001) = overtaken
      ∧ density_on m2 A3 B4 = 0
      ∧ state (person m2 1000) = evacuating
      ∧ _current_segment (person m2 1000) = Some (B4, A3))
     ∧ tick [1000; 1001] m1 = m2).
Proof.
  split.
  - intros m0 p0 arrived stepped. split; [|split; [|split]].
    + subst p0 m0. by_evaluation.
    + evaluate_at arrived.
    + evaluate_at stepped.
    + subst stepped arrived. apply step_moving; subst p0 m0; by_evaluation.
  - intros m1 half m2. subst half m2. split.
    + evaluate_at2 second_tick m1.
    + apply (@step_in_two_halves approx_math [1000; 1001] m1 1000 1001).
      rewrite PopulationFacts.schedule_step_ids. subst m1. unfold tick.
      rewrite PopulationFacts.model_step_ids. by_evaluation.
Qed.

End ScenarioFacts.

(** * Further properties of the code *)

(** ** congestion.py: the manager, call by call *)

Module CongestionLaws.
Import Congestion Spec CongestionFacts.
Local Open Scope Z_scope.

Lemma coord_le_total a b : coord_le a b = false → coord_le b a = true.
Proof.
  destruct a as [a1 a2], b as [b1 b2]. unfold coord_le, flt, fle. simpl.
  rewrite orb_false_iff, andb_false_iff, !bool_decide_eq_false.
  intros [Hlt Hor]. apply orb_true_iff.
  apply Qcnot_lt_le in Hlt.
  destruct (decide (a1 = b1)) as [->|Hne].
  - right. rewrite bool_decide_true by done. simpl. apply bool_decide_eq_true.
    destruct Hor as [?|Hle]; [done|]. apply Qclt_le_weak. by apply Qcnot_le_lt.
  - left. apply bool_decide_eq_true. apply Qcle_lt_or_eq in Hlt as [?|?]; [done|congruence].
Qed.

Lemma Qclt_irreflexive (x : Qc) : ¬ (x < x)%Qc.
Proof. intros H. by apply (Qclt_not_eq x x). Qed.

Lemma coord_le_antisym a b : coord_le a b = true → coord_le b a = true → a = b.
Proof.
  destruct a as [a1 a2], b as [b1 b2]. unfold coord_le, flt, fle. simpl.
  rewrite !orb_true_iff, !andb_true_iff, !bool_decide_eq_true.
  intros [H1|[-> H1]] [H2|[H2' H2]].
  - exfalso. apply (Qclt_irreflexive a1). by eapply Qclt_trans.
  - subst. exfalso. by apply (Qclt_irreflexive a1).
  - exfalso. by apply (Qclt_irreflexive b1).
  - f_equal. by apply Qcle_antisym.
Qed.

Lemma key_comm a b : key a b = key b a.
Proof.
  unfold key.
  destruct (coord_le a b) eqn:Hab, (coord_le b a) eqn:Hba; try done.
  - by rewrite (coord_le_antisym a b).
  - apply coord_le_total in Hab. congruence.
Qed.

(** X1.  A road segment has no direction: every operation of the manager
    on the segment from [a] to [b] is the same operation on the segment from
    [b] to [a], since both are filed under the sorted pair of their ends. *)
Theorem segment_is_undirected (cm : CongestionManager) (a b : Coord) (cap : option Z) :
  register_segment cm a b cap = register_segment cm b a cap
  ∧ enter_segment cm a b = enter_segment cm b a
  ∧ leave_segment cm a b = leave_segment cm b a
  ∧ get_speed_multiplier cm a b = get_speed_multiplier cm b a
  ∧ get_density cm a b = get_density cm b a.
Proof.
  unfold register_segment, enter_segment, leave_segment, get_speed_multiplier,
    get_density.
  rewrite (key_comm b a). done.
Qed.

Lemma set_data_same cm : set_data cm (segment_data cm) = cm.
Proof. by destruct cm. Qed.

Lemma enter_leave_registered cm a b e :
  segment_data cm !! key a b = Some e → 0 ≤ density e →
  leave_segment (enter_segment cm a b) a b = cm.
Proof.
  intros He Hd. unfold enter_segment. rewrite He.
  unfold leave_segment. simpl. rewrite lookup_insert_eq. simpl.
  rewrite insert_insert_eq.
  replace (Z.max 0 (density e + 1 - 1)) with (density e) by lia.
  unfold set_data. simpl.
  rewrite insert_id; [by destruct cm | by destruct e].
Qed.

(** X2.  On any manager reached from a fresh one, entering a segment and
    then leaving it gives back the manager exactly, registered segment or
    not.  The other order does not: on a registered segment with nobody on
    it, leaving stays at 0 and the entry that follows counts 1. *)
Theorem enter_then_leave_restores (cs : list Call) (a b : Coord) :
  let cm := calls cs init in
  leave_segment (enter_segment cm a b) a b = cm
  ∧ (∀ e, segment_data cm !! key a b = Some e → density e = 0 →
       get_density (leave_segment cm a b) a b = 0
       ∧ get_density (enter_segment (leave_segment cm a b) a b) a b = 1).
Proof.
  intros cm.
  assert (Hn : nonneg cm) by apply nonneg_calls, nonneg_init.
  split.
  - destruct (segment_data cm !! key a b) as [e|] eqn:He.
    + apply (enter_leave_registered _ _ _ e He), (Hn _ _ He).
    + unfold enter_segment. rewrite He. unfold leave_segment. by rewrite He.
  - intros e He Hd.
    assert (Hl : segment_data (leave_segment cm a b) !! key a b = Some (mkEntry (capacity e) 0)).
    { unfold leave_segment. rewrite He. simpl. rewrite lookup_insert_eq.
      do 2 f_equal. lia. }
    split.
    + unfold get_density. by rewrite Hl.
    + unfold get_density, enter_segment. rewrite Hl. simpl.
      by rewrite lookup_insert_eq.
Qed.

Lemma call_lookup_ne cm c k :
  k ≠ segment_of c → segment_data (call cm c) !! k = segment_data cm !! k.
Proof.
  intros Hk. destruct c as [a b cap|a b|a b]; simpl in *.
  - unfold register_segment. destruct (segment_data cm !! key a b); [done|].
    simpl. by rewrite lookup_insert_ne.
  - unfold enter_segment. destruct (segment_data cm !! key a b); [|done].
    simpl. by rewrite lookup_insert_ne.
  - unfold leave_segment. destruct (segment_data cm !! key a b); [|done].
    simpl. by rewrite lookup_insert_ne.
Qed.

Lemma call_strength cm c : congestion_strength (call cm c) = congestion_strength cm.
Proof.
  destruct c as [a b cap|a b|a b]; simpl.
  - unfold register_segment. by destruct (segment_data cm !! key a b).
  - unfold enter_segment. by destruct (segment_data cm !! key a b).
  - unfold leave_segment. by destruct (segment_data cm !! key a b).
Qed.

Lemma call_default cm c : default_capacity (call cm c) = default_capacity cm.
Proof.
  destruct c as [a b cap|a b|a b]; simpl.
  - unfold register_segment. by destruct (segment_data cm !! key a b).
  - unfold enter_segment. by destruct (segment_data cm !! key a b).
  - unfold leave_segment. by destruct (segment_data cm !! key a b).
Qed.

(** X3.  A call about one segment leaves every other segment as it was:
    same entry, same density, same speed multiplier. *)
Theorem call_leaves_other_segments_alone (cm : CongestionManager) (c : Call) (a b : Coord) :
  key a b ≠ segment_of c →
  segment_data (call cm c) !! key a b = segment_data cm !! key a b
  ∧ get_density (call cm c) a b = get_density cm a b
  ∧ get_speed_multiplier (call cm c) a b = get_speed_multiplier cm a b.
Proof.
  intros Hk. pose proof (call_lookup_ne cm c _ Hk) as Hl.
  unfold get_density, get_speed_multiplier. by rewrite Hl, call_strength.
Qed.

(** Two persons on the first segment and one on the next: when one of the
    two leaves, the next segment still counts one person and is as fast as
    before. *)
Lemma leaving_one_segment_keeps_the_next :
  let cm := Scenario.two_segments in
  let cm' := call cm (Leave Scenario.O1 Scenario.N1) in
  get_density cm' Scenario.O1 Scenario.N1 = 1
  ∧ get_density cm' Scenario.N1 Scenario.M1 = 1
  ∧ get_speed_multiplier cm' Scenario.N1 Scenario.M1
    = get_speed_multiplier cm Scenario.N1 Scenario.M1.
Proof.
  intros cm cm'. subst cm cm'.
  destruct (call_leaves_other_segments_alone Scenario.two_segments
              (Leave Scenario.O1 Scenario.N1) Scenario.N1 Scenario.M1)
    as (_ & Hd & Hm); [by_evaluation|].
  rewrite Hd. split; [by_evaluation|]. split; [by_evaluation | exact Hm].
Defined.

Lemma call_capacity cm c k e :
  segment_data cm !! k = Some e →
  ∃ e', segment_data (call cm c) !! k = Some e' ∧ capacity e' = capacity e.
Proof.
  intros He. destruct (decide (k = segment_of c)) as [->|Hne].
  - destruct c as [a b cap|a b|a b]; simpl in *.
    + unfold register_segment. rewrite He. by exists e.
    + unfold enter_segment. rewrite He. simpl. rewrite lookup_insert_eq. by eexists.
    + unfold leave_segment. rewrite He. simpl. rewrite lookup_insert_eq. by eexists.
  - exists e. by rewrite call_lookup_ne.
Qed.

Lemma calls_capacity cs cm k e :
  segment_data cm !! k = Some e →
  ∃ e', segment_data (calls cs cm) !! k = Some e' ∧ capacity e' = capacity e.
Proof.
  revert cm e. induction cs as [|c cs IH]; intros cm e He; [by exists e|].
  destruct (call_capacity cm c _ e He) as (e1 & He1 & Hc1).
  destruct (IH _ _ He1) as (e' & He' & Hc').
  exists e'. split; [done | congruence].
Qed.

Lemma sized_call cm c : sized cm → sized (call cm c).
Proof.
  intros [Hd Hm]. split; [by rewrite call_default|].
  destruct c as [a b cap|a b|a b]; simpl.
  - unfold register_segment. destruct (segment_data cm !! key a b); [done|].
    apply map_Forall_insert_2; [|done]. simpl.
    unfold capacity_or_default. destruct cap as [c|]; [|done]. by case_bool_decide.
  - unfold enter_segment. destruct (segment_data cm !! key a b) as [e|] eqn:He; [|done].
    apply map_Forall_insert_2; [|done]. simpl. apply (Hm _ _ He).
  - unfold leave_segment. destruct (segment_data cm !! key a b) as [e|] eqn:He; [|done].
    apply map_Forall_insert_2; [|done]. simpl. apply (Hm _ _ He).
Qed.

Lemma sized_calls cs cm : sized cm → sized (calls cs cm).
Proof.
  revert cm. induction cs as [|c cs IH]; intros cm H; [done|].
  simpl. apply IH. by apply sized_call.
Qed.

Lemma calls_default cs cm : default_capacity (calls cs cm) = default_capacity cm.
Proof.
  revert cm. induction cs as [|c cs IH]; intros cm; [done|].
  simpl. by rewrite IH, call_default.
Qed.

(** X4.  The capacity of a segment is decided by its first registration
    and never changes afterwards.  A new segment gets the capacity asked
    for, and the default capacity 8 when none or 0 is asked for: a
    registration with the capacity 0 is a registration without capacity, so
    no segment has the capacity 0.  Once registered, the segment keeps that
    capacity whatever calls follow: entering and leaving only move the
    density, and a second registration is ignored. *)
Theorem capacity_is_fixed_at_registration
    (cs later : list Call) (a b : Coord) (cap : option Z) :
  let cm := calls cs init in
  register_segment cm a b (Some 0) = register_segment cm a b None
  ∧ (∀ k e, segment_data cm !! k = Some e → capacity e ≠ 0)
  ∧ (segment_data cm !! key a b = None →
     segment_data (register_segment cm a b cap) !! key a b
     = Some (mkEntry (match cap with
                      | Some c => if bool_decide (c = 0) then 8 else c
                      | None => 8
                      end) 0))
  ∧ (∀ e, segment_data cm !! key a b = Some e →
       ∃ e', segment_data (calls later cm) !! key a b = Some e'
             ∧ capacity e' = capacity e).
Proof.
  intros cm.
  assert (Hs : sized cm) by (apply sized_calls; split; [done | apply map_Forall_empty]).
  assert (Hd : default_capacity cm = 8) by apply calls_default.
  split; [done|]. split; [apply Hs|]. split; [|intros e; apply calls_capacity].
  intros Hnone. unfold register_segment. rewrite Hnone. simpl.
  rewrite lookup_insert_eq. unfold capacity_or_default. rewrite Hd. done.
Qed.

End CongestionLaws.

(** ** hazard.py: arrival times *)

Module HazardLaws.
Import Hazard HazardFacts.

Section Arrival.
Context `{FloatMath}.

(** X5.  A point that is inundated at a time [t] is inundated at every
    later time [t'], asked with the time or after setting the clock to [t']
    with [update]; the arrival time itself does not depend on the clock. *)
Theorem inundation_is_monotone_in_time (h : TsunamiHazard) (p : Coord) (t t' : float) :
  is_inundated h p (Some t) = true → (t ≤ t')%Qc →
  is_inundated h p (Some t') = true
  ∧ is_inundated (update h t') p None = true
  ∧ get_time_to_inundation (update h t') p = get_time_to_inundation h p.
Proof.
  intros Hin Hle.
  assert (Hup : get_time_to_inundation (update h t') p = get_time_to_inundation h p)
    by done.
  unfold is_inundated in *. rewrite Hup. simpl.
  destruct (get_time_to_inundation h p) as [[arrival|]|]; [|done..].
  simpl in *. apply fle_spec in Hin.
  assert (fle arrival t' = true) by (apply fle_spec; by eapply Qcle_trans).
  done.
Qed.

(** The running minimum of [get_time_to_inundation]. *)
Lemma min_source_dist_spec coord_m sources acc d :
  min_source_dist coord_m sources acc = Some d →
  (acc = Some d ∨ d ∈ meters_distance coord_m <$> sources)
  ∧ (∀ a, acc = Some a → (d ≤ a)%Qc)
  ∧ (∀ s, s ∈ sources → (d ≤ meters_distance coord_m s)%Qc).
Proof.
  revert acc. induction sources as [|s rest IH]; intros acc; simpl.
  - intros ->. split; [by left|]. split.
    + intros a [= ->]. apply Qcle_refl.
    + intros s Hs. by apply elem_of_nil in Hs.
  - intros Hmin. destruct (IH _ Hmin) as (Hfrom & Hacc & Hall).
    set (d0 := meters_distance coord_m s) in *.
    destruct (lt_min d0 acc) eqn:Hlt.
    + split; [|split].
      * right. destruct Hfrom as [[= <-]|Hin]; [by left | by right].
      * intros a ->. simpl in Hlt. apply flt_spec in Hlt.
        eapply Qcle_trans; [by apply Hacc|]. by apply Qclt_le_weak.
      * intros s' [->|Hs']%elem_of_cons; [by apply Hacc | by apply Hall].
    + split; [|split].
      * destruct Hfrom as [?|Hin]; [by left | right; by right].
      * done.
      * intros s' [->|Hs']%elem_of_cons; [|by apply Hall].
        destruct acc as [a|]; [|done]. simpl in Hlt.
        apply not_true_iff_false in Hlt. rewrite flt_spec in Hlt.
        apply Qcnot_lt_le in Hlt. eapply Qcle_trans; [by apply Hacc | done].
Qed.

Lemma min_source_dist_is_Some coord_m sources acc :
  sources ≠ [] ∨ is_Some acc → is_Some (min_source_dist coord_m sources acc).
Proof.
  revert acc. induction sources as [|s rest IH]; intros acc; simpl.
  - by intros [?|?].
  - intros _. apply IH. right. destruct acc as [a|]; [|done].
    by destruct (lt_min _ _).
Qed.

(** X6.  A hazard built from a non-empty list of source points and a
    positive speed knows the arrival time at every point: the least of the
    distances in projected metres from the point to the sources, divided by
    the speed. *)
Theorem dynamic_arrival_is_least_distance_over_speed
    (source_points : list Coord) (propagation_speed : float) (p : Coord) :
  source_points ≠ [] → (0 < propagation_speed)%Qc →
  let h := init None (Some source_points) (Some propagation_speed) in
  let distance_to s := meters_distance (lonlat_to_meters p) (lonlat_to_meters s) in
  ∃ d, get_time_to_inundation h p = Some (Finite (d / propagation_speed)%Qc)
       ∧ d ∈ distance_to <$> source_points
       ∧ ∀ s, s ∈ source_points → (d ≤ distance_to s)%Qc.
Proof.
  intros Hpts Hv h distance_to.
  assert (Hv0 : propagation_speed ≠ 0%Qc) by (intros ->; by apply (Qclt_not_eq 0 0)).
  assert (Hh : h = _load_dynamic_sources empty_hazard source_points propagation_speed).
  { subst h. unfold init. destruct source_points; [done|]. simpl.
    by rewrite bool_decide_false. }
  assert (Hdyn : _has_dynamic h = true).
  { rewrite Hh. simpl. rewrite length_fmap.
    apply andb_true_iff. split; [|by apply flt_spec].
    apply bool_decide_eq_true. destruct source_points; [done | simpl; lia]. }
  unfold get_time_to_inundation. rewrite Hdyn.
  replace (_has_precomputed h) with false by (by rewrite Hh).
  replace (_source_points_m h) with (lonlat_to_meters <$> source_points) by (by rewrite Hh).
  replace (_prop_speed h) with (Some propagation_speed) by (by rewrite Hh).
  destruct (min_source_dist_is_Some (lonlat_to_meters p)
              (lonlat_to_meters <$> source_points) None) as [d Hd].
  { left. by destruct source_points. }
  rewrite Hd. simpl. rewrite bool_decide_false by done. simpl.
  destruct (min_source_dist_spec _ _ _ _ Hd) as ([?|Hin] & _ & Hall); [done|].
  exists d. split; [done|]. split.
  - by rewrite <-list_fmap_compose in Hin.
  - intros s Hs. apply Hall. by apply list_elem_of_fmap_2.
Qed.

(** X7.  With a propagation speed that is zero or negative the hazard has
    no data, whatever source points it is given: the dynamic mode stays off,
    every arrival time is unknown and nothing is ever inundated. *)
Theorem nonpositive_speed_is_no_hazard
    (source_points : option (list Coord)) (propagation_speed : float)
    (p : Coord) (time : option float) :
  (propagation_speed ≤ 0)%Qc →
  let h := init None source_points (Some propagation_speed) in
  _has_dynamic h = false
  ∧ get_time_to_inundation h p = None
  ∧ is_inundated h p time = false.
Proof.
  intros Hv h.
  assert (Hd : _has_dynamic h = false ∧ _has_precomputed h = false).
  { subst h. unfold init.
    destruct (truthy_list source_points && truthy_float (Some propagation_speed));
      [|done].
    simpl. split; [|done]. apply andb_false_iff. right.
    apply not_true_iff_false. rewrite flt_spec. by apply Qcle_not_lt. }
  destruct Hd as [Hd Hp]. split; [done|].
  assert (Hnone : get_time_to_inundation h p = None) by by apply unconfigured_unknown.
  split; [done|]. unfold is_inundated. by rewrite Hnone.
Qed.

Lemma first_polygon_load_rows rows p t :
  first_polygon (load_rows rows) p = Some t ↔
  ∃ i row g, rows !! i = Some row ∧ geometry row = Some g ∧ covers g p = true
    ∧ t = arrival_of row
    ∧ ∀ j row' g', (j < i)%nat → rows !! j = Some row' → geometry row' = Some g' →
        covers g' p = false.
Proof.
  revert t. induction rows as [|row rows IH]; intros t; simpl.
  - split; [done|]. by intros (i & row & g & Hi & _).
  - destruct (geometry row) as [g|] eqn:Hg; simpl.
    + destruct (covers g p) eqn:Hc.
      * split.
        -- intros [= <-]. exists 0%nat, row, g. repeat split; try done. intros; lia.
        -- intros ([|i] & row' & g' & Hi & Hg' & Hc' & -> & Hbefore); simpl in Hi.
           ++ by injection Hi as <-.
           ++ specialize (Hbefore 0%nat row g). simpl in Hbefore.
              rewrite Hbefore in Hc; [done | lia | done | done].
      * rewrite IH. split.
        -- intros (i & row' & g' & Hi & Hg' & Hc' & -> & Hbefore).
           exists (S i), row', g'. repeat split; try done.
           intros [|j] row'' g'' Hj Hr Hg''; simpl in Hr.
           ++ injection Hr as <-. congruence.
           ++ apply (Hbefore j row'' g''); [lia | done | done].
        -- intros ([|i] & row' & g' & Hi & Hg' & Hc' & -> & Hbefore); simpl in Hi.
           ++ injection Hi as <-. congruence.
           ++ exists i, row', g'. repeat split; try done.
              intros j row'' g'' Hj Hr Hg''. apply (Hbefore (S j) row'' g''); [lia|done|done].
    + rewrite IH. split.
      * intros (i & row' & g' & Hi & Hg' & Hc' & -> & Hbefore).
        exists (S i), row', g'. repeat split; try done.
        intros [|j] row'' g'' Hj Hr Hg''; simpl in Hr.
        -- injection Hr as <-. congruence.
        -- apply (Hbefore j row'' g''); [lia | done | done].
      * intros ([|i] & row' & g' & Hi & Hg' & Hc' & -> & Hbefore); simpl in Hi.
        -- injection Hi as <-. congruence.
        -- exists i, row', g'. repeat split; try done.
           intros j row'' g'' Hj Hr Hg''. apply (Hbefore (S j) row'' g''); [lia|done|done].
Qed.

Lemma init_file_arrival rows source_points propagation_speed p :
  get_time_to_inundation (init (Some rows) source_points propagation_speed) p
  = first_polygon (load_rows rows) p.
Proof.
  unfold init, get_time_to_inundation. simpl.
  case_bool_decide as Hlen; [done|].
  destruct (load_rows rows); [done | simpl in Hlen; lia].
Qed.

Lemma first_feature_arrival polys p :
  snd <$> first_feature polys p = first_polygon polys p.
Proof.
  induction polys as [|[g t] polys IH]; [done|]. simpl.
  by destruct (covers g p).
Qed.

Lemma first_feature_elem polys p g t :
  first_feature polys p = Some (g, t) → (g, t) ∈ polys ∧ covers g p = true.
Proof.
  induction polys as [|[g' t'] polys IH]; [done|]. simpl.
  destruct (covers g' p) eqn:Hc.
  - intros [= -> ->]. split; [by left | done].
  - intros [Hin Hcov]%IH. split; [by right | done].
Qed.

Lemma nearest_feature_arrival h p :
  snd <$> nearest_inundation_feature h p
  = (if _has_precomputed h then get_time_to_inundation h p else None).
Proof.
  unfold nearest_inundation_feature, get_time_to_inundation.
  destruct (_has_precomputed h); [apply first_feature_arrival | done].
Qed.

(** X8.  With an inundation file the source points and the speed play no
    part, and the arrival time at a point is that of the first row of the
    file whose geometry covers the point; rows without geometry are skipped,
    and the arrival time is unknown when no row covers the point.  The
    arrival time of a row is its first cell under [arrival_time],
    [time_to_inundation], [t_arrival], [t0] that is there: NaN where the file
    has the column and the row lacks the value, and 0 only when the row has
    none of the four.  A point whose first covering row gives NaN is never
    inundated, whatever rows follow.  [nearest_inundation_feature] returns
    the polygon that the arrival time is read from, a stored polygon that
    covers the point, and nothing when the arrival time is unknown. *)
Theorem first_covering_polygon_decides
    (rows : list Feature) (source_points : option (list Coord))
    (propagation_speed : option float) (p : Coord) (t : or_nan float) :
  let h := init (Some rows) source_points propagation_speed in
  (get_time_to_inundation h p = Some t ↔
   ∃ i row g, rows !! i = Some row ∧ geometry row = Some g ∧ covers g p = true
     ∧ t = arrival_of row
     ∧ ∀ j row' g', (j < i)%nat → rows !! j = Some row' → geometry row' = Some g' →
         covers g' p = false)
  ∧ (∀ row, arrival_of row
            = match attr_arrival_time row, attr_time_to_inundation row,
                    attr_t_arrival row, attr_t0 row with
              | Some x, _, _, _ | None, Some x, _, _ | None, None, Some x, _
              | None, None, None, Some x => x
              | None, None, None, None => Finite 0%Qc
              end)
  ∧ (get_time_to_inundation h p = Some NaN → ∀ time, is_inundated h p time = false)
  ∧ snd <$> nearest_inundation_feature h p = get_time_to_inundation h p
  ∧ (∀ g t', nearest_inundation_feature h p = Some (g, t') →
       (g, t') ∈ _polygons h ∧ covers g p = true).
Proof.
  intros h. split; [|split; [|split; [|split]]].
  - subst h. rewrite init_file_arrival. apply first_polygon_load_rows.
  - intros row. unfold arrival_of. simpl.
    by destruct (attr_arrival_time row), (attr_time_to_inundation row),
      (attr_t_arrival row), (attr_t0 row).
  - intros Hnan time. unfold is_inundated. by rewrite Hnan.
  - rewrite nearest_feature_arrival.
    destruct (_has_precomputed h) eqn:Hpre; [done|].
    subst h. rewrite init_file_arrival. revert Hpre. unfold init. simpl.
    destruct (load_rows rows); [done|]. by rewrite bool_decide_true by (simpl; lia).
  - unfold nearest_inundation_feature.
    destruct (_has_precomputed h); [|done]. apply first_feature_elem.
Qed.

Lemma init_coherent file pts v : coherent (init file pts v).
Proof.
  unfold init. destruct file as [rows|].
  - unfold coherent. simpl. split; [|split; [|by right]].
    + rewrite bool_decide_eq_true. destruct (load_rows rows); simpl; split; try done; lia.
    + split; [done | by intros [? _]].
  - destruct (truthy_list pts && truthy_float v) eqn:Ht.
    + apply andb_true_iff in Ht as [Hl Hf].
      destruct pts as [[|pt pts]|]; try done.
      destruct v as [v|]; [|done].
      unfold coherent. simpl. split; [done|]. split; [|by left].
      rewrite flt_spec. split.
      * intros Hv. split; [done|]. by exists v.
      * by intros [_ (v' & [= <-] & Hv)].
    + unfold coherent. simpl. split; [done|]. split; [|by left].
      split; [done | by intros [? _]].
Qed.

Lemma updates_fields ts h :
  let h' := foldl update h ts in
  _has_precomputed h' = _has_precomputed h ∧ _has_dynamic h' = _has_dynamic h
  ∧ _polygons h' = _polygons h ∧ _source_points_m h' = _source_points_m h
  ∧ _prop_speed h' = _prop_speed h ∧ current_time h' = default (current_time h) (last ts).
Proof.
  revert h. induction ts as [|t ts IH]; intros h; [done|].
  simpl. destruct (IH (update h t)) as (H1 & H2 & H3 & H4 & H5 & H6).
  repeat split; try done.
  rewrite H6. destruct ts as [|t' ts]; [done|].
  rewrite last_cons_cons. destruct (last (t' :: ts)) eqn:Hlast; [done|].
  by apply last_None in Hlast.
Qed.

(** X9.  The summary of a hazard, as built by the constructor and after
    any number of clock updates: the precomputed flag is on exactly when
    there are polygons, the dynamic flag exactly when there are source points
    and a positive speed, the two are never on together, and the time shown
    is the last one set (0 before any update). *)
Theorem summary_modes_are_exclusive
    (inundation_geojson : option (list Feature)) (source_points : option (list Coord))
    (propagation_speed : option float) (ts : list float) :
  let s := summary (foldl update (init inundation_geojson source_points propagation_speed) ts) in
  (has_precomputed s = true ↔ (0 < num_polygons s)%nat)
  ∧ (has_dynamic s = true ↔
       (0 < num_sources s)%nat ∧ ∃ v, propagation_speed_m_s s = Some v ∧ (0 < v)%Qc)
  ∧ has_precomputed s && has_dynamic s = false
  ∧ current_time_s s = default 0%Qc (last ts).
Proof.
  intros s. subst s. unfold summary. simpl.
  destruct (updates_fields ts (init inundation_geojson source_points propagation_speed))
    as (-> & -> & -> & -> & -> & ->).
  destruct (init_coherent inundation_geojson source_points propagation_speed)
    as (Hp & Hd & Hex).
  assert (Hnil : ∀ A (l : list A), (0 < length l)%nat ↔ l ≠ []).
  { intros A [|??]; simpl; split; try done; lia. }
  rewrite !Hnil. split; [done|]. split; [done|]. split.
  - apply not_true_iff_false. intros [H1 H2]%andb_true_iff.
    apply Hp in H1. apply Hd in H2 as [H2 _]. by destruct Hex.
  - f_equal. unfold init. destruct inundation_geojson; [done|].
    by destruct (_ && _).
Qed.

End Arrival.

(** The hazard of [test_hazard.py]: the wave reaches the test point after
    about 11 s, so the point is inundated at 12 s, and still at 13 s. *)
Lemma test_point_stays_inundated :
  @is_inundated approx_math Scenario.test_hazard Scenario.test_point (Some (of_int 13))
  = true
  ∧ @is_inundated approx_math (update Scenario.test_hazard (of_int 13))
      Scenario.test_point None = true
  ∧ @get_time_to_inundation approx_math (update Scenario.test_hazard (of_int 13))
      Scenario.test_point
    = @get_time_to_inundation approx_math Scenario.test_hazard Scenario.test_point.
Proof.
  apply (@inundation_is_monotone_in_time approx_math Scenario.test_hazard
           Scenario.test_point (of_int 12) (of_int 13)); by_evaluation.
Defined.

(** The same hazard: one source, so the arrival time at the test point is
    its distance to that source over 10 m/s. *)
Lemma test_point_arrival :
  ∃ d, @get_time_to_inundation approx_math Scenario.test_hazard Scenario.test_point
       = Some (Finite (d / of_int 10)%Qc)
       ∧ d ∈ (λ s, @meters_distance approx_math
                     (@lonlat_to_meters approx_math Scenario.test_point)
                     (@lonlat_to_meters approx_math s)) <$> [Scenario.test_source]
       ∧ ∀ s, s ∈ [Scenario.test_source] →
           (d ≤ @meters_distance approx_math
                  (@lonlat_to_meters approx_math Scenario.test_point)
                  (@lonlat_to_meters approx_math s))%Qc.
Proof.
  apply (@dynamic_arrival_is_least_distance_over_speed approx_math
           [Scenario.test_source] (of_int 10) Scenario.test_point);
    [done | by_evaluation].
Defined.

(** The coastal sources with the speed -15: no hazard at the shore. *)
Lemma ebb_is_no_hazard :
  _has_dynamic Scenario.ebb = false
  ∧ @get_time_to_inundation approx_math Scenario.ebb Scenario.A3 = None
  ∧ @is_inundated approx_math Scenario.ebb Scenario.A3 (Some (of_int 3600)) = false.
Proof.
  apply (@nonpositive_speed_is_no_hazard approx_math (Some Model.coastal_sources)
           (of_int (-15)) Scenario.A3 (Some (of_int 3600))).
  by_evaluation.
Defined.

End HazardLaws.

(** ** utils/graph_builder.py: the road graph *)

Module GraphFacts.
Import GraphBuilder Nx.

Section Graph.
Context `{FloatMath}.

Lemma distance_sym p q : distance p q = distance q p.
Proof.
  unfold distance. apply (f_equal sqrt).
  destruct p as [p1 p2], q as [q1 q2]. simpl. unfold float in *. ring.
Qed.

Lemma same_edge_spec u v e :
  same_edge u v e = true ↔ ends e = (u, v) ∨ ends e = (v, u).
Proof.
  destruct e as [[a b] w]. unfold same_edge, ends. simpl.
  rewrite orb_true_iff, !bool_decide_eq_true. split.
  - intros [[-> ->]|[-> ->]]; auto.
  - intros [[= -> ->]|[= -> ->]]; auto.
Qed.

Lemma elem_of_add_node G q p : p ∈ nodes (add_node G q) ↔ p ∈ nodes G ∨ p = q.
Proof.
  unfold add_node. case_bool_decide as Hq; simpl.
  - split; [by left|]. by intros [?| ->].
  - rewrite elem_of_app, list_elem_of_singleton. done.
Qed.

Lemma edges_add_node G q : edges (add_node G q) = edges G.
Proof. unfold add_node. by case_bool_decide. Qed.

Lemma NoDup_add_node G q : NoDup (nodes G) → NoDup (nodes (add_node G q)).
Proof.
  intros Hn. unfold add_node. case_bool_decide as Hq; [done|]. simpl.
  apply NoDup_app. split; [done|]. split; [|apply NoDup_singleton].
  intros x Hx ->%list_elem_of_singleton. done.
Qed.

Lemma nodes_add_edge G a b w : nodes (add_edge G a b w) = nodes (add_node (add_node G a) b).
Proof. unfold add_edge. by destruct (existsb _ _). Qed.

Lemma ends_add_edge G a b w :
  ends <$> edges (add_edge G a b w)
  = if existsb (same_edge a b) (edges G) then ends <$> edges G
    else (ends <$> edges G) ++ [(a, b)].
Proof.
  unfold add_edge. rewrite !edges_add_node.
  destruct (existsb _ _); simpl.
  - rewrite <-list_fmap_compose. apply list_fmap_ext. intros i e _. simpl.
    by destruct (same_edge a b e).
  - by rewrite fmap_app.
Qed.

Lemma existsb_same_edge a b es :
  existsb (same_edge a b) es = true ↔ (a, b) ∈ ends <$> es ∨ (b, a) ∈ ends <$> es.
Proof.
  rewrite existsb_exists. setoid_rewrite same_edge_spec.
  rewrite !list_elem_of_fmap. split.
  - intros (e & Hin%list_elem_of_In & [He|He]); [left|right]; by exists e.
  - intros [(e & He & Hin)|(e & He & Hin)]; exists e;
      (split; [by apply list_elem_of_In | auto]).
Qed.

Lemma adjacent_ends G u v :
  adjacent G u v ↔ (u, v) ∈ ends <$> edges G ∨ (v, u) ∈ ends <$> edges G.
Proof.
  unfold adjacent. rewrite !list_elem_of_fmap. split.
  - intros (w & [Hin|Hin]); [left|right]; by eexists (_, _, w).
  - intros [([[a b] w] & [= -> ->] & Hin)|([[a b] w] & [= -> ->] & Hin)];
      exists w; auto.
Qed.

Lemma adjacent_add_node G q u v : adjacent (add_node G q) u v ↔ adjacent G u v.
Proof. unfold adjacent. by rewrite edges_add_node. Qed.

Lemma adjacent_add_edge G a b w u v :
  adjacent (add_edge G a b w) u v
  ↔ adjacent G u v ∨ (u = a ∧ v = b) ∨ (u = b ∧ v = a).
Proof.
  rewrite !adjacent_ends, ends_add_edge.
  destruct (existsb (same_edge a b) (edges G)) eqn:Hex.
  - apply existsb_same_edge in Hex. split; [by left|].
    intros [?|[[-> ->]|[-> ->]]]; [done | |]; tauto.
  - rewrite !elem_of_app, !list_elem_of_singleton. split.
    + intros [[?|[= -> ->]]|[?|[= -> ->]]]; tauto.
    + intros [[?|?]|[[-> ->]|[-> ->]]]; tauto.
Qed.

Lemma consecutive_cons p1 p2 r u v :
  consecutive (p1 :: p2 :: r) u v ↔ (u = p1 ∧ v = p2) ∨ consecutive (p2 :: r) u v.
Proof.
  unfold consecutive. split.
  - intros ([|i] & Hu & Hv); simpl in *.
    + left. split; congruence.
    + right. by exists i.
  - intros [[-> ->]|(i & Hu & Hv)]; [by exists 0%nat | by exists (S i)].
Qed.

Lemma consecutive_short l u v : (length l < 2)%nat → ¬ consecutive l u v.
Proof.
  intros Hl (i & Hu & Hv). apply lookup_lt_Some in Hv. lia.
Qed.

Lemma add_line_adjacent G l u v :
  adjacent (add_line G l) u v ↔ adjacent G u v ∨ consecutive l u v ∨ consecutive l v u.
Proof.
  revert G. induction l as [|p1 [|p2 r] IH]; intros G.
  - simpl. split; [by left|]. intros [?|[Hc|Hc]]; [done| |];
      (apply consecutive_short in Hc; [done | simpl; lia]).
  - simpl. split; [by left|]. intros [?|[Hc|Hc]]; [done| |];
      (apply consecutive_short in Hc; [done | simpl; lia]).
  - change (add_line G (p1 :: p2 :: r))
      with (add_line (add_edge (add_node (add_node G p1) p2) p1 p2 (distance p1 p2))
              (p2 :: r)).
    rewrite IH, adjacent_add_edge, !adjacent_add_node, !consecutive_cons. tauto.
Qed.

Lemma add_line_nodes G l p :
  p ∈ nodes (add_line G l) ↔ p ∈ nodes G ∨ (p ∈ l ∧ (2 ≤ length l)%nat).
Proof.
  revert G. induction l as [|p1 [|p2 r] IH]; intros G.
  - simpl. split; [by left|]. intros [?|[_ ?]]; [done | lia].
  - simpl. split; [by left|]. intros [?|[_ ?]]; [done | lia].
  - change (add_line G (p1 :: p2 :: r))
      with (add_line (add_edge (add_node (add_node G p1) p2) p1 p2 (distance p1 p2))
              (p2 :: r)).
    rewrite IH, nodes_add_edge, !elem_of_add_node, !elem_of_cons. simpl.
    assert (Hr : p ∈ r → (2 ≤ S (length r))%nat).
    { destruct r; [by intros ?%elem_of_nil | simpl; lia]. }
    assert (Hlen : (2 ≤ S (S (length r)))%nat) by lia.
    tauto.
Qed.

Lemma foldl_add_line_adjacent ls G u v :
  adjacent (foldl add_line G ls) u v
  ↔ adjacent G u v ∨ ∃ l, l ∈ ls ∧ (consecutive l u v ∨ consecutive l v u).
Proof.
  revert G. induction ls as [|l ls IH]; intros G; simpl.
  - split; [by left|]. intros [?|(l & Hl%elem_of_nil & _)]; done.
  - rewrite IH, add_line_adjacent. split.
    + intros [[?|?]|(l' & Hl' & ?)]; [by left | |].
      * right. exists l. split; [by left | done].
      * right. exists l'. split; [by right | done].
    + intros [?|(l' & [->|Hl']%elem_of_cons & ?)]; [tauto | tauto |].
      right. by exists l'.
Qed.

Lemma foldl_add_line_nodes ls G p :
  p ∈ nodes (foldl add_line G ls)
  ↔ p ∈ nodes G ∨ ∃ l, l ∈ ls ∧ p ∈ l ∧ (2 ≤ length l)%nat.
Proof.
  revert G. induction ls as [|l ls IH]; intros G; simpl.
  - split; [by left|]. intros [?|(l & Hl%elem_of_nil & _)]; done.
  - rewrite IH, add_line_nodes. split.
    + intros [[?|?]|(l' & Hl' & ?)]; [by left | |].
      * right. exists l. split; [by left | done].
      * right. exists l'. split; [by right | done].
    + intros [?|(l' & [->|Hl']%elem_of_cons & ?)]; [tauto | tauto |].
      right. by exists l'.
Qed.

Lemma add_row_lines G geom : add_row G geom = foldl add_line G (lines_of geom).
Proof. by destruct geom. Qed.

Lemma build_from_lines G roads :
  foldl add_row G roads = foldl add_line G (road_lines roads).
Proof.
  revert G. induction roads as [|geom roads IH]; intros G; [done|].
  simpl. unfold road_lines. simpl. rewrite foldl_app, IH, add_row_lines. done.
Qed.

(** X10.  The road graph has exactly the roads of the file: two nodes are
    joined by an edge exactly when they follow one another, in either
    direction, in a line of the file (a LineString, or a part of a
    MultiLineString), and a coordinate is a node exactly when it lies on a
    line of two points or more.  Rows without geometry or with another
    geometry, and lines of a single point, add nothing. *)
Theorem roads_become_edges (roads : list RoadGeom) (u v : Coord) :
  let G := build_road_graph roads in
  (adjacent G u v
   ↔ ∃ l, l ∈ road_lines roads ∧ (consecutive l u v ∨ consecutive l v u))
  ∧ (u ∈ nodes G ↔ ∃ l, l ∈ road_lines roads ∧ u ∈ l ∧ (2 ≤ length l)%nat).
Proof.
  intros G. subst G. unfold build_road_graph. rewrite build_from_lines.
  rewrite foldl_add_line_adjacent, foldl_add_line_nodes. split.
  - split; [|by right]. intros [(w & [Hin|Hin])|?]; [| |done];
      by apply elem_of_nil in Hin.
  - split; [|by right]. intros [Hin|?]; [|done]. by apply elem_of_nil in Hin.
Qed.

(** Well-formedness, operation by operation. *)
Lemma well_formed_add_node G q : well_formed G → well_formed (add_node G q).
Proof.
  intros (Hn & He & Hu). split; [by apply NoDup_add_node|]. split.
  - intros u v w. rewrite edges_add_node, !elem_of_add_node.
    intros (? & ? & ?)%He. tauto.
  - rewrite edges_add_node. done.
Qed.

Lemma well_formed_add_edge G a b :
  well_formed G → well_formed (add_edge G a b (distance a b)).
Proof.
  intros Hwf.
  assert (Hwf2 : well_formed (add_node (add_node G a) b))
    by by do 2 apply well_formed_add_node.
  destruct Hwf2 as (Hn & He & Hu).
  assert (Ha : a ∈ nodes (add_node (add_node G a) b)).
  { rewrite !elem_of_add_node. tauto. }
  assert (Hb : b ∈ nodes (add_node (add_node G a) b)).
  { rewrite !elem_of_add_node. tauto. }
  unfold add_edge.
  set (G2 := add_node (add_node G a) b) in *.
  destruct (existsb (same_edge a b) (edges G2)) eqn:Hex.
  - split; [done|]. split; simpl.
    + intros u v w. rewrite list_elem_of_fmap. intros ([[x y] w'] & Heq & Hin).
      destruct (He _ _ _ Hin) as (Hx & Hy & Hw).
      destruct (same_edge a b (x, y, w')) eqn:Hs; simpl in Heq.
      * injection Heq as -> -> ->. split; [done|]. split; [done|].
        apply same_edge_spec in Hs as [[= -> ->]|[= -> ->]];
          [done | apply distance_sym].
      * injection Heq as -> -> ->. done.
    + intros i j e e'. rewrite !list_lookup_fmap.
      destruct (edges G2 !! i) as [e0|] eqn:Hi; [|done].
      destruct (edges G2 !! j) as [e0'|] eqn:Hj; [|done].
      simpl. intros [= <-] [= <-] Hs. apply (Hu i j e0 e0' Hi Hj).
      rewrite same_edge_spec in *.
      destruct (same_edge a b e0), (same_edge a b e0'); exact Hs.
  - split; [done|]. split; simpl.
    + intros u v w. rewrite elem_of_app, list_elem_of_singleton.
      intros [Hin|[= -> -> ->]]; [by apply He | done].
    + intros i j e e' Hi Hj Hs.
      assert (Hnew : ∀ k e1 e2, edges G2 !! k = Some e1 →
                same_edge e1.1.1 e1.1.2 e2 = true → ends e2 = (a, b) → False).
      { intros k e1 e2 Hk Hs12 He2.
        apply not_true_iff_false in Hex. apply Hex.
        apply existsb_exists. exists e1. split.
        - apply list_elem_of_In. by eapply list_elem_of_lookup_2.
        - apply same_edge_spec. apply same_edge_spec in Hs12.
          rewrite He2 in Hs12. destruct e1 as [[x y] w1]. unfold ends. simpl in *.
          destruct Hs12 as [[= -> ->]|[= -> ->]]; auto. }
      apply lookup_app_Some in Hi as [Hi|[Hi1 Hi2]];
        apply lookup_app_Some in Hj as [Hj|[Hj1 Hj2]].
      * by apply (Hu i j e e').
      * exfalso. apply list_lookup_singleton_Some in Hj2 as [_ <-].
        by apply (Hnew i e (a, b, distance a b) Hi Hs).
      * exfalso. apply list_lookup_singleton_Some in Hi2 as [_ <-].
        apply (Hnew j e' (a, b, distance a b) Hj); [|done].
        apply same_edge_spec. apply same_edge_spec in Hs. simpl in Hs.
        destruct e' as [[x y] w']. unfold ends in *. simpl in *.
        destruct Hs as [[= -> ->]|[= -> ->]]; auto.
      * apply list_lookup_singleton_Some in Hi2 as [? _].
        apply list_lookup_singleton_Some in Hj2 as [? _]. lia.
Qed.

Lemma well_formed_add_line G l : well_formed G → well_formed (add_line G l).
Proof.
  revert G. induction l as [|p1 [|p2 r] IH]; intros G Hwf; [done | done|].
  change (add_line G (p1 :: p2 :: r))
    with (add_line (add_edge (add_node (add_node G p1) p2) p1 p2 (distance p1 p2))
            (p2 :: r)).
  apply IH, well_formed_add_edge. by do 2 apply well_formed_add_node.
Qed.

Lemma well_formed_lines ls G : well_formed G → well_formed (foldl add_line G ls).
Proof.
  revert G. induction ls as [|l ls IH]; intros G Hwf; [done|].
  simpl. by apply IH, well_formed_add_line.
Qed.

(** X11.  The road graph is well formed: no node occurs twice, every edge
    joins two nodes of the graph and is weighted by the distance of its ends,
    and no two edges join the same two nodes (a road drawn twice, in either
    direction, gives one edge). *)
Theorem road_graph_is_well_formed (roads : list RoadGeom) :
  let G := build_road_graph roads in
  NoDup (nodes G)
  ∧ (∀ u v w, (u, v, w) ∈ edges G → u ∈ nodes G ∧ v ∈ nodes G ∧ w = distance u v)
  ∧ (∀ i j e e', edges G !! i = Some e → edges G !! j = Some e' →
       same_edge e.1.1 e.1.2 e' = true → i = j).
Proof.
  intros G. subst G. unfold build_road_graph. rewrite build_from_lines.
  apply well_formed_lines. split; [constructor|]. split.
  - intros u v w Hin. by apply elem_of_nil in Hin.
  - intros i j e e' Hi. done.
Qed.

End Graph.

End GraphFacts.

(** ** routing.py and model.py: nearest nodes, nearest shelters, routes *)

Module RouteFacts.
Import GraphBuilder Nx Routing RoutingFacts Agents Model.

Lemma scan_first_least {A} (d : A → float) (pre l : list A) min_dist nearest :
  min_dist = d <$> nearest →
  first_least d pre nearest →
  first_least d (pre ++ l) (scan d l min_dist nearest).
Proof.
  revert pre min_dist nearest.
  induction l as [|x rest IH]; intros pre min_dist nearest Hmd Hpre.
  - by rewrite app_nil_r.
  - simpl. replace (pre ++ x :: rest) with ((pre ++ [x]) ++ rest)
      by by rewrite <-app_assoc.
    destruct (lt_min (d x) min_dist) eqn:Hlt.
    + apply IH; [done|]. simpl.
      exists (length pre). split; [|split].
      * rewrite lookup_app_r by lia. by rewrite Nat.sub_diag.
      * intros j y Hj. apply lookup_app_Some in Hj as [Hj|[_ Hj]].
        -- destruct nearest as [n0|]; simpl in Hpre; [|by subst pre].
           destruct Hpre as (i & _ & Hle & _). subst min_dist. simpl in Hlt.
           apply flt_spec in Hlt. apply Qclt_le_weak.
           eapply Qclt_le_trans; [exact Hlt | by eapply Hle].
        -- apply list_lookup_singleton_Some in Hj as [_ <-]. apply Qcle_refl.
      * intros j y Hj Hy. rewrite lookup_app_l in Hy by done.
        destruct nearest as [n0|]; simpl in Hpre;
          [|subst pre; by rewrite lookup_nil in Hy].
        destruct Hpre as (i & _ & Hle & _). subst min_dist. simpl in Hlt.
        apply flt_spec in Hlt. eapply Qclt_le_trans; [exact Hlt | by eapply Hle].
    + apply IH; [done|].
      destruct nearest as [n0|]; [|by subst min_dist].
      subst min_dist. simpl in Hlt.
      apply not_true_iff_false in Hlt. rewrite flt_spec in Hlt.
      apply Qcnot_lt_le in Hlt.
      destruct Hpre as (i & Hi & Hle & Hlt'). exists i. split; [|split].
      * by apply lookup_app_l_Some.
      * intros j y Hj. apply lookup_app_Some in Hj as [Hj|[_ Hj]]; [by eapply Hle|].
        by apply list_lookup_singleton_Some in Hj as [_ <-].
      * intros j y Hj Hy. apply lookup_app_Some in Hy as [Hy|[Hge _]];
          [by eapply Hlt'|].
        apply lookup_lt_Some in Hi. lia.
Qed.

Lemma nearest_scan_scan ns point min_dist nearest :
  nearest_scan ns point min_dist nearest
  = scan (λ n, sqdist n point) ns min_dist nearest.
Proof.
  revert min_dist nearest. induction ns as [|[nx ny] ns IH]; intros min_dist nearest;
    [done|].
  destruct point as [px py]. simpl. unfold sqdist. simpl.
  destruct (lt_min _ _); apply IH.
Qed.

Lemma nearest_evac_scan_scan es point min_d nearest :
  nearest_evac_scan es point min_d (evac_id <$> nearest)
  = evac_id <$> scan (λ e, sqdist (loc e) point) es min_d nearest.
Proof.
  revert min_d nearest. induction es as [|e es IH]; intros min_d nearest; [done|].
  destruct point as [px py]. simpl. destruct (loc e) as [ex ey] eqn:He.
  unfold sqdist. simpl.
  destruct (lt_min _ _); [|apply IH].
  by rewrite <-IH.
Qed.

(** X12.  [nearest_node] returns a node of the graph that is at least as
    near to the point (in squared degrees) as every other node, the first such
    node in the order of insertion; it returns nothing exactly on a graph
    without nodes. *)
Theorem nearest_node_is_nearest (G : Graph) (point : Coord) :
  match nearest_node G point with
  | None => nodes G = []
  | Some n =>
      ∃ i, nodes G !! i = Some n
        ∧ (∀ j n', nodes G !! j = Some n' → (sqdist n point ≤ sqdist n' point)%Qc)
        ∧ (∀ j n', (j < i)%nat → nodes G !! j = Some n' →
             (sqdist n point < sqdist n' point)%Qc)
  end.
Proof.
  unfold nearest_node. rewrite nearest_scan_scan.
  apply (scan_first_least (λ n, sqdist n point) [] (nodes G) None None); done.
Qed.

(** X13.  [_find_nearest_evac_center] returns the id of a shelter that is
    at least as near to the point as every other shelter, the first such in
    the order of the file, whatever the capacities; it returns nothing exactly
    when there is no shelter. *)
Theorem nearest_evac_center_is_nearest (m : EvacuationModel) (point : Coord) :
  match _find_nearest_evac_center m point with
  | None => evac_agents m = []
  | Some id_ =>
      ∃ i e, evac_agents m !! i = Some e ∧ evac_id e = id_
        ∧ (∀ j e', evac_agents m !! j = Some e' →
             (sqdist (loc e) point ≤ sqdist (loc e') point)%Qc)
        ∧ (∀ j e', (j < i)%nat → evac_agents m !! j = Some e' →
             (sqdist (loc e) point < sqdist (loc e') point)%Qc)
  end.
Proof.
  unfold _find_nearest_evac_center.
  change (nearest_evac_scan (evac_agents m) point None None)
    with (nearest_evac_scan (evac_agents m) point None (evac_id <$> None)).
  rewrite nearest_evac_scan_scan.
  pose proof (scan_first_least (λ e, sqdist (loc e) point) [] (evac_agents m)
                None None eq_refl eq_refl) as Hs.
  simpl in Hs. destruct (scan _ _ _ _) as [e|]; simpl; [|done].
  destruct Hs as (i & Hi & Hle & Hlt). by exists i, e.
Qed.

Lemma nearest_node_None G point : nearest_node G point = None → nodes G = [].
Proof.
  intros Hn.
  unfold nearest_node in Hn. rewrite nearest_scan_scan in Hn.
  pose proof (scan_first_least (λ n, sqdist n point) [] (nodes G) None None
                eq_refl eq_refl) as Hs.
  simpl in Hs. by rewrite Hn in Hs.
Qed.

Lemma walk_from_shape G s t p :
  walk_from G s t p →
  head p = Some s ∧ last p = Some t
  ∧ ∀ i u v, p !! i = Some u → p !! S i = Some v → adjacent G u v.
Proof.
  induction 1 as [|u v p Hw (Hh & Hl & Hadj) Huv].
  - split; [done|]. split; [done|]. intros [|i] u v Hu Hv; done.
  - split; [|split].
    + destruct p; [done|]. done.
    + apply last_snoc.
    + intros i x y Hx Hy.
      apply lookup_app_Some in Hy as [Hy|[Hge Hy]].
      * rewrite lookup_app_l in Hx by (apply lookup_lt_Some in Hy; lia).
        by eapply Hadj.
      * apply list_lookup_singleton_Some in Hy as [Hi <-].
        assert (Hlen : i = (length p - 1)%nat) by lia.
        rewrite lookup_app_l in Hx by (destruct p; [done | simpl in *; lia]).
        rewrite last_lookup in Hl.
        replace (Nat.pred (length p)) with i in Hl by lia.
        rewrite Hl in Hx. by injection Hx as <-.
Qed.

(** X14.  What [compute_shortest_route] returns is the empty path on a
    graph without nodes, and otherwise a walk of the graph: it starts at the
    node nearest to the start point, ends at the node nearest to the end
    point, and any two nodes that follow one another in it are joined by an
    edge.  The only error it raises is [NetworkXNoPath], never
    [NodeNotFound]. *)
Theorem route_is_a_walk_between_snapped_nodes (G : Graph) (start end_ : Coord) :
  match compute_shortest_route G start end_ with
  | Ok p =>
      (nodes G = [] ∧ p = [])
      ∨ ∃ s t, nearest_node G start = Some s ∧ nearest_node G end_ = Some t
          ∧ head p = Some s ∧ last p = Some t
          ∧ ∀ i u v, p !! i = Some u → p !! S i = Some v → adjacent G u v
  | Raise e => e = NetworkXNoPath ∧ nodes G ≠ []
  end.
Proof.
  unfold compute_shortest_route.
  destruct (nearest_node G start) as [s|] eqn:Hs.
  - destruct (nearest_node G end_) as [t|] eqn:Ht.
    + pose proof (nearest_node_elem _ _ _ Hs) as Hin.
      destruct (shortest_path G s t) as [p|e] eqn:Hsp.
      * right. exists s, t. split; [done|]. split; [done|].
        by apply walk_from_shape, shortest_path_sound.
      * split; [|by intros Hn; rewrite Hn in Hin; apply elem_of_nil in Hin].
        revert Hsp. unfold shortest_path. rewrite bool_decide_true by done.
        apply dijkstra_raises.
    + left. split; [by eapply nearest_node_None | done].
  - left. split; [by eapply nearest_node_None | done].
Qed.

Lemma shortest_path_to_itself G n : n ∈ nodes G → shortest_path G n n = Ok [n].
Proof.
  intros Hn. unfold shortest_path. rewrite bool_decide_true by done.
  replace (2 * length (edges G) + 2)%nat with (S (2 * length (edges G) + 1)) by lia.
  cbn [dijkstra extract_min].
  rewrite bool_decide_false by apply not_elem_of_nil.
  by rewrite bool_decide_true.
Qed.

(** X15.  A person whose home snaps to the same road node as the nearest
    shelter gets the route of that single node, which is too short to walk:
    the initial assignment marks the person stuck and changes nothing else. *)
Theorem snapping_to_the_same_node_is_stuck
    (m : EvacuationModel) (person : PersonAgent) (id_ : Z) (e : EvacCenterAgent)
    (n : Coord) :
  _find_nearest_evac_center m (home person) = Some id_ →
  get_evac_agent_by_id m id_ = Some e →
  nearest_node (ROAD_GRAPH m) (home person) = Some n →
  nearest_node (ROAD_GRAPH m) (loc e) = Some n →
  compute_shortest_route (ROAD_GRAPH m) (home person) (loc e) = Ok [n]
  ∧ assign_initial_route m person = (m, set_state person stuck).
Proof.
  intros Hfind Hget Hhome Hloc.
  assert (Hr : compute_shortest_route (ROAD_GRAPH m) (home person) (loc e) = Ok [n]).
  { unfold compute_shortest_route. rewrite Hhome, Hloc.
    apply shortest_path_to_itself. by eapply nearest_node_elem. }
  split; [done|].
  unfold assign_initial_route. rewrite Hfind. simpl. rewrite Hget.
  unfold route_or_empty. rewrite Hr. reflexivity.
Qed.

(** In the simulation [bend] a person who lives at [C1], the node of the
    shelter: the route is that single node and the person is stuck. *)
Lemma neighbour_of_the_shelter_is_stuck :
  compute_shortest_route (ROAD_GRAPH Scenario.bend) Scenario.C1 Scenario.C1
  = Ok [Scenario.C1]
  ∧ assign_initial_route Scenario.bend Scenario.neighbour
    = (Scenario.bend, set_state Scenario.neighbour stuck).
Proof.
  apply (snapping_to_the_same_node_is_stuck Scenario.bend Scenario.neighbour 1
           (mkEvac 1 Scenario.C1 (Finite 9999) 0) Scenario.C1); by_evaluation.
Defined.

End RouteFacts.

(** ** agents.py: shelters and single steps *)

Module AgentFacts.
Import Congestion Hazard Agents Model ShelterFacts PopulationFacts MovementFacts.
Local Open Scope Z_scope.

Lemma add_occupant_fields x :
  evac_id (add_occupant x).1 = evac_id x ∧ loc (add_occupant x).1 = loc x
  ∧ evac_capacity (add_occupant x).1 = evac_capacity x
  ∧ occupants (add_occupant x).1
    = (if lt_nan (occupants x) (evac_capacity x) then occupants x + 1
       else occupants x)
  ∧ (add_occupant x).2 = lt_nan (occupants x) (evac_capacity x).
Proof. unfold add_occupant, can_accept. by destruct (lt_nan _ _). Qed.

Lemma arrivals_S n e : arrivals (S n) e = (add_occupant (arrivals n e)).1.
Proof. done. Qed.

Lemma arrivals_capacity n e : evac_capacity (arrivals n e) = evac_capacity e.
Proof.
  induction n as [|n IH]; [done|]. rewrite arrivals_S.
  destruct (add_occupant_fields (arrivals n e)) as (_ & _ & -> & _). done.
Qed.

(** X16.  A new shelter of capacity [cap] that has been asked [n] times
    to take a person holds min(n, cap) occupants (0 for a negative capacity);
    the next call succeeds, and adds one, exactly when [n < cap], and is
    without effect otherwise.  A shelter whose capacity is NaN never takes
    anybody. *)
Theorem shelter_fills_up_to_its_capacity
    (uid : Z) (where_ : Coord) (cap : Z) (n : nat) :
  let e := arrivals n (mkEvac uid where_ (Finite cap) 0) in
  let e' := arrivals n (mkEvac uid where_ NaN 0) in
  occupants e = Z.max 0 (Z.min (Z.of_nat n) cap)
  ∧ ((add_occupant e).2 = true ↔ Z.of_nat n < cap)
  ∧ (Z.of_nat n < cap → occupants (add_occupant e).1 = Z.of_nat n + 1)
  ∧ (cap ≤ Z.of_nat n → (add_occupant e).1 = e)
  ∧ occupants e' = 0 ∧ add_occupant e' = (e', false).
Proof.
  intros e e'. subst e e'. set (e0 := mkEvac uid where_ (Finite cap) 0).
  set (e1 := mkEvac uid where_ NaN 0).
  assert (Hnan : ∀ k, arrivals k e1 = e1).
  { intros k. induction k as [|k IH]; [done|]. by rewrite arrivals_S, IH. }
  assert (Hocc : occupants (arrivals n e0) = Z.max 0 (Z.min (Z.of_nat n) cap)).
  { induction n as [|n IH]; [simpl; lia|]. rewrite arrivals_S.
    destruct (add_occupant_fields (arrivals n e0)) as (_ & _ & _ & -> & _).
    rewrite arrivals_capacity, IH. simpl. case_bool_decide; lia. }
  destruct (add_occupant_fields (arrivals n e0)) as (_ & _ & _ & Ho & Hb).
  rewrite arrivals_capacity, Hocc in Ho, Hb. simpl in Ho, Hb.
  split; [done|]. split; [|split; [|split]].
  - rewrite Hb, bool_decide_eq_true. lia.
  - intros Hlt. rewrite Ho, bool_decide_true by lia. lia.
  - intros Hge. unfold add_occupant, can_accept.
    rewrite arrivals_capacity, Hocc. simpl. by rewrite bool_decide_false by lia.
  - rewrite Hnan. by split.
Qed.

(** Writing back the shelter that was looked up. *)
Lemma find_evac_after_put (l : list EvacCenterAgent) id_ e :
  find (λ x, bool_decide (evac_id x = id_)) l = Some e →
  find (λ x, bool_decide (evac_id x = id_))
    ((λ x, if bool_decide (evac_id x = evac_id e) then e else x) <$> l) = Some e.
Proof.
  intros Hfind.
  assert (He : evac_id e = id_).
  { apply find_some in Hfind as [_ He]. by apply bool_decide_eq_true in He. }
  induction l as [|x l IH]; [done|].
  cbn [fmap list_fmap find] in *.
  destruct (decide (evac_id x = id_)) as [Hx|Hx].
  - rewrite (bool_decide_true (evac_id x = evac_id e)) by congruence.
    by rewrite bool_decide_true.
  - rewrite (bool_decide_false (evac_id x = evac_id e)) by congruence.
    rewrite bool_decide_false in Hfind by done.
    rewrite bool_decide_false by done. by apply IH.
Qed.

(** X17.  [_arrive] always makes the person safe and reached, whether or
    not the shelter takes the person in: when the target shelter is full its
    entry stays as it is, and when the target is no shelter of the model the
    shelters stay as they are. *)
Theorem arrival_does_not_depend_on_the_shelter (m : EvacuationModel) (p : PersonAgent) :
  state (_arrive m p).2 = safe
  ∧ reached (_arrive m p).2 = true
  ∧ (∀ id_ e, evac_center_id p = Some id_ → get_evac_agent_by_id m id_ = Some e →
       can_accept e = false →
       get_evac_agent_by_id (_arrive m p).1 id_ = Some e)
  ∧ (∀ id_, evac_center_id p = Some id_ → get_evac_agent_by_id m id_ = None →
       evac_agents (_arrive m p).1 = evac_agents m).
Proof.
  unfold _arrive.
  set (m1 := match _route_idx p with O => m | S i => _ end).
  assert (Hm1 : evac_agents m1 = evac_agents m).
  { subst m1. destruct (_route_idx p) as [|i]; [done|].
    by destruct (route p !! i), (route p !! S i). }
  assert (Hget : ∀ i, get_evac_agent_by_id m1 i = get_evac_agent_by_id m i).
  { intros i. unfold get_evac_agent_by_id. by rewrite Hm1. }
  simpl. split; [|split; [|split]].
  - destruct (evac_center_id p) as [i|]; [|done].
    by destruct (get_evac_agent_by_id m1 i).
  - destruct (evac_center_id p) as [i|]; [|done].
    by destruct (get_evac_agent_by_id m1 i).
  - intros id_ e -> He Hfull. rewrite Hget, He. simpl.
    unfold add_occupant. rewrite Hfull. simpl.
    unfold get_evac_agent_by_id, put_evac_agent. simpl. rewrite Hm1.
    by apply find_evac_after_put.
  - intros id_ -> He. by rewrite Hget, He.
Qed.

Section Position.
Context `{FloatMath}.

Lemma clamp_bounds (x : float) :
  (0 ≤ fmax 0%Qc (fmin 1%Qc x))%Qc ∧ (fmax 0%Qc (fmin 1%Qc x) ≤ 1)%Qc.
Proof.
  unfold fmax, fmin.
  destruct (flt x 1%Qc) eqn:H1.
  - apply flt_spec in H1. destruct (flt 0%Qc x) eqn:H0.
    + apply flt_spec in H0. split; by apply Qclt_le_weak.
    + split; [apply Qcle_refl | done].
  - destruct (flt 0%Qc 1%Qc) eqn:H0; [|done].
    split; [done | apply Qcle_refl].
Qed.

Lemma hazard_check_pos m p : pos (hazard_check m p).2 = pos p.
Proof.
  unfold hazard_check. destruct (get_time_to_inundation _ _); [|done].
  by destruct (nan_le _ _).
Qed.

(** X18.  A step either leaves the position of the person as it is, or
    puts the person on the segment under the cursor when the step began: at
    the interpolation between the two ends of that segment at a fraction
    between 0 and 1. *)
Theorem step_puts_the_person_on_the_starting_segment
    (m : EvacuationModel) (p : PersonAgent) :
  let p' := (Agents.step m p).2 in
  pos p' = pos p
  ∨ ∃ a b s, state p = evacuating ∧ _current_segment p = Some (a, b)
       ∧ (0 ≤ s)%Qc ∧ (s ≤ 1)%Qc ∧ pos p' = interpolate a b s.
Proof.
  intros p'. subst p'. unfold Agents.step.
  case_bool_decide as Hs; simpl; [|by left].
  destruct (at_last_node p); [left; apply arrive_cursor|].
  destruct (_current_segment p) as [[a b]|]; [|by left].
  case_bool_decide; [by left|].
  right. exists a, b.
  pose proof (move_position m p a b (_segment_length_m a b)) as Hpos.
  destruct (move m p a b _) as [m1 p1]. simpl in Hpos.
  exists (fmax 0%Qc (fmin 1%Qc (_segment_progress p1))).
  destruct (clamp_bounds (_segment_progress p1)) as [Hlow Hhigh].
  rewrite hazard_check_pos. done.
Qed.

(** X19.  The law of motion inside a segment.  An evacuating person on a
    segment of non-zero length advances by speed x speed multiplier x tick
    length, as a fraction of the length of the segment: when the new
    progress stays below 1 the cursor stays on the segment, the progress is
    that sum, the position is the interpolation between the two ends at that
    progress, and nothing else happens before the hazard check at the new
    position. *)
Theorem step_advances_along_the_segment
    (m : EvacuationModel) (p : PersonAgent) (a b : Coord) :
  let progress :=
    (_segment_progress p
     + speed p * speed_factor_on m a b * step_time_seconds m / _segment_length_m a b)%Qc in
  state p = evacuating → _current_segment p = Some (a, b) →
  _segment_length_m a b ≠ 0%Qc →
  (0 ≤ progress)%Qc → (progress < 1)%Qc →
  Agents.step m p
  = hazard_check m
      (set_pos (set_cursor p (_route_idx p) progress) (interpolate a b progress)).
Proof.
  intros progress Hs Hseg Hlen Hlow Hhigh.
  rewrite (step_moving m p a b Hs Hseg Hlen).
  destruct (current_segment_Some _ _ _ Hseg) as (Hlast & _ & _).
  by rewrite (move_within_segment m p a b _ Hlast Hlow Hhigh).
Qed.

End Position.

(** The person of [bend] sent straight from [A1] to [C1], 11.1 m: the first
    step takes the person 1.4 m along that segment. *)
Lemma walker_advances :
  @Agents.step approx_math Scenario.walker.1 Scenario.walker.2
  = @hazard_check approx_math Scenario.walker.1
      (set_pos
         (set_cursor Scenario.walker.2 (_route_idx Scenario.walker.2)
            Scenario.walker_progress)
         (interpolate Scenario.A1 Scenario.C1 Scenario.walker_progress)).
Proof.
  apply (@step_advances_along_the_segment approx_math Scenario.walker.1
           Scenario.walker.2 Scenario.A1 Scenario.C1); by_evaluation.
Defined.

End AgentFacts.

(** ** model.py and app.py: the simulation as a whole *)

Module SimulationFacts.
Import Congestion Hazard Agents Model ShelterFacts PopulationFacts MovementFacts.
Import RouteFacts.
Local Open Scope Z_scope.

Lemma fills_refl e : fills e e.
Proof. unfold fills. repeat split; lia. Qed.

Lemma fills_trans x y z : fills x y → fills y z → fills x z.
Proof. unfold fills. intros (? & ? & ? & ?) (? & ? & ? & ?). repeat split; try congruence; lia. Qed.

Lemma Forall2_fills_refl l : Forall2 fills l l.
Proof. induction l; constructor; [apply fills_refl | done]. Qed.

Lemma Forall2_fills_ids l l' : Forall2 fills l l' → evac_id <$> l' = evac_id <$> l.
Proof.
  induction 1 as [|x y l l' (Hid & _) _ IH]; [done|].
  rewrite !fmap_cons. by rewrite Hid, IH.
Qed.

Lemma Forall2_fills_trans l1 l2 l3 :
  Forall2 fills l1 l2 → Forall2 fills l2 l3 → Forall2 fills l1 l3.
Proof.
  intros H12. revert l3. induction H12 as [|x y l l' Hxy _ IH]; intros l3 H23.
  - by inversion H23.
  - inversion H23 as [|y' z l2' l3' Hyz Hrest]; subst.
    constructor; [by eapply fills_trans | by apply IH].
Qed.

Lemma evolves_refl m : evolves m m.
Proof.
  split; try done.
  - intros _. apply Forall2_fills_refl.
  - exists []. split; [constructor|]. by destruct (congestion m).
Qed.

Lemma evolves_trans m1 m2 m3 : evolves m1 m2 → evolves m2 m3 → evolves m1 m3.
Proof.
  intros [A1 A2 A3 A4 A5 A6 (cs1 & Ht1 & Hc1)] [B1 B2 B3 B4 B5 B6 (cs2 & Ht2 & Hc2)].
  split; try congruence.
  - intros Hn. specialize (A6 Hn).
    eapply Forall2_fills_trans; [exact A6|]. apply B6.
    by rewrite (Forall2_fills_ids _ _ A6).
  - exists (cs1 ++ cs2). split; [by apply Forall_app|].
    rewrite Hc2, Hc1. destruct (congestion m1); simpl; [|done].
    unfold calls. by rewrite foldl_app.
Qed.

Lemma evolves_leave m a b : evolves m (leave m a b).
Proof.
  split; try done.
  - intros _. apply Forall2_fills_refl.
  - exists [Leave a b]. split; [by repeat constructor|].
    unfold leave. simpl. by destruct (congestion m).
Qed.

Lemma evolves_enter m a b : evolves m (enter m a b).
Proof.
  split; try done.
  - intros _. apply Forall2_fills_refl.
  - exists [Enter a b]. split; [by repeat constructor|].
    unfold enter. simpl. by destruct (congestion m).
Qed.

Lemma same_id_same_shelter (l : list EvacCenterAgent) x y :
  NoDup (evac_id <$> l) → x ∈ l → y ∈ l → evac_id x = evac_id y → x = y.
Proof.
  intros Hn [i Hi]%list_elem_of_lookup [j Hj]%list_elem_of_lookup Hid.
  assert (i = j).
  { apply (NoDup_lookup _ i j (evac_id x) Hn); rewrite list_lookup_fmap.
    - by rewrite Hi.
    - by rewrite Hj, Hid. }
  subst j. congruence.
Qed.

Lemma fills_add_occupant e : fills e (add_occupant e).1.
Proof.
  unfold add_occupant, fills. destruct (can_accept e); simpl; repeat split; lia.
Qed.

Lemma Forall2_fmap_self {A} (R : A → A → Prop) (f : A → A) (l : list A) :
  (∀ x, x ∈ l → R x (f x)) → Forall2 R l (f <$> l).
Proof.
  induction l as [|x l IH]; intros Hl; [constructor|].
  rewrite fmap_cons. constructor; [apply Hl; by left|].
  apply IH. intros y Hy. apply Hl. by right.
Qed.

Lemma evolves_put_evac_agent m id_ agent :
  get_evac_agent_by_id m id_ = Some agent →
  evolves m (put_evac_agent m (add_occupant agent).1).
Proof.
  intros Hget. apply get_evac_agent_elem in Hget.
  split; try done.
  - intros Hn. unfold put_evac_agent. simpl.
    apply Forall2_fmap_self. intros x Hx.
    case_bool_decide as Hid; [|apply fills_refl].
    assert (Heq : evac_id x = evac_id agent).
    { rewrite Hid. unfold add_occupant. by destruct (can_accept agent). }
    rewrite (same_id_same_shelter _ x agent Hn); [apply fills_add_occupant | done..].
  - exists []. split; [constructor|]. simpl. by destruct (congestion m).
Qed.

Lemma evolves_leave_current m p : evolves m (leave_current m p).
Proof.
  unfold leave_current. destruct (_current_segment p) as [[a b]|];
    [apply evolves_leave | apply evolves_refl].
Qed.

Lemma evolves_enter_current m p : evolves m (enter_current m p).
Proof.
  unfold enter_current. destruct (_current_segment p) as [[a b]|];
    [apply evolves_enter | apply evolves_refl].
Qed.

Lemma evolves_assign_route m p r t : evolves m (assign_route m p r t).1.
Proof.
  unfold assign_route. case_bool_decide; simpl; [apply evolves_leave_current|].
  destruct r as [|a [|b r]]; simpl; try apply evolves_leave_current.
  eapply evolves_trans; [apply evolves_leave_current | apply evolves_enter].
Qed.

Lemma evolves_become_overtaken m p : evolves m (_become_overtaken m p).1.
Proof. apply evolves_leave_current. Qed.

Lemma evolves_arrive m p : evolves m (_arrive m p).1.
Proof.
  unfold _arrive.
  set (m1 := match _route_idx p with O => m | S i => _ end).
  assert (Hm1 : evolves m m1).
  { subst m1. destruct (_route_idx p) as [|i]; [apply evolves_refl|].
    destruct (route p !! i), (route p !! S i);
      try apply evolves_refl. apply evolves_leave. }
  simpl. destruct (evac_center_id p) as [id_|]; [|done].
  destruct (get_evac_agent_by_id m1 id_) as [agent|] eqn:Hget; [|done].
  simpl. eapply evolves_trans; [exact Hm1 | by eapply evolves_put_evac_agent].
Qed.

Lemma evolves_roll_over n m p : evolves m (roll_over n m p).1.
Proof.
  revert m p. induction n as [|n IH]; intros m p; simpl; [apply evolves_refl|].
  destruct (_ && _); [|apply evolves_refl].
  eapply evolves_trans; [|apply IH].
  eapply evolves_trans; [apply evolves_leave_current | apply evolves_enter_current].
Qed.

Section Operations.
Context `{FloatMath}.

Lemma evolves_hazard_check m p : evolves m (hazard_check m p).1.
Proof.
  unfold hazard_check. destruct (get_time_to_inundation _ _); [|apply evolves_refl].
  destruct (nan_le _ _); [apply evolves_become_overtaken | apply evolves_refl].
Qed.

Lemma evolves_move m p a b seg_len : evolves m (move m p a b seg_len).1.
Proof.
  unfold move.
  match goal with |- context [roll_over ?n ?m ?q] =>
    pose proof (evolves_roll_over n m q) as Hr; destruct (roll_over n m q) as [m1 p1] end.
  simpl in Hr.
  destruct (at_last_node _); [|done].
  destruct (last _); [|done].
  destruct (flt _ _); [|done].
  eapply evolves_trans; [exact Hr | apply evolves_arrive].
Qed.

Lemma evolves_agent_step m p : evolves m (Agents.step m p).1.
Proof.
  unfold Agents.step.
  destruct (negb _); [apply evolves_refl|].
  destruct (at_last_node p); [apply evolves_arrive|].
  destruct (_current_segment p) as [[a b]|]; [|apply evolves_refl].
  case_bool_decide.
  { unfold hop. simpl.
    eapply evolves_trans; [apply evolves_leave | apply evolves_enter_current]. }
  pose proof (evolves_move m p a b (_segment_length_m a b)) as Hmv.
  destruct (move m p a b _) as [m1 p1]. simpl in Hmv.
  eapply evolves_trans; [exact Hmv | apply evolves_hazard_check].
Qed.

Lemma evolves_reroute m p : evolves m (reroute m p).1.
Proof.
  unfold reroute, recompute_route_for_person.
  destruct (route p); [apply evolves_refl|].
  match goal with |- context [match ?t with Some _ => _ | None => (m, p, false) end] =>
    destruct t as [target|] end; [|apply evolves_refl].
  case_bool_decide; [|apply evolves_refl]. simpl. apply evolves_assign_route.
Qed.

Lemma evolves_cleanup m p : evolves m (cleanup m p).1.
Proof.
  unfold cleanup. destruct (terminal _); [apply evolves_leave_current | apply evolves_refl].
Qed.

Lemma evolves_post_step m p : evolves m (post_step m p).1.
Proof.
  unfold post_step. case_bool_decide; [|apply evolves_cleanup].
  destruct (match get_time_to_inundation _ _ with Some a => _ | None => false end);
    [apply evolves_become_overtaken|].
  set (r1 := match get_time_to_inundation _ _ with Some a => _ | None => (m, p) end).
  assert (H1 : evolves m r1.1).
  { subst r1. destruct (get_time_to_inundation _ _); [|apply evolves_refl].
    destruct (nan_le _ _); [apply evolves_reroute | apply evolves_refl]. }
  destruct r1 as [m1 p1]. simpl in H1.
  set (r2 := match evac_center_id p1 ≫= get_evac_agent_by_id m1 with
             | Some e => _ | None => (m1, p1) end).
  assert (H2 : evolves m1 r2.1).
  { subst r2. destruct (_ ≫= _); [|apply evolves_refl].
    destruct (negb _); [apply evolves_reroute | apply evolves_refl]. }
  destruct r2 as [m2 p2]. simpl in H2.
  eapply evolves_trans; [exact H1|].
  eapply evolves_trans; [exact H2 | apply evolves_cleanup].
Qed.

End Operations.

Lemma evolves_assign_initial_route m p : evolves m (assign_initial_route m p).1.
Proof.
  unfold assign_initial_route. destruct (_ ≫= _); [|apply evolves_refl].
  case_bool_decide; [apply evolves_assign_route | apply evolves_refl].
Qed.

Lemma evolves_put_person m p : evolves m (put_person m p).
Proof.
  split; try done.
  - intros _. apply Forall2_fills_refl.
  - exists []. split; [constructor|]. simpl. by destruct (congestion m).
Qed.

Lemma evolves_for_each_person body uids m :
  (∀ m p, evolves m (body m p).1) → evolves m (for_each_person body uids m).
Proof.
  intros Hbody. revert m. unfold for_each_person.
  induction uids as [|uid uids IH]; intros m; [apply evolves_refl|].
  simpl. eapply evolves_trans; [|apply IH].
  destruct (get_person m uid) as [p|]; [|apply evolves_refl].
  specialize (Hbody m p). destruct (body m p) as [m' p']. simpl in Hbody.
  eapply evolves_trans; [exact Hbody | apply evolves_put_person].
Qed.

Lemma evolves_model_step `{FloatMath} order m :
  evolves (advance_clock m) (Model.step order m).
Proof.
  unfold Model.step, schedule_step. cbv zeta.
  eapply evolves_trans; apply evolves_for_each_person;
    [apply evolves_agent_step | apply evolves_post_step].
Qed.

(** *** Shelters and the clock over a simulation *)

Lemma for_each_person_evac body uids m :
  (∀ m p, evac_agents (body m p).1 = evac_agents m) →
  evac_agents (for_each_person body uids m) = evac_agents m.
Proof.
  intros Hbody. revert m. unfold for_each_person.
  induction uids as [|uid uids IH]; intros m; [done|].
  simpl. rewrite IH. destruct (get_person m uid) as [p|]; [|done].
  specialize (Hbody m p). by destruct (body m p).
Qed.

Lemma spawn_evac_centers_ids rows k :
  evac_id <$> _spawn_evac_centers rows k
  = seqZ k (Z.of_nat (length (_spawn_evac_centers rows k))).
Proof.
  revert k. induction rows as [|row rows IH]; intros k; simpl; [done|].
  destruct (evac_geometry row); [|apply IH].
  rewrite fmap_cons. cbn [length]. rewrite seqZ_cons by lia. simpl evac_id.
  f_equal. rewrite IH. f_equal; lia.
Qed.

Lemma spawn_evac_centers_empty rows k :
  Forall (λ x, occupants x = 0) (_spawn_evac_centers rows k).
Proof.
  revert k. induction rows as [|row rows IH]; intros k; simpl; [constructor|].
  destruct (evac_geometry row); [|apply IH]. by constructor.
Qed.

Section Shelters.
Context `{FloatMath}.

Lemma init_evac_agents buildings_gdf evac_gdf G population_limit dt threshold m0 :
  Model.init buildings_gdf evac_gdf G population_limit dt threshold = Ok m0 →
  evac_agents m0 = _spawn_evac_centers evac_gdf 1.
Proof.
  intros (st & _ & ->)%init_returns.
  unfold populate, _assign_routes_to_people. simpl.
  rewrite for_each_person_evac; [done|].
  intros m p. apply CapacityFacts.assign_initial_route_evac.
Qed.

Lemma step_fills order m :
  NoDup (evac_id <$> evac_agents m) →
  Forall2 fills (evac_agents m) (evac_agents (Model.step order m)).
Proof. intros Hn. by apply (evolves_shelters _ _ (evolves_model_step order m)). Qed.

Lemma run_fills orders m :
  NoDup (evac_id <$> evac_agents m) →
  Forall2 fills (evac_agents m) (evac_agents (run orders m)).
Proof.
  revert m. induction orders as [|order orders IH]; intros m Hn;
    [apply Forall2_fills_refl|].
  simpl. pose proof (step_fills order m Hn) as Hs.
  eapply Forall2_fills_trans; [exact Hs|]. apply IH.
  by rewrite (Forall2_fills_ids _ _ Hs).
Qed.

(** X20.  The shelters of a simulation are numbered 1, 2, ... in the order
    of the file and start empty; through any number of ticks each keeps its
    id, its place and its capacity, and its number of occupants never goes
    down. *)
Theorem shelters_only_fill_up
    (buildings_gdf : list BuildingRow) (evac_gdf : list EvacRow)
    (G : GraphBuilder.Graph) (population_limit : option Z) (dt threshold : float)
    (m0 : EvacuationModel) (orders : list (list Z)) :
  Model.init buildings_gdf evac_gdf G population_limit dt threshold = Ok m0 →
  let m := run orders m0 in
  evac_id <$> evac_agents m0 = seqZ 1 (Z.of_nat (length (evac_agents m0)))
  ∧ Forall (λ x, occupants x = 0) (evac_agents m0)
  ∧ Forall2 fills (evac_agents m0) (evac_agents m).
Proof.
  intros Hinit m. subst m.
  pose proof (init_evac_agents _ _ _ _ _ _ _ Hinit) as Hev.
  assert (Hids : evac_id <$> evac_agents m0
                 = seqZ 1 (Z.of_nat (length (evac_agents m0)))).
  { rewrite Hev. apply spawn_evac_centers_ids. }
  split; [done|]. split.
  - rewrite Hev. apply spawn_evac_centers_empty.
  - apply run_fills. rewrite Hids. apply NoDup_seqZ.
Qed.

(** The clock. *)
Lemma of_int_S (n : nat) : of_int (Z.of_nat (S n)) = (of_int (Z.of_nat n) + 1)%Qc.
Proof.
  unfold of_int. rewrite Nat2Z.inj_succ, <-Z.add_1_r, Z2Qc_inj_add. by rewrite Z2Qc_inj_1.
Qed.

Lemma update_update h t t' : update (update h t) t' = update h t'.
Proof. done. Qed.

Lemma initial_hazard_clock : update initial_hazard 0%Qc = initial_hazard.
Proof.
  unfold initial_hazard, Hazard.init. simpl truthy_list.
  assert (Ht : truthy_float (Some (of_int 15)) = true) by by_evaluation.
  rewrite Ht. reflexivity.
Qed.

Lemma ticking_init buildings_gdf evac_gdf G population_limit dt threshold m0 :
  Model.init buildings_gdf evac_gdf G population_limit dt threshold = Ok m0 →
  ticking dt threshold G 0 m0.
Proof.
  intros (st & _ & ->)%init_returns.
  unfold populate, unpopulated, _assign_routes_to_people.
  match goal with |- ticking _ _ _ _ (set_congestion (for_each_person ?b ?u ?m0) _) =>
    pose proof (evolves_for_each_person b u m0 evolves_assign_initial_route) as He
  end.
  destruct He as [E1 E2 E3 E4 E5 _ _]. simpl in *.
  split; simpl; rewrite ?E1, ?E2, ?E3, ?E4, ?E5; [| |done..].
  - change (Z.of_nat 0) with 0%Z. unfold of_int. rewrite Z2Qc_inj_0.
    symmetry. apply Qcmult_0_l.
  - symmetry. apply initial_hazard_clock.
Qed.

Lemma ticking_step_model dt threshold G k order m :
  ticking dt threshold G k m → ticking dt threshold G (S k) (Model.step order m).
Proof.
  intros [T1 T2 T3 T4 T5].
  destruct (evolves_model_step order m) as [E1 E2 E3 E4 E5 _ _].
  unfold advance_clock in *. simpl in *.
  split; rewrite ?E1, ?E2, ?E3, ?E4, ?E5; [| |done..].
  - rewrite T1, T3, of_int_S. unfold float in *. ring.
  - by rewrite T2.
Qed.

Lemma ticking_run dt threshold G k orders m :
  ticking dt threshold G k m →
  ticking dt threshold G (k + length orders) (run orders m).
Proof.
  revert k m. induction orders as [|order orders IH]; intros k m Ht; simpl.
  - by rewrite Nat.add_0_r.
  - replace (k + S (length orders))%nat with (S k + length orders)%nat by lia.
    apply IH. by apply ticking_step_model.
Qed.

(** X21.  After [n] ticks the clock of the model stands at [n] times the
    step, and the hazard is the one the constructor built with its clock set
    to that time; the step, the rerouting threshold and the road graph are
    those the model was built with.  With the step of 1 second of the
    application, the time shown by the statistics is the number of ticks. *)
Theorem clock_counts_the_ticks
    (buildings_gdf : list BuildingRow) (evac_gdf : list EvacRow)
    (G : GraphBuilder.Graph) (population_limit : option Z) (dt threshold : float)
    (m0 : EvacuationModel) (orders : list (list Z)) :
  Model.init buildings_gdf evac_gdf G population_limit dt threshold = Ok m0 →
  let m := run orders m0 in
  sim_time m = (of_int (Z.of_nat (length orders)) * dt)%Qc
  ∧ hazard m
    = update (Hazard.init None (Some coastal_sources) (Some (of_int 15))) (sim_time m)
  ∧ current_time (hazard m) = sim_time m
  ∧ step_time_seconds m = dt
  ∧ reroute_threshold_s m = threshold
  ∧ ROAD_GRAPH m = G
  ∧ (dt = 1%Qc →
     App.time (App.simulation_stats m) = of_int (Z.of_nat (length orders))).
Proof.
  intros Hinit m.
  destruct (ticking_run dt threshold G 0 orders _ (ticking_init _ _ _ _ _ _ _ Hinit))
    as [T1 T2 T3 T4 T5].
  fold m in T1, T2, T3, T4, T5. simpl in T1.
  split; [done|]. split; [done|]. split; [by rewrite T2|].
  split; [done|]. split; [done|]. split; [done|].
  intros ->. simpl. rewrite T1. apply Qcmult_1_r.
Qed.

End Shelters.

(** The simulation [bend] through three ticks: its shelter, numbered 1 and
    empty at first, keeps its place and capacity. *)
Lemma bend_shelter_fills :
  let m0 := Scenario.bend in
  let m := Scenario.ticks Scenario.three_ticks m0 in
  evac_id <$> evac_agents m0 = seqZ 1 (Z.of_nat (length (evac_agents m0)))
  ∧ Forall (λ x, occupants x = 0) (evac_agents m0)
  ∧ Forall2 fills (evac_agents m0) (evac_agents m).
Proof.
  apply (@shelters_only_fill_up approx_math [Scenario.building Scenario.A1]
           [Scenario.shelter Scenario.C1] Scenario.bend_graph None 1%Qc (of_int 30)
           Scenario.bend Scenario.three_ticks).
  by_starting.
Defined.

(** In the same simulation the clock stands at 3 s after three ticks. *)
Lemma bend_clock_after_three_ticks :
  let m := Scenario.ticks Scenario.three_ticks Scenario.bend in
  sim_time m = (of_int (Z.of_nat (length Scenario.three_ticks)) * 1)%Qc
  ∧ hazard m
    = update (@Hazard.init approx_math None (Some coastal_sources) (Some (of_int 15)))
        (sim_time m)
  ∧ current_time (hazard m) = sim_time m
  ∧ step_time_seconds m = 1%Qc
  ∧ reroute_threshold_s m = of_int 30
  ∧ ROAD_GRAPH m = Scenario.bend_graph
  ∧ (1%Qc = 1%Qc →
     App.time (App.simulation_stats m) = of_int (Z.of_nat (length Scenario.three_ticks))).
Proof.
  apply (@clock_counts_the_ticks approx_math [Scenario.building Scenario.A1]
           [Scenario.shelter Scenario.C1] Scenario.bend_graph None 1%Qc (of_int 30)
           Scenario.bend Scenario.three_ticks).
  by_starting.
Defined.

(** *** The ids of the persons *)

Lemma spawn_building_numbered count population_limit lonlat st :
  numbered st → numbered (spawn_building count population_limit lonlat st).
Proof.
  revert st. induction count as [|count IH]; intros st Hst; simpl; [done|].
  destruct (limit_reached _ _); [done|]. apply IH.
  destruct Hst as [Hids Hgen]. unfold numbered. simpl.
  rewrite fmap_app, length_app, Hids. simpl.
  split; [|lia].
  replace (length (created st) + 1)%nat with (S (length (created st))) by lia.
  by rewrite seqZ_S, Hgen.
Qed.

Lemma spawn_rows_numbered rows population_limit d st st' :
  numbered st → spawn_rows rows population_limit d st = Ok st' → numbered st'.
Proof.
  apply spawn_rows_keeps. intros count lonlat st0. apply spawn_building_numbered.
Qed.

Section Ids.
Context `{FloatMath}.

Lemma run_ids orders m :
  unique_id <$> person_agents (run orders m) = unique_id <$> person_agents m.
Proof.
  revert m. induction orders as [|order orders IH]; intros m; [done|].
  simpl. by rewrite IH, model_step_ids.
Qed.

Lemma init_ids buildings_gdf evac_gdf G population_limit dt threshold m0 :
  Model.init buildings_gdf evac_gdf G population_limit dt threshold = Ok m0 →
  unique_id <$> person_agents m0
  = seqZ 1000 (Z.of_nat (capped population_limit (full_population buildings_gdf))).
Proof.
  intros Hinit. pose proof (init_count _ _ _ _ _ _ _ Hinit) as Hlen.
  destruct (init_returns _ _ _ _ _ _ _ Hinit) as (st & Hst & ->).
  change (person_agents (set_congestion ?m _)) with (person_agents m) in *.
  rewrite <-(length_fmap unique_id) in Hlen. rewrite populate_ids in *.
  assert (Hn : numbered (mkSpawn 0 1000 [])) by done.
  destruct (spawn_rows_numbered _ _ _ _ _ Hn Hst) as [Hids _].
  simpl in *. rewrite Hids. rewrite length_fmap in Hlen. by rewrite Hlen.
Qed.

End Ids.

(** *** The congestion layer *)

Lemma register_all_spec G cm k e :
  default_capacity cm = 8 →
  segment_data (register_all cm G) !! k = Some e →
  segment_data cm !! k = Some e
  ∨ (e = mkEntry 8 0
     ∧ ∃ (u v : Coord) (w : float), (u, v, w) ∈ GraphBuilder.edges G ∧ k = key u v).
Proof.
  destruct G as [ns es]. unfold register_all. simpl.
  revert cm. induction es as [|[[u v] w] es IH]; intros cm Hd; simpl; [by left|].
  intros Hl. apply IH in Hl.
  - destruct Hl as [Hl|(-> & u' & v' & w' & Hin & ->)].
    + unfold register_segment in Hl.
      destruct (segment_data cm !! key u v) eqn:Hk; [by left|]. simpl in Hl.
      destruct (decide (key u v = k)) as [<-|Hne].
      * rewrite lookup_insert_eq in Hl. injection Hl as <-. right.
        rewrite Hd. split; [done|]. exists u, v, w. split; [by left | done].
      * rewrite lookup_insert_ne in Hl by done. by left.
    + right. split; [done|]. exists u', v', w'. split; [by right | done].
  - unfold register_segment. by destruct (segment_data cm !! key u v).
Qed.

Lemma register_all_keeps G cm k :
  is_Some (segment_data cm !! k) → is_Some (segment_data (register_all cm G) !! k).
Proof.
  destruct G as [ns es]. unfold register_all. simpl.
  revert cm. induction es as [|[[u v] w] es IH]; intros cm Hk; simpl; [done|].
  apply IH. unfold register_segment.
  destruct (segment_data cm !! key u v) eqn:Hl; [done|]. simpl.
  destruct (decide (key u v = k)) as [<-|Hne].
  - by rewrite lookup_insert_eq.
  - by rewrite lookup_insert_ne.
Qed.

Lemma register_all_edges G cm (u v : Coord) (w : float) :
  (u, v, w) ∈ GraphBuilder.edges G →
  is_Some (segment_data (register_all cm G) !! key u v).
Proof.
  destruct G as [ns es]. unfold register_all. simpl.
  revert cm. induction es as [|[[u' v'] w'] es IH]; intros cm Hin;
    [by apply elem_of_nil in Hin|].
  apply elem_of_cons in Hin as [[= <- <- <-]|Hin]; simpl; [|by apply IH].
  apply (register_all_keeps (GraphBuilder.mkGraph ns es)). unfold register_segment.
  destruct (segment_data cm !! key u v) eqn:Hl; [by rewrite Hl|]. simpl.
  by rewrite lookup_insert_eq.
Qed.

Lemma register_all_fresh G k e :
  segment_data (register_all Congestion.init G) !! k = Some e →
  e = mkEntry 8 0
  ∧ ∃ (u v : Coord) (w : float), (u, v, w) ∈ GraphBuilder.edges G ∧ k = key u v.
Proof.
  intros [Hl|?]%register_all_spec; [|done|done].
  simpl in Hl. by rewrite lookup_empty in Hl.
Qed.

Lemma road_segments_register_all G : road_segments G (register_all Congestion.init G).
Proof.
  split.
  - intros k e (-> & Hk)%register_all_fresh. done.
  - intros u v w Hin. by eapply register_all_edges.
Qed.

Lemma road_segments_call G cm c : traffic c → road_segments G cm → road_segments G (call cm c).
Proof.
  intros Hc [Hall Hedges]. destruct c as [a b cap|a b|a b]; [done| |]; simpl.
  - unfold enter_segment. destruct (segment_data cm !! key a b) as [e0|] eqn:He0;
      [|done].
    destruct (Hall _ _ He0) as (Hcap & Hd & Hk).
    split; simpl.
    + intros k e. destruct (decide (key a b = k)) as [<-|Hne].
      * rewrite lookup_insert_eq. intros [= <-]. simpl. split; [done|]. split; [lia|done].
      * rewrite lookup_insert_ne by done. apply Hall.
    + intros u v w Hin. destruct (decide (key a b = key u v)) as [<-|Hne].
      * by rewrite lookup_insert_eq.
      * rewrite lookup_insert_ne by done. by eapply Hedges.
  - unfold leave_segment. destruct (segment_data cm !! key a b) as [e0|] eqn:He0;
      [|done].
    destruct (Hall _ _ He0) as (Hcap & Hd & Hk).
    split; simpl.
    + intros k e. destruct (decide (key a b = k)) as [<-|Hne].
      * rewrite lookup_insert_eq. intros [= <-]. simpl. split; [done|]. split; [lia|done].
      * rewrite lookup_insert_ne by done. apply Hall.
    + intros u v w Hin. destruct (decide (key a b = key u v)) as [<-|Hne].
      * by rewrite lookup_insert_eq.
      * rewrite lookup_insert_ne by done. by eapply Hedges.
Qed.

Lemma road_segments_calls G cs cm :
  Forall traffic cs → road_segments G cm → road_segments G (calls cs cm).
Proof.
  intros Hcs. revert cm. induction Hcs as [|c cs Hc _ IH]; intros cm Hcm; [done|].
  simpl. by apply IH, road_segments_call.
Qed.

Lemma on_roads_evolves G m m' : evolves m m' → on_roads G m → on_roads G m'.
Proof.
  intros [_ _ _ _ _ _ (cs & Hcs & Hc)] (cm & Hcm & Hr).
  exists (calls cs cm). split; [by rewrite Hc, Hcm|].
  exact (road_segments_calls G cs cm Hcs Hr).
Qed.

Lemma intensity_bounds (d : Z) :
  0 ≤ d → (0 ≤ App.intensity_of 8 d)%Qc ∧ (App.intensity_of 8 d ≤ 1)%Qc.
Proof.
  intros Hd. unfold App.intensity_of. rewrite bool_decide_true by lia.
  assert (H0 : (0 ≤ of_int d / of_int 8)%Qc).
  { unfold Qcdiv. rewrite <-(Qcmult_0_l (/ of_int 8)).
    apply Qcmult_le_compat_r.
    - unfold of_int. rewrite <-Z2Qc_inj_0. by apply (proj1 (Z2Qc_inj_le 0 d)).
    - by_evaluation. }
  unfold fmin. destruct (flt _ _) eqn:Hlt.
  - apply flt_spec in Hlt. split; [done | by apply Qclt_le_weak].
  - split; [by_evaluation | apply Qcle_refl].
Qed.

Section Layer.
Context `{FloatMath}.

Lemma on_roads_init buildings_gdf evac_gdf G population_limit dt threshold m0 :
  Model.init buildings_gdf evac_gdf G population_limit dt threshold = Ok m0 →
  on_roads G m0.
Proof.
  intros (st & _ & ->)%init_returns.
  eexists. split; [done|]. apply road_segments_register_all.
Qed.

Lemma on_roads_run G orders m : on_roads G m → on_roads G (run orders m).
Proof.
  revert m. induction orders as [|order orders IH]; intros m Hm; [done|].
  simpl. apply IH. apply (on_roads_evolves G (advance_clock m)).
  - apply evolves_model_step.
  - destruct Hm as (cm & Hcm & Hr). by exists cm.
Qed.

(** X22.  The congestion layer of the application.  When the model has
    just been built every feature has the density 0, although persons have
    been put on their routes.  After any number of ticks there is exactly one
    feature for each segment of the road graph, each of capacity 8, with a
    density that is not negative and an intensity between 0 and 1. *)
Theorem congestion_layer_is_well_formed
    (buildings_gdf : list BuildingRow) (evac_gdf : list EvacRow)
    (G : GraphBuilder.Graph) (population_limit : option Z) (dt threshold : float)
    (m0 : EvacuationModel) (orders : list (list Z)) :
  Model.init buildings_gdf evac_gdf G population_limit dt threshold = Ok m0 →
  let layer := App.congestion_geojson (run orders m0) in
  Forall (λ f, App.feature_density f = 0) (App.congestion_geojson m0)
  ∧ Forall (λ f, App.feature_capacity f = 8
                 ∧ 0 ≤ App.feature_density f
                 ∧ (0 ≤ App.intensity f)%Qc ∧ (App.intensity f ≤ 1)%Qc
                 ∧ ∃ (u v : Coord) (w : float),
                     (u, v, w) ∈ GraphBuilder.edges G
                     ∧ App.coordinates f = key u v) layer
  ∧ NoDup (App.coordinates <$> layer)
  ∧ (∀ (u v : Coord) (w : float),
       (u, v, w) ∈ GraphBuilder.edges G → key u v ∈ App.coordinates <$> layer).
Proof.
  intros Hinit layer. split; [|split; [|split]].
  - destruct (init_returns _ _ _ _ _ _ _ Hinit) as (st & _ & ->).
    unfold App.congestion_geojson. simpl.
    apply Forall_fmap, Forall_forall. intros [k e] Hin%elem_of_map_to_list. simpl.
    apply register_all_fresh in Hin as [-> _]. done.
  - subst layer. destruct (on_roads_run G orders m0) as (cm & Hcm & Hall & _);
      [by eapply on_roads_init|].
    unfold App.congestion_geojson. rewrite Hcm.
    apply Forall_fmap, Forall_forall. intros [k e] Hin%elem_of_map_to_list. simpl.
    destruct (Hall _ _ Hin) as (Hcap & Hd & u & v & w & Hedge & ->).
    rewrite Hcap. destruct (intensity_bounds _ Hd) as [H0 H1].
    repeat split; try done. by exists u, v, w.
  - subst layer. unfold App.congestion_geojson.
    destruct (congestion (run orders m0)) as [cm|]; [|constructor].
    rewrite <-list_fmap_compose.
    rewrite (list_fmap_ext _ fst (map_to_list (segment_data cm)));
      [apply NoDup_fst_map_to_list | by intros i [k e]].
  - intros u v w Hin. subst layer.
    destruct (on_roads_run G orders m0) as (cm & Hcm & _ & Hedges);
      [by eapply on_roads_init|].
    unfold App.congestion_geojson. rewrite Hcm.
    destruct (Hedges u v w Hin) as [e He].
    apply list_elem_of_fmap. eexists. split; [|apply list_elem_of_fmap].
    2: { exists (key u v, e). split; [done|]. by apply elem_of_map_to_list. }
    done.
Qed.

End Layer.

(** The congestion layer of [bend], at the start and after three ticks. *)
Lemma bend_layer_is_well_formed :
  let layer := App.congestion_geojson (Scenario.ticks Scenario.three_ticks Scenario.bend) in
  Forall (λ f, App.feature_density f = 0) (App.congestion_geojson Scenario.bend)
  ∧ Forall (λ f, App.feature_capacity f = 8
                 ∧ 0 ≤ App.feature_density f
                 ∧ (0 ≤ App.intensity f)%Qc ∧ (App.intensity f ≤ 1)%Qc
                 ∧ ∃ (u v : Coord) (w : float),
                     (u, v, w) ∈ GraphBuilder.edges Scenario.bend_graph
                     ∧ App.coordinates f = key u v) layer
  ∧ NoDup (App.coordinates <$> layer)
  ∧ (∀ (u v : Coord) (w : float),
       (u, v, w) ∈ GraphBuilder.edges Scenario.bend_graph →
       key u v ∈ App.coordinates <$> layer).
Proof.
  apply (@congestion_layer_is_well_formed approx_math [Scenario.building Scenario.A1]
           [Scenario.shelter Scenario.C1] Scenario.bend_graph None 1%Qc (of_int 30)
           Scenario.bend Scenario.three_ticks).
  by_starting.
Defined.

(** *** One person through one step *)

Ltac keeps_by_fields :=
  unfold keeps; simpl;
  repeat match goal with |- _ ∧ _ => split end;
  first [done | by left | right; lia].

Lemma keeps_refl p : keeps p p.
Proof. keeps_by_fields. Qed.

Lemma keeps_trans p q r : keeps p q → keeps q r → keeps p r.
Proof.
  unfold keeps. intros (? & ? & ? & Hr & ? & Hi) (? & ? & ? & Hr' & ? & Hi').
  rewrite Hr in Hi'. repeat split; try congruence. lia.
Qed.

Lemma outcome_refl p : outcome p p.
Proof. left. done. Qed.

Lemma outcome_trans p q r : outcome p q → outcome q r → outcome p r.
Proof.
  unfold outcome.
  intros [[? ?]|[[? ?]|[[? ?]|(? & ? & ?)]]] [[? ?]|[[? ?]|[[? ?]|(? & ? & ?)]]];
    try (left; split; congruence);
    try (right; left; split; congruence);
    try (right; right; left; split; congruence);
    try (right; right; right; repeat split; congruence);
    congruence.
Qed.

Lemma arrive_keeps m p : keeps p (_arrive m p).2.
Proof.
  unfold _arrive. simpl.
  destruct (evac_center_id p) as [i|]; [|keeps_by_fields].
  destruct (get_evac_agent_by_id _ i); keeps_by_fields.
Qed.

Lemma arrive_outcome m p : outcome p (_arrive m p).2.
Proof.
  right. left. unfold _arrive. simpl. destruct (evac_center_id p) as [i|]; [|done].
  by destruct (get_evac_agent_by_id _ i).
Qed.

Lemma roll_over_keeps n m p : keeps p (roll_over n m p).2.
Proof.
  revert m p. induction n as [|n IH]; intros m p; simpl; [apply keeps_refl|].
  destruct (fle _ _ && negb (at_last_node p)) eqn:Hc; [|apply keeps_refl].
  apply andb_true_iff in Hc as [_ Hlast].
  apply negb_true_iff, bool_decide_eq_false in Hlast.
  eapply keeps_trans; [|apply IH]. keeps_by_fields.
Qed.

Lemma roll_over_outcome n m p : outcome p (roll_over n m p).2.
Proof.
  revert m p. induction n as [|n IH]; intros m p; simpl; [apply outcome_refl|].
  destruct (_ && _); [|apply outcome_refl].
  eapply outcome_trans; [|apply IH]. by left.
Qed.

Section PersonSteps.
Context `{FloatMath}.

Lemma hazard_check_keeps m p : keeps p (hazard_check m p).2.
Proof.
  unfold hazard_check. destruct (get_time_to_inundation _ _); [|apply keeps_refl].
  destruct (nan_le _ _); [|apply keeps_refl].
  keeps_by_fields.
Qed.

Lemma hazard_check_outcome m p : outcome p (hazard_check m p).2.
Proof.
  unfold hazard_check. destruct (get_time_to_inundation _ _); [|apply outcome_refl].
  destruct (nan_le _ _); [|apply outcome_refl]. right. right. left. done.
Qed.

Lemma move_keeps m p a b seg_len : keeps p (move m p a b seg_len).2.
Proof.
  unfold move.
  match goal with |- context [roll_over ?n ?m ?q] =>
    pose proof (roll_over_keeps n m q) as Hr; destruct (roll_over n m q) as [m1 p1] end.
  simpl in Hr.
  assert (Hk : keeps p (set_pos p1
                 (interpolate a b (fmax 0%Qc (fmin 1%Qc (_segment_progress p1)))))).
  { exact Hr. }
  destruct (at_last_node _); [|done].
  destruct (last _); [|done].
  destruct (flt _ _); [|done].
  eapply keeps_trans; [exact Hk | apply arrive_keeps].
Qed.

Lemma move_outcome m p a b seg_len : outcome p (move m p a b seg_len).2.
Proof.
  unfold move.
  match goal with |- context [roll_over ?n ?m ?q] =>
    pose proof (roll_over_outcome n m q) as Hr; destruct (roll_over n m q) as [m1 p1] end.
  simpl in Hr.
  assert (Hk : outcome p (set_pos p1
                 (interpolate a b (fmax 0%Qc (fmin 1%Qc (_segment_progress p1)))))).
  { exact Hr. }
  destruct (at_last_node _); [|done].
  destruct (last _); [|done].
  destruct (flt _ _); [|done].
  eapply outcome_trans; [exact Hk | apply arrive_outcome].
Qed.

Lemma agent_step_keeps m p : keeps p (Agents.step m p).2.
Proof.
  unfold Agents.step.
  destruct (negb _); [apply keeps_refl|].
  destruct (at_last_node p) eqn:Hlast; [apply arrive_keeps|].
  destruct (_current_segment p) as [[a b]|]; [|keeps_by_fields].
  case_bool_decide.
  { apply bool_decide_eq_false in Hlast. unfold hop. keeps_by_fields. }
  pose proof (move_keeps m p a b (_segment_length_m a b)) as Hmv.
  destruct (move m p a b _) as [m1 p1].
  eapply keeps_trans; [exact Hmv | apply hazard_check_keeps].
Qed.

Lemma agent_step_outcome m p : outcome p (Agents.step m p).2.
Proof.
  unfold Agents.step.
  case_bool_decide as Hs; simpl; [|apply outcome_refl].
  destruct (at_last_node p) eqn:Hlast; [apply arrive_outcome|].
  destruct (_current_segment p) as [[a b]|].
  2: { right. right. right. done. }
  case_bool_decide.
  { left. done. }
  pose proof (move_outcome m p a b (_segment_length_m a b)) as Hmv.
  destruct (move m p a b _) as [m1 p1].
  eapply outcome_trans; [exact Hmv | apply hazard_check_outcome].
Qed.

(** X23.  A step of a person changes neither the id, the home, the speed,
    the route nor the target shelter; the cursor stays or moves forward, and
    never past the last node of the route; a person who is evacuating after
    the step was evacuating before it, and the step does nothing at all for a
    person who is not evacuating. *)
Theorem step_keeps_the_plan (m : EvacuationModel) (p : PersonAgent) :
  let p' := (Agents.step m p).2 in
  unique_id p' = unique_id p ∧ home p' = home p ∧ speed p' = speed p
  ∧ route p' = route p ∧ evac_center_id p' = evac_center_id p
  ∧ (_route_idx p' = _route_idx p
     ∨ (_route_idx p < _route_idx p' < length (route p))%nat)
  ∧ (state p' = evacuating → state p = evacuating)
  ∧ (state p ≠ evacuating → (Agents.step m p) = (m, p)).
Proof.
  intros p'. subst p'.
  destruct (agent_step_keeps m p) as (? & ? & ? & ? & ? & ?).
  repeat split; try done.
  - intros Hs. destruct (agent_step_outcome m p) as [[? ?]|[[? ?]|[[? ?]|(? & ? & ?)]]];
      congruence.
  - apply step_not_evacuating.
Qed.

End PersonSteps.

(** *** Every person, over the whole simulation *)

Lemma static_ids m : (static m).*1 = evac_id <$> evac_agents m.
Proof. unfold static. rewrite <-list_fmap_compose. done. Qed.

Lemma Forall2_fills_static l l' :
  Forall2 fills l l' →
  (λ e, (evac_id e, loc e)) <$> l' = (λ e, (evac_id e, loc e)) <$> l.
Proof.
  induction 1 as [|x y l l' (Hid & Hloc & _) _ IH]; [done|].
  rewrite !fmap_cons. by rewrite Hid, Hloc, IH.
Qed.

Lemma world_evolves G E m m' : evolves m m' → world G E m → world G E m'.
Proof.
  intros [_ _ _ _ Hg Hs _] (HG & HE & Hn).
  split; [congruence|]. split; [|done].
  rewrite <-HE. unfold static. apply Forall2_fills_static, Hs.
  by rewrite <-static_ids, HE.
Qed.

Lemma world_put_person G E m p : world G E m → world G E (put_person m p).
Proof. done. Qed.

Lemma sound_keeps_outcome G E p p' :
  sound G E p → keeps p p' → outcome p p' → sound G E p'.
Proof.
  intros [Hc Hf Hs Hr] (_ & _ & Hspeed & Hroute & Hid & Hidx) Ho.
  split.
  - rewrite Hroute. destruct Hc as [?|?]; [by left|]. right. lia.
  - destruct Ho as [[-> ->]|[[-> ->]|[[-> ->]|(-> & -> & He)]]]; try done.
    split; [|done]. intros Ht. apply Hf in Ht. congruence.
  - congruence.
  - intros He.
    assert (He' : state p = evacuating).
    { destruct Ho as [[? ?]|[[? ?]|[[? ?]|(? & ? & ?)]]]; congruence. }
    rewrite Hroute, Hid. by apply Hr.
Qed.

Lemma sound_agent_step `{FloatMath} G E m p :
  sound G E p → sound G E (Agents.step m p).2.
Proof.
  intros Hp. eapply sound_keeps_outcome;
    [exact Hp | apply agent_step_keeps | apply agent_step_outcome].
Qed.

(** A route of two nodes or more is a walk between the snapped ends. *)
Lemma route_or_empty_walk m a b :
  (2 ≤ length (route_or_empty m a b))%nat →
  ∃ s t, Routing.nearest_node (ROAD_GRAPH m) a = Some s
       ∧ Routing.nearest_node (ROAD_GRAPH m) b = Some t
       ∧ Nx.walk_from (ROAD_GRAPH m) s t (route_or_empty m a b).
Proof.
  unfold route_or_empty, Routing.compute_shortest_route.
  destruct (Routing.nearest_node (ROAD_GRAPH m) a) as [s|]; [|simpl; lia].
  destruct (Routing.nearest_node (ROAD_GRAPH m) b) as [t|]; [|simpl; lia].
  destruct (Nx.shortest_path (ROAD_GRAPH m) s t) as [r|e] eqn:Hsp; [|simpl; lia].
  simpl. intros _. exists s, t. split; [done|]. split; [done|].
  by apply RoutingFacts.shortest_path_sound.
Qed.

Lemma sound_assign_route G E m p start target :
  world G E m → sound G E p → state p ≠ safe → target ∈ evac_agents m →
  (2 ≤ length (route_or_empty m start (loc target)))%nat →
  let p' := (assign_route m p (route_or_empty m start (loc target)) (evac_id target)).2 in
  sound G E p' ∧ state p' = evacuating.
Proof.
  intros (HG & HE & _) [Hc Hf Hs Hr] Hsafe Hin Hlen.
  destruct (route_or_empty_walk m start (loc target) Hlen) as (s & t & _ & Ht & Hw).
  unfold assign_route. rewrite bool_decide_false by lia.
  set (r := route_or_empty m start (loc target)) in *.
  assert (Hp' : sound G E
            (set_state (set_cursor (set_route p r (Some (evac_id target))) 0 0%Qc)
               evacuating)).
  { split; simpl.
    - right. lia.
    - split; [|done]. intros Ht'. apply Hf in Ht'. congruence.
    - done.
    - intros _. split; [done|]. exists (evac_id target), (loc target), s, t.
      split; [done|]. split.
      + rewrite <-HE. unfold static. apply list_elem_of_fmap. by exists target.
      + rewrite <-HG. done. }
  simpl. destruct (r !! 0%nat), (r !! 1%nat); simpl; by split.
Qed.

Lemma insert_by_elem {A} (key : A → float) (x y : A) l :
  y ∈ insert_by key x l ↔ y = x ∨ y ∈ l.
Proof.
  induction l as [|z l IH]; simpl.
  - rewrite list_elem_of_singleton. split; [by left | intros [?|?%elem_of_nil]; done].
  - destruct (flt _ _); rewrite !elem_of_cons; [rewrite IH|]; tauto.
Qed.

Lemma sorted_by_elem {A} (key : A → float) (y : A) l : y ∈ sorted_by key l ↔ y ∈ l.
Proof.
  unfold sorted_by. induction l as [|x l IH]; simpl; [done|].
  rewrite insert_by_elem, IH, elem_of_cons. done.
Qed.

Lemma recompute_target m p t :
  (match
     match truthy_id (evac_center_id p) ≫= get_evac_agent_by_id m with
     | Some t => if can_accept t then Some t else None
     | None => None
     end
   with
   | Some t => Some t
   | None =>
       find can_accept
         (sorted_by
            (λ e : EvacCenterAgent,
               (((loc e).1 - (pos p).1) * ((loc e).1 - (pos p).1)
                + ((loc e).2 - (pos p).2) * ((loc e).2 - (pos p).2))%Qc)
            (evac_agents m))
   end) = Some t →
  t ∈ evac_agents m ∧ can_accept t = true.
Proof.
  destruct (truthy_id (evac_center_id p) ≫= get_evac_agent_by_id m) as [c|] eqn:Hc.
  - destruct (can_accept c) eqn:Ha.
    + intros [= <-]. split; [|done].
      destruct (truthy_id (evac_center_id p)) as [i|]; [|done]. simpl in Hc.
      by eapply get_evac_agent_elem.
    + intros [Hin Ht]%find_some. split; [|done].
      by apply list_elem_of_In, sorted_by_elem in Hin.
  - intros [Hin Ht]%find_some. split; [|done].
    by apply list_elem_of_In, sorted_by_elem in Hin.
Qed.

Lemma sound_reroute G E m p :
  world G E m → sound G E p → state p = evacuating →
  sound G E (reroute m p).2 ∧ state (reroute m p).2 = evacuating.
Proof.
  intros Hw Hp Hs. unfold reroute, recompute_route_for_person.
  destruct (route p); [done|].
  match goal with |- context [match ?t with Some _ => _ | None => (m, p, false) end] =>
    destruct t as [target|] eqn:Ht end; [|done].
  apply recompute_target in Ht as [Hin _].
  case_bool_decide as Hlen; [|done]. simpl.
  apply sound_assign_route; try done. congruence.
Qed.

Lemma sound_leave_current G E m p : sound G E p → sound G E (cleanup m p).2.
Proof. unfold cleanup. by destruct (terminal _). Qed.

Lemma sound_become_overtaken G E m p : sound G E p → sound G E (_become_overtaken m p).2.
Proof.
  intros [Hc Hf Hs Hr]. split; simpl; try done.
Qed.

Lemma sound_post_step `{FloatMath} G E m p :
  world G E m → sound G E p → sound G E (post_step m p).2.
Proof.
  intros Hw Hp. unfold post_step.
  case_bool_decide as Hs; [|by apply sound_leave_current].
  destruct (match get_time_to_inundation _ _ with Some a => _ | None => false end);
    [by apply sound_become_overtaken|].
  set (r1 := match get_time_to_inundation _ _ with Some a => _ | None => (m, p) end).
  assert (H1 : world G E r1.1 ∧ sound G E r1.2 ∧ state r1.2 = evacuating).
  { subst r1. destruct (get_time_to_inundation _ _); [|done].
    destruct (nan_le _ _); [|done].
    split; [eapply world_evolves; [apply evolves_reroute | done]|].
    by apply sound_reroute. }
  destruct r1 as [m1 p1]. simpl in H1. destruct H1 as (Hw1 & Hp1 & Hs1).
  set (r2 := match evac_center_id p1 ≫= get_evac_agent_by_id m1 with
             | Some e => _ | None => (m1, p1) end).
  assert (H2 : sound G E r2.2).
  { subst r2. destruct (_ ≫= _); [|done].
    destruct (negb _); [|done]. by apply sound_reroute. }
  destruct r2 as [m2 p2]. simpl in H2. by apply sound_leave_current.
Qed.

Lemma for_each_person_inv (I : EvacuationModel → Prop) (Q : PersonAgent → Prop)
    body uids m :
  (∀ m p, same_people (m, p) (body m p)) →
  (∀ m p, I m → Q p → I (body m p).1 ∧ Q (body m p).2) →
  (∀ m p, I m → I (put_person m p)) →
  I m → Forall Q (person_agents m) →
  I (for_each_person body uids m)
  ∧ Forall Q (person_agents (for_each_person body uids m)).
Proof.
  intros Hsame Hbody Hput. revert m. unfold for_each_person.
  induction uids as [|uid uids IH]; intros m Hm HQ; [done|].
  simpl. destruct (get_person m uid) as [p|] eqn:Hget; [|by apply IH].
  assert (Hp : Q p).
  { unfold get_person in Hget. apply find_some in Hget as [Hin _].
    rewrite Forall_forall in HQ. by apply HQ, list_elem_of_In. }
  destruct (Hsame m p) as [Hpa _]. destruct (Hbody m p Hm Hp) as [Hm' Hp'].
  destruct (body m p) as [m' p']. simpl in *.
  apply IH; [by apply Hput|].
  unfold put_person. simpl. rewrite Hpa.
  apply Forall_fmap. eapply Forall_impl; [exact HQ|].
  intros x Hx. simpl. by case_bool_decide.
Qed.

Section Sound.
Context `{FloatMath}.

Lemma sound_model_step G E order m :
  world G E m → Forall (sound G E) (person_agents m) →
  world G E (Model.step order m) ∧ Forall (sound G E) (person_agents (Model.step order m)).
Proof.
  intros Hw Hp. unfold Model.step, schedule_step. cbv zeta.
  assert (H1 : world G E (for_each_person Agents.step order (advance_clock m))
               ∧ Forall (sound G E)
                   (person_agents (for_each_person Agents.step order (advance_clock m)))).
  { apply for_each_person_inv; try done.
    - apply agent_step_same.
    - intros m' p' Hw' Hp'. split; [|by apply sound_agent_step].
      eapply world_evolves; [apply evolves_agent_step | done]. }
  destruct H1 as [Hw1 Hp1].
  apply for_each_person_inv; try done.
  - apply post_step_same.
  - intros m' p' Hw' Hp'. split; [|by apply sound_post_step].
    eapply world_evolves; [apply evolves_post_step | done].
Qed.

Lemma sound_run G E orders m :
  world G E m → Forall (sound G E) (person_agents m) →
  world G E (run orders m) ∧ Forall (sound G E) (person_agents (run orders m)).
Proof.
  revert m. induction orders as [|order orders IH]; intros m Hw Hp; [done|].
  simpl. destruct (sound_model_step G E order m Hw Hp). by apply IH.
Qed.

End Sound.

(** *** From the constructor on *)

Lemma sound_assign_initial_route G E m p :
  world G E m → sound G E p → state p ≠ safe →
  sound G E (assign_initial_route m p).2 ∧ state (assign_initial_route m p).2 ≠ safe.
Proof.
  intros Hw Hp Hs. unfold assign_initial_route.
  destruct (_find_nearest_evac_center m (home p)) as [i|]; [|done]. simpl.
  destruct (get_evac_agent_by_id m i) as [e|] eqn:Hget; [|done].
  apply get_evac_agent_elem in Hget.
  case_bool_decide as Hlen.
  - destruct (sound_assign_route G E m p (home p) e Hw Hp Hs Hget Hlen) as [Hp' Hs'].
    split; [done|]. by rewrite Hs'.
  - simpl. split; [|done]. destruct Hp as [Hc Hf Hv Hr]. split; simpl; try done.
    split; [|done]. intros Ht. apply Hf in Ht. congruence.
Qed.

Section FromInit.
Context `{FloatMath}.

Lemma spawn_building_sound G E count population_limit lonlat st :
  Forall (λ p, sound G E p ∧ state p ≠ safe) (created st) →
  Forall (λ p, sound G E p ∧ state p ≠ safe)
    (created (spawn_building count population_limit lonlat st)).
Proof.
  revert st. induction count as [|count IH]; intros st Hst; simpl; [done|].
  destruct (limit_reached _ _); [done|]. apply IH. simpl.
  apply Forall_app. split; [done|]. constructor; [|constructor].
  split; [|done]. split; simpl; try done. by left.
Qed.

Lemma spawn_rows_sound G E rows population_limit d st st' :
  Forall (λ p, sound G E p ∧ state p ≠ safe) (created st) →
  spawn_rows rows population_limit d st = Ok st' →
  Forall (λ p, sound G E p ∧ state p ≠ safe) (created st').
Proof.
  apply (spawn_rows_keeps (λ st, Forall (λ p, sound G E p ∧ state p ≠ safe) (created st))).
  intros count lonlat st0. apply spawn_building_sound.
Qed.

(** The persons of a model that the constructor returns: those created,
    after the loop that gives them their routes. *)
Lemma init_persons buildings_gdf evac_gdf G population_limit dt threshold m0 :
  Model.init buildings_gdf evac_gdf G population_limit dt threshold = Ok m0 →
  ∃ st, spawn_rows buildings_gdf population_limit 1 (mkSpawn 0 1000 []) = Ok st
    ∧ person_agents m0
      = person_agents
          (for_each_person assign_initial_route (unique_id <$> created st)
             (set_person_agents (unpopulated evac_gdf G dt threshold) (created st))).
Proof. intros (st & Hst & ->)%init_returns. by exists st. Qed.

Lemma sound_init buildings_gdf evac_gdf G population_limit dt threshold m0 :
  Model.init buildings_gdf evac_gdf G population_limit dt threshold = Ok m0 →
  world G (static m0) m0 ∧ Forall (sound G (static m0)) (person_agents m0).
Proof.
  intros Hinit.
  assert (Hst : static m0 = (λ e, (evac_id e, loc e)) <$> _spawn_evac_centers evac_gdf 1).
  { unfold static. by rewrite (init_evac_agents _ _ _ _ _ _ _ Hinit). }
  set (E := static m0) in *.
  assert (Hn : NoDup E.*1).
  { rewrite Hst, <-list_fmap_compose.
    change (NoDup (evac_id <$> _spawn_evac_centers evac_gdf 1)).
    rewrite spawn_evac_centers_ids. apply NoDup_seqZ. }
  split.
  { split; [|done].
    apply (ticking_graph dt threshold G 0 m0). by eapply ticking_init. }
  destruct (init_persons _ _ _ _ _ _ _ Hinit) as (st & Hs & ->).
  match goal with |- Forall _ (person_agents (for_each_person ?b ?u ?m1)) =>
    destruct (for_each_person_inv (world G E) (λ p, sound G E p ∧ state p ≠ safe) b u m1)
      as [_ Hall] end.
  - apply assign_initial_route_same.
  - intros m' p' Hw' [Hp' Hs']. split.
    + eapply world_evolves; [apply evolves_assign_initial_route | done].
    + by apply sound_assign_initial_route.
  - done.
  - split; [done|]. split; [by rewrite Hst | done].
  - simpl. refine (spawn_rows_sound G E _ _ _ _ _ _ Hs). constructor.
  - eapply Forall_impl; [exact Hall|]. by intros p [? _].
Qed.

Lemma static_elem m i where_ :
  (i, where_) ∈ static m → ∃ e, e ∈ evac_agents m ∧ evac_id e = i ∧ loc e = where_.
Proof.
  unfold static. intros (e & [= -> ->] & Hin)%list_elem_of_fmap. by exists e.
Qed.

(** X24.  At every moment of a simulation, every person walks at 1.4 m/s
    and has a cursor inside the route (or no route); and every evacuating
    person has a target that is a shelter of the model and a route of two
    nodes or more that is a walk of the road graph: consecutive nodes are
    joined by an edge, and the last node is the node nearest to the target
    shelter. *)
Theorem evacuating_persons_walk_the_graph
    (buildings_gdf : list BuildingRow) (evac_gdf : list EvacRow)
    (G : GraphBuilder.Graph) (population_limit : option Z) (dt threshold : float)
    (m0 : EvacuationModel) (orders : list (list Z)) :
  Model.init buildings_gdf evac_gdf G population_limit dt threshold = Ok m0 →
  let m := run orders m0 in
  Forall (λ p,
    speed p = ratio 14 10
    ∧ (route p = [] ∨ (_route_idx p < length (route p))%nat)
    ∧ (state p = evacuating →
       (2 ≤ length (route p))%nat
       ∧ ∃ e s t,
           e ∈ evac_agents m ∧ evac_center_id p = Some (evac_id e)
           ∧ Routing.nearest_node G (loc e) = Some t
           ∧ head (route p) = Some s ∧ last (route p) = Some t
           ∧ ∀ i u v, route p !! i = Some u → route p !! S i = Some v →
               Nx.adjacent G u v)) (person_agents m).
Proof.
  intros Hinit m.
  destruct (sound_init _ _ _ _ _ _ _ Hinit) as [Hw0 Hp0].
  destruct (sound_run G _ orders _ Hw0 Hp0) as [(_ & HE & _) Hp]. fold m in HE, Hp.
  eapply Forall_impl; [exact Hp|].
  intros p [Hc Hf Hs Hr]. split; [done|]. split; [done|].
  intros He. destruct (Hr He) as (Hlen & i & where_ & s & t & Hid & Hin & Ht & Hwalk).
  split; [done|]. rewrite <-HE in Hin.
  destruct (static_elem _ _ _ Hin) as (e & He' & <- & <-).
  exists e, s, t. split; [done|]. split; [done|]. split; [done|].
  by apply walk_from_shape.
Qed.

(** Counting persons by state. *)
Lemma filter_length_iff {A} (P Q : A → Prop) `{∀ x, Decision (P x)} `{∀ x, Decision (Q x)}
    (l : list A) :
  Forall (λ x, P x ↔ Q x) l → length (filter P l) = length (filter Q l).
Proof.
  induction 1 as [|x l Hx _ IH]; [done|].
  rewrite !filter_cons. destruct (decide (P x)), (decide (Q x)); simpl; tauto || lia.
Qed.

Lemma count_states (l : list PersonAgent) :
  (length (filter (λ p, state p = safe) l) + length (filter (λ p, state p = stuck) l)
   + length (filter (λ p, state p = overtaken) l) ≤ length l)%nat.
Proof.
  induction l as [|p l IH]; [done|].
  rewrite !filter_cons.
  destruct (decide (state p = safe)) as [Hs|?],
           (decide (state p = stuck)) as [Ht|?],
           (decide (state p = overtaken)) as [Ho|?]; simpl; try lia; congruence.
Qed.

(** X25.  At every moment of a simulation a person has reached a shelter
    exactly when its state is safe, so the data collector (which counts
    [reached]) and the statistics of the application (which count the state)
    report the same number of safe persons; the numbers of overtaken persons
    and of persons agree as well, and safe, stuck and overtaken persons
    together are no more than the population. *)
Theorem safe_counts_agree
    (buildings_gdf : list BuildingRow) (evac_gdf : list EvacRow)
    (G : GraphBuilder.Graph) (population_limit : option Z) (dt threshold : float)
    (m0 : EvacuationModel) (orders : list (list Z)) :
  Model.init buildings_gdf evac_gdf G population_limit dt threshold = Ok m0 →
  let m := run orders m0 in
  let stats := App.simulation_stats m in
  Forall (λ p, reached p = true ↔ state p = safe) (person_agents m)
  ∧ Model.num_safe m = App.num_safe stats
  ∧ Model.num_overtaken m = App.num_overtaken stats
  ∧ Model.num_agents m = App.stats_population stats
  ∧ (App.num_safe stats + App.num_stuck stats + App.num_overtaken stats
     ≤ App.stats_population stats)%nat.
Proof.
  intros Hinit m stats.
  destruct (sound_init _ _ _ _ _ _ _ Hinit) as [Hw0 Hp0].
  destruct (sound_run G _ orders _ Hw0 Hp0) as [_ Hp]. fold m in Hp.
  assert (Hflag : Forall (λ p, reached p = true ↔ state p = safe) (person_agents m)).
  { eapply Forall_impl; [exact Hp|]. by intros p [_ Hf _ _]. }
  split; [done|]. split; [|split; [done|split; [done|]]].
  - unfold Model.num_safe. subst stats. simpl. unfold App.count_state.
    by apply filter_length_iff.
  - subst stats. simpl. unfold App.count_state. apply count_states.
Qed.

End FromInit.

(** The person of [bend] after one tick: on the way, along the road. *)
Lemma bend_person_walks_the_graph :
  let m := Scenario.ticks [[1000]] Scenario.bend in
  Forall (λ p,
    speed p = ratio 14 10
    ∧ (route p = [] ∨ (_route_idx p < length (route p))%nat)
    ∧ (state p = evacuating →
       (2 ≤ length (route p))%nat
       ∧ ∃ e s t,
           e ∈ evac_agents m ∧ evac_center_id p = Some (evac_id e)
           ∧ Routing.nearest_node Scenario.bend_graph (loc e) = Some t
           ∧ head (route p) = Some s ∧ last (route p) = Some t
           ∧ ∀ i u v, route p !! i = Some u → route p !! S i = Some v →
               Nx.adjacent Scenario.bend_graph u v)) (person_agents m).
Proof.
  apply (@evacuating_persons_walk_the_graph approx_math [Scenario.building Scenario.A1]
           [Scenario.shelter Scenario.C1] Scenario.bend_graph None 1%Qc (of_int 30)
           Scenario.bend [[1000]]).
  by_starting.
Defined.

(** The counts of [bend] after three ticks, when its person is safe. *)
Lemma bend_counts_agree :
  let m := Scenario.ticks Scenario.three_ticks Scenario.bend in
  let stats := App.simulation_stats m in
  Forall (λ p, reached p = true ↔ state p = safe) (person_agents m)
  ∧ Model.num_safe m = App.num_safe stats
  ∧ Model.num_overtaken m = App.num_overtaken stats
  ∧ Model.num_agents m = App.stats_population stats
  ∧ (App.num_safe stats + App.num_stuck stats + App.num_overtaken stats
     ≤ App.stats_population stats)%nat.
Proof.
  apply (@safe_counts_agree approx_math [Scenario.building Scenario.A1]
           [Scenario.shelter Scenario.C1] Scenario.bend_graph None 1%Qc (of_int 30)
           Scenario.bend Scenario.three_ticks).
  by_starting.
Defined.

(** *** Nobody moves *)

Lemma at_home_step `{FloatMath} m p : at_home p → Agents.step m p = (m, p).
Proof.
  intros (_ & _ & _ & Hs). apply step_not_evacuating.
  destruct Hs as [-> | ->]; done.
Qed.

Lemma at_home_post_step `{FloatMath} m p : at_home p → (post_step m p).2 = p.
Proof.
  intros (_ & _ & _ & Hs). unfold post_step, cleanup.
  rewrite bool_decide_false by (destruct Hs as [-> | ->]; done).
  by destruct (terminal _).
Qed.

Lemma route_or_empty_no_road m a b :
  GraphBuilder.nodes (ROAD_GRAPH m) = [] → route_or_empty m a b = [].
Proof.
  intros Hn. unfold route_or_empty, Routing.compute_shortest_route.
  by rewrite !RoutingFacts.nearest_node_empty.
Qed.

Lemma at_home_assign_initial_route G E m p :
  E = [] ∨ GraphBuilder.nodes G = [] →
  world G E m →
  at_home p ∧ (E = [] → state p = idle) →
  at_home (assign_initial_route m p).2
  ∧ (E = [] → state (assign_initial_route m p).2 = idle).
Proof.
  intros Hno (HG & HE & _) [Hp Hidle]. unfold assign_initial_route.
  destruct (_find_nearest_evac_center m (home p)) as [i|] eqn:Hfind; [|done]. simpl.
  destruct (get_evac_agent_by_id m i) as [e|] eqn:Hget; [|done].
  assert (HE' : E ≠ []).
  { intros ->. apply get_evac_agent_elem in Hget. unfold static in HE.
    apply fmap_nil_inv in HE. rewrite HE in Hget. by apply elem_of_nil in Hget. }
  destruct Hno as [?|Hn]; [done|].
  rewrite route_or_empty_no_road by by rewrite HG.
  simpl. split; [|done]. destruct Hp as (? & ? & ? & _).
  repeat split; try done. by right.
Qed.

Lemma spawn_building_at_home count population_limit lonlat st :
  Forall (λ p, at_home p ∧ state p = idle) (created st) →
  Forall (λ p, at_home p ∧ state p = idle)
    (created (spawn_building count population_limit lonlat st)).
Proof.
  revert st. induction count as [|count IH]; intros st Hst; simpl; [done|].
  destruct (limit_reached _ _); [done|]. apply IH. simpl.
  apply Forall_app. split; [done|]. constructor; [|constructor].
  split; [|done]. repeat split; try done. by left.
Qed.

Lemma spawn_rows_at_home rows population_limit d st st' :
  Forall (λ p, at_home p ∧ state p = idle) (created st) →
  spawn_rows rows population_limit d st = Ok st' →
  Forall (λ p, at_home p ∧ state p = idle) (created st').
Proof.
  apply (spawn_rows_keeps (λ st, Forall (λ p, at_home p ∧ state p = idle) (created st))).
  intros count lonlat st0. apply spawn_building_at_home.
Qed.

Section Still.
Context `{FloatMath}.

Lemma at_home_run (P : PersonAgent → Prop) orders m :
  Forall (λ p, at_home p ∧ P p) (person_agents m) →
  Forall (λ p, at_home p ∧ P p) (person_agents (run orders m)).
Proof.
  revert m. induction orders as [|order orders IH]; intros m Hm; [done|].
  simpl. apply IH. unfold Model.step, schedule_step. cbv zeta.
  apply (for_each_person_inv (λ _, True)); try done.
  - apply post_step_same.
  - intros m' p' _ [Hp' ?]. split; [done|]. by rewrite at_home_post_step.
  - apply (for_each_person_inv (λ _, True)); try done.
    + apply agent_step_same.
    + intros m' p' _ [Hp' ?]. split; [done|]. by rewrite at_home_step.
Qed.

(** X26.  When the shelter file gives no shelter, or the road graph has no
    node, nobody ever moves: at every tick every person is at home, without
    route, not reached, and idle or stuck; without a shelter everybody stays
    idle. *)
Theorem nobody_moves_without_a_shelter_or_a_road
    (buildings_gdf : list BuildingRow) (evac_gdf : list EvacRow)
    (G : GraphBuilder.Graph) (population_limit : option Z) (dt threshold : float)
    (m0 : EvacuationModel) (orders : list (list Z)) :
  Model.init buildings_gdf evac_gdf G population_limit dt threshold = Ok m0 →
  _spawn_evac_centers evac_gdf 1 = [] ∨ GraphBuilder.nodes G = [] →
  let m := run orders m0 in
  Forall (λ p, pos p = home p ∧ route p = [] ∧ reached p = false
               ∧ (state p = idle ∨ state p = stuck)
               ∧ (_spawn_evac_centers evac_gdf 1 = [] → state p = idle))
    (person_agents m).
Proof.
  intros Hstart Hno m.
  destruct (sound_init _ _ _ _ _ _ _ Hstart) as [Hw0 _].
  assert (HE : static m0 = [] ↔ _spawn_evac_centers evac_gdf 1 = []).
  { unfold static. rewrite (init_evac_agents _ _ _ _ _ _ _ Hstart).
    destruct (_spawn_evac_centers evac_gdf 1); done. }
  assert (Hinit : Forall (λ p, at_home p ∧ (static m0 = [] → state p = idle))
                    (person_agents m0)).
  { set (E := static m0) in *. destruct Hw0 as (_ & Hst & Hn).
    destruct (init_persons _ _ _ _ _ _ _ Hstart) as (st & Hs & ->).
    match goal with |- Forall _ (person_agents (for_each_person ?b ?u ?m1)) =>
      destruct (for_each_person_inv (world G E)
                  (λ p, at_home p ∧ (E = [] → state p = idle)) b u m1) as [_ Hall] end.
    - apply assign_initial_route_same.
    - intros m' p' Hw' Hp'. split.
      + eapply world_evolves; [apply evolves_assign_initial_route | done].
      + apply (at_home_assign_initial_route G E); try done.
        destruct Hno as [Hno|?]; [left; by apply HE | by right].
    - done.
    - split; [done|]. split; [|done].
      rewrite <-Hst. unfold static. by rewrite (init_evac_agents _ _ _ _ _ _ _ Hstart).
    - simpl. eapply Forall_impl;
        [refine (spawn_rows_at_home _ _ _ _ _ _ Hs); constructor|].
      intros p [? ?]. done.
    - done. }
  pose proof (at_home_run (λ p, static m0 = [] → state p = idle) orders m0 Hinit) as Hrun.
  eapply Forall_impl; [exact Hrun|].
  intros p [(? & ? & ? & ?) Hidle]. repeat split; try done.
  intros He. by apply Hidle, HE.
Qed.

(** *** Once in a terminal state *)

(** X27.  A person who is safe, stuck or overtaken between two ticks stays
    exactly as it is through any number of further ticks, whatever the
    activation orders. *)
Theorem terminal_person_is_kept_for_good
    (orders : list (list Z)) (m : EvacuationModel) (uid : Z) (p : PersonAgent) :
  terminal (state p) = true →
  get_person m uid = Some p →
  get_person (run orders m) uid = Some p.
Proof.
  intros Ht. revert m. induction orders as [|order orders IH]; intros m Hget; [done|].
  simpl. apply IH. by apply TerminalFacts.terminal_person_kept.
Qed.

End Still.

(** A town with a road and a building but no shelter: after two ticks the
    person is idle at home. *)
Lemma shelterless_town_stays_idle :
  Forall (λ p, pos p = home p ∧ route p = [] ∧ reached p = false
               ∧ (state p = idle ∨ state p = stuck)
               ∧ (_spawn_evac_centers [] 1 = [] → state p = idle))
    (person_agents (Scenario.ticks [[1000]; [1000]] Scenario.shelterless)).
Proof.
  apply (@nobody_moves_without_a_shelter_or_a_road approx_math
           [Scenario.building Scenario.A1] []
           (@GraphBuilder.build_road_graph approx_math
              [GraphBuilder.LineString [Scenario.A1; Scenario.B1; Scenario.C1]])
           None 1%Qc (of_int 30) Scenario.shelterless [[1000]; [1000]]).
  - by_starting.
  - left. reflexivity.
Defined.

(** A town without roads: its person is stuck from the start, and is the
    same person two ticks later. *)
Lemma roadless_person_stays_stuck :
  state (Scenario.person Scenario.roadless 1000) = stuck
  ∧ get_person (Scenario.ticks [[1000]; [1000]] Scenario.roadless) 1000
    = Some (Scenario.person Scenario.roadless 1000).
Proof.
  split; [by_evaluation|].
  apply (@terminal_person_is_kept_for_good approx_math [[1000]; [1000]]
           Scenario.roadless 1000 (Scenario.person Scenario.roadless 1000));
    by_evaluation.
Defined.

(** *** Rerouting *)

Lemma insert_by_sorted {A} (key : A → float) (x : A) l :
  StronglySorted (λ a b, (key a ≤ key b)%Qc) l →
  StronglySorted (λ a b, (key a ≤ key b)%Qc) (insert_by key x l).
Proof.
  induction 1 as [|y l Hl IH Hy]; simpl; [repeat constructor|].
  destruct (flt (key y) (key x)) eqn:Hlt.
  - apply flt_spec in Hlt. constructor; [done|].
    apply Forall_forall. intros z [->|Hz]%insert_by_elem; [by apply Qclt_le_weak|].
    rewrite Forall_forall in Hy. by apply Hy.
  - apply not_true_iff_false in Hlt. rewrite flt_spec in Hlt. apply Qcnot_lt_le in Hlt.
    constructor; [by constructor|].
    constructor; [done|]. eapply Forall_impl; [exact Hy|].
    intros z Hz. simpl in Hz. by eapply Qcle_trans.
Qed.

Lemma sorted_by_sorted {A} (key : A → float) l :
  StronglySorted (λ a b, (key a ≤ key b)%Qc) (sorted_by key l).
Proof.
  unfold sorted_by. induction l as [|x l IH]; simpl; [constructor|].
  by apply insert_by_sorted.
Qed.

Lemma find_sorted_least {A} (key : A → float) (P : A → bool) l x :
  StronglySorted (λ a b, (key a ≤ key b)%Qc) l →
  find P l = Some x →
  ∀ y, y ∈ l → P y = true → (key x ≤ key y)%Qc.
Proof.
  induction 1 as [|z l Hl IH Hz]; [done|]. simpl.
  destruct (P z) eqn:Hp.
  - intros [= <-] y [->|Hy]%elem_of_cons _; [apply Qcle_refl|].
    rewrite Forall_forall in Hz. by apply Hz.
  - intros Hf y [->|Hy]%elem_of_cons Hpy; [congruence|]. by apply IH.
Qed.

Lemma assign_route_person m p r t :
  (2 ≤ length r)%nat →
  (assign_route m p r t).2
  = set_state (set_cursor (set_route p r (Some t)) 0 0%Qc) evacuating.
Proof.
  intros Hlen. unfold assign_route. rewrite bool_decide_false by lia.
  simpl. by destruct (r !! 0%nat), (r !! 1%nat).
Qed.

(** X28.  [recompute_route_for_person] either fails and changes nothing,
    or succeeds and puts the person at the start of a new route of two nodes
    or more, from the nodes nearest to the person's position, to a shelter
    that can accept: the current target when it can accept, otherwise the
    shelter nearest to the person among those that can.  The position of the
    person is not touched. *)
Theorem reroute_contract (m : EvacuationModel) (p : PersonAgent) :
  let r := recompute_route_for_person m p in
  let p' := r.1.2 in
  let current := truthy_id (evac_center_id p) ≫= get_evac_agent_by_id m in
  (r.2 = false → r.1 = (m, p))
  ∧ (r.2 = true →
     ∃ t, t ∈ evac_agents m ∧ can_accept t = true
       ∧ evac_center_id p' = Some (evac_id t)
       ∧ route p' = route_or_empty m (pos p) (loc t)
       ∧ (2 ≤ length (route p'))%nat
       ∧ state p' = evacuating
       ∧ _route_idx p' = 0%nat ∧ _segment_progress p' = 0%Qc
       ∧ pos p' = pos p
       ∧ (∀ c, current = Some c → can_accept c = true → t = c)
       ∧ ((∀ c, current = Some c → can_accept c = false) →
          ∀ t', t' ∈ evac_agents m → can_accept t' = true →
            (sqdist (loc t) (pos p) ≤ sqdist (loc t') (pos p))%Qc)).
Proof.
  intros r p' current. subst r p'. unfold recompute_route_for_person.
  destruct (route p) as [|n0 ns]; [by split|].
  fold current.
  set (key := λ e : EvacCenterAgent,
         (((loc e).1 - (pos p).1) * ((loc e).1 - (pos p).1)
          + ((loc e).2 - (pos p).2) * ((loc e).2 - (pos p).2))%Qc).
  set (kept := match current with
               | Some t => if can_accept t then Some t else None
               | None => None
               end).
  destruct (match kept with
            | Some t => Some t
            | None => find can_accept (sorted_by key (evac_agents m))
            end) as [t|] eqn:Hchosen; [|by split].
  case_bool_decide as Hlen; [|by split].
  split; [done|]. intros _.
  destruct (recompute_target m p t Hchosen) as [Hin Hacc].
  exists t. cbn [fst snd]. rewrite assign_route_person by done. simpl.
  repeat split; try done.
  - intros c Hc Hcacc. subst kept. rewrite Hc, Hcacc in Hchosen. congruence.
  - intros Hnone t' Hin' Hacc'.
    assert (Hk : kept = None).
    { subst kept. destruct current as [c|] eqn:Hc; [|done]. by rewrite (Hnone c). }
    rewrite Hk in Hchosen.
    apply (find_sorted_least key can_accept _ t (sorted_by_sorted key _) Hchosen);
      [by apply sorted_by_elem | done].
Qed.

(** *** The homes of the persons *)

(** Once the limit is reached nothing more is created. *)
Lemma spawn_rows_stop rows population_limit d st :
  limit_reached population_limit (spawned st) = true →
  spawn_rows rows population_limit d st = Ok st.
Proof. intros Hl. destruct rows; simpl; [done|]. by rewrite Hl. Qed.

Lemma spawn_building_homes count population_limit lonlat st :
  let st' := spawn_building count population_limit lonlat st in
  (home <$> created st') `prefix_of` (home <$> created st) ++ replicate count lonlat
  ∧ (limit_reached population_limit (spawned st') = false →
     home <$> created st' = (home <$> created st) ++ replicate count lonlat).
Proof.
  revert st. induction count as [|count IH]; intros st; simpl.
  - rewrite app_nil_r. done.
  - destruct (limit_reached population_limit (spawned st)) eqn:Hl.
    + split; [by apply prefix_app_r | congruence].
    + match goal with |- context [spawn_building count _ _ ?s] => set (st1 := s) end.
      destruct (IH st1) as [Hp He].
      assert (H1 : (home <$> created st1) ++ replicate count lonlat
                   = (home <$> created st) ++ lonlat :: replicate count lonlat).
      { subst st1. simpl. rewrite fmap_app, <-app_assoc. done. }
      rewrite <-H1. done.
Qed.

Lemma spawn_rows_homes rows population_limit st st' :
  spawn_rows rows population_limit 1 st = Ok st' →
  (home <$> created st') `prefix_of` (home <$> created st) ++ homes_of rows.
Proof.
  revert st. induction rows as [|row rows IH]; intros st.
  - simpl. intros [= <-]. rewrite app_nil_r. done.
  - change (homes_of (row :: rows))
      with (match building_geometry row with
            | Some geom => replicate (inhabitants row) (site_lonlat geom)
            | None => []
            end ++ homes_of rows).
    cbn [spawn_rows]. unfold inhabitants.
    destruct (limit_reached population_limit (spawned st)) eqn:Hl;
      [intros [= <-]; by apply prefix_app_r|].
    destruct (building_geometry row) as [geom|]; [|apply IH].
    destruct (building_count row 1) as [count|]; [|done].
    destruct (spawn_building_homes (Z.to_nat count) population_limit
                (site_lonlat geom) st) as [Hp He].
    match goal with |- context [spawn_rows rows _ _ ?s] => set (st1 := s) in * end.
    destruct (limit_reached population_limit (spawned st1)) eqn:Hl1.
    + rewrite spawn_rows_stop by done. intros [= <-].
      rewrite app_assoc. by apply prefix_app_r.
    + intros Hst'. rewrite app_assoc, <-He by done. by apply IH.
Qed.

Lemma assign_route_home m p r t : home (assign_route m p r t).2 = home p.
Proof.
  unfold assign_route. case_bool_decide; [done|].
  simpl. by destruct (r !! 0%nat), (r !! 1%nat).
Qed.

Lemma reroute_home m p : home (reroute m p).2 = home p.
Proof.
  unfold reroute, recompute_route_for_person.
  destruct (route p); [done|].
  match goal with |- context [match ?t with Some _ => _ | None => (m, p, false) end] =>
    destruct t as [target|] end; [|done].
  case_bool_decide; [|done]. simpl. apply assign_route_home.
Qed.

Lemma assign_initial_route_home m p : home (assign_initial_route m p).2 = home p.
Proof.
  unfold assign_initial_route. destruct (_ ≫= _); [|done].
  case_bool_decide; [apply assign_route_home | done].
Qed.

Section Homes.
Context `{FloatMath}.

Lemma post_step_home m p : home (post_step m p).2 = home p.
Proof.
  unfold post_step.
  assert (Hc : ∀ m p, home (cleanup m p).2 = home p).
  { intros m' p'. unfold cleanup. by destruct (terminal _). }
  case_bool_decide; [|apply Hc].
  destruct (match get_time_to_inundation _ _ with Some a => _ | None => false end); [done|].
  set (r1 := match get_time_to_inundation _ _ with Some a => _ | None => (m, p) end).
  assert (H1 : home r1.2 = home p).
  { subst r1. destruct (get_time_to_inundation _ _); [|done].
    destruct (nan_le _ _); [apply reroute_home | done]. }
  destruct r1 as [m1 p1]. simpl in H1.
  set (r2 := match evac_center_id p1 ≫= get_evac_agent_by_id m1 with
             | Some e => _ | None => (m1, p1) end).
  assert (H2 : home r2.2 = home p1).
  { subst r2. destruct (_ ≫= _); [|done].
    destruct (negb _); [apply reroute_home | done]. }
  destruct r2 as [m2 p2]. simpl in H2.
  rewrite Hc. congruence.
Qed.

Lemma housed_run homes orders m :
  Forall (housed homes) (person_agents m) →
  Forall (housed homes) (person_agents (run orders m)).
Proof.
  revert m. induction orders as [|order orders IH]; intros m Hm; [done|].
  simpl. apply IH. unfold Model.step, schedule_step. cbv zeta.
  apply (for_each_person_inv (λ _, True)); try done.
  - apply post_step_same.
  - intros m' p' _ (i & Hi & Hh). split; [done|]. exists i.
    destruct (post_step_same m' p') as [_ Hid]. simpl in Hid.
    by rewrite Hid, post_step_home.
  - apply (for_each_person_inv (λ _, True)); try done.
    + apply agent_step_same.
    + intros m' p' _ (i & Hi & Hh). split; [done|]. exists i.
      destruct (agent_step_keeps m' p') as (Hid & Hhome & _).
      by rewrite Hid, Hhome.
Qed.

Lemma housed_init buildings_gdf evac_gdf G population_limit dt threshold m0 :
  Model.init buildings_gdf evac_gdf G population_limit dt threshold = Ok m0 →
  Forall (housed (homes_of buildings_gdf)) (person_agents m0).
Proof.
  intros (st & Hst & ->)%init_persons.
  apply (for_each_person_inv (λ _, True)); try done.
  - apply assign_initial_route_same.
  - intros m' p' _ (i & Hi & Hh). split; [done|]. exists i.
    destruct (assign_initial_route_same m' p') as [_ Hid]. simpl in Hid.
    by rewrite Hid, assign_initial_route_home.
  - simpl.
    assert (Hn : numbered (mkSpawn 0 1000 [])) by done.
    destruct (spawn_rows_numbered _ _ _ _ _ Hn Hst) as [Hids _].
    pose proof (spawn_rows_homes _ _ _ _ Hst) as [rest Hrest]. simpl in Hrest.
    apply Forall_forall. intros p [i Hp]%list_elem_of_lookup.
    exists i. split.
    + assert (Hi : (unique_id <$> created st) !! i = Some (unique_id p))
        by by rewrite list_lookup_fmap, Hp.
      rewrite Hids in Hi. apply lookup_seqZ in Hi. lia.
    + rewrite Hrest. apply lookup_app_l_Some. by rewrite list_lookup_fmap, Hp.
Qed.

(** Numbered and housed persons list the homes in order. *)
Lemma housed_homes homes ps n :
  unique_id <$> ps = seqZ 1000 (Z.of_nat n) → Forall (housed homes) ps →
  home <$> ps = take n homes.
Proof.
  intros Hids Hh.
  assert (Hlen : length ps = n).
  { rewrite <-(length_fmap unique_id), Hids, length_seqZ. lia. }
  apply list_eq. intros i.
  destruct (ps !! i) as [p|] eqn:Hp.
  - rewrite list_lookup_fmap, Hp. simpl.
    assert (Hi : (unique_id <$> ps) !! i = Some (unique_id p))
      by by rewrite list_lookup_fmap, Hp.
    rewrite Hids in Hi. apply lookup_seqZ in Hi as [Hi Hlt].
    rewrite Forall_forall in Hh.
    destruct (Hh p) as (j & Hj & Hhome); [by eapply list_elem_of_lookup_2|].
    assert (j = i) as -> by lia.
    rewrite lookup_take_lt by lia. done.
  - rewrite list_lookup_fmap, Hp. simpl. symmetry.
    apply lookup_ge_None in Hp. apply lookup_ge_None.
    rewrite length_take. lia.
Qed.

(** X29.  The persons of a simulation are numbered 1000, 1001, ... in the
    order they were created, as many as the building data and the limit
    allow, and through any number of ticks the population, its ids and their
    order stay the same; [get_agent_positions] lists them in that order.
    Their homes are the buildings of the file in its order, each as often as
    its [pop] says (once when the table has no [pop] column, never without
    geometry), cut at the limit.  A negative limit gives a simulation
    without persons. *)
Theorem persons_are_the_inhabitants_in_file_order
    (buildings_gdf : list BuildingRow) (evac_gdf : list EvacRow)
    (G : GraphBuilder.Graph) (population_limit : option Z) (dt threshold : float)
    (m0 : EvacuationModel) (orders : list (list Z)) :
  Model.init buildings_gdf evac_gdf G population_limit dt threshold = Ok m0 →
  let m := run orders m0 in
  let n := capped population_limit (full_population buildings_gdf) in
  unique_id <$> person_agents m = seqZ 1000 (Z.of_nat n)
  ∧ home <$> person_agents m = take n (homes_of buildings_gdf)
  ∧ Model.id <$> get_agent_positions m = seqZ 1000 (Z.of_nat n)
  ∧ num_agents m = n
  ∧ (∀ l, population_limit = Some l → l < 0 → person_agents m = []).
Proof.
  intros Hinit m n.
  assert (Hids : unique_id <$> person_agents m = seqZ 1000 (Z.of_nat n)).
  { subst m. rewrite run_ids. apply (init_ids _ _ _ _ _ _ _ Hinit). }
  split; [done|]. split; [|split; [|split]].
  - apply housed_homes; [done|].
    apply housed_run, (housed_init _ _ _ _ _ _ _ Hinit).
  - rewrite <-Hids. unfold get_agent_positions. rewrite <-list_fmap_compose.
    apply list_fmap_ext. intros i p _. simpl. unfold get_latlon.
    by destruct (pos p).
  - unfold num_agents. rewrite <-(length_fmap unique_id), Hids, length_seqZ. lia.
  - intros l -> Hl. apply (fmap_nil_inv unique_id). rewrite Hids.
    subst n. unfold capped. rewrite bool_decide_false by lia.
    replace (Z.to_nat l) with 0%nat by lia. done.
Qed.

End Homes.

(** The census started with [limit=5]: the three inhabitants of the first
    building, the one of the third, and one of the four of the last. *)
Lemma census_town_is_housed :
  let m := Scenario.ticks [[1000; 1001; 1002; 1003; 1004]] Scenario.census_town in
  let n := capped (Some 5) (full_population Scenario.census) in
  unique_id <$> person_agents m = seqZ 1000 (Z.of_nat n)
  ∧ home <$> person_agents m = take n (homes_of Scenario.census)
  ∧ Model.id <$> get_agent_positions m = seqZ 1000 (Z.of_nat n)
  ∧ num_agents m = n
  ∧ (∀ l, Some 5 = Some l → l < 0 → person_agents m = []).
Proof.
  apply (@persons_are_the_inhabitants_in_file_order approx_math Scenario.census
           [Scenario.shelter Scenario.C1] Scenario.bend_graph (Some 5) 1%Qc (of_int 30)
           Scenario.census_town [[1000; 1001; 1002; 1003; 1004]]).
  by_starting.
Defined.

(** *** The hazard check at the end of a tick *)

(** A loop over ids establishes [Q] for every person whose id it visits,
    when its body does so for the person it is run on. *)
Lemma for_each_person_covers (I : EvacuationModel → Prop) (Q : PersonAgent → Prop)
    body uids (seen : list Z) m :
  (∀ m p, same_people (m, p) (body m p)) →
  (∀ m p, I m → I (body m p).1 ∧ Q (body m p).2) →
  (∀ m p, I m → I (put_person m p)) →
  I m →
  Forall (λ x, unique_id x ∈ seen → Q x) (person_agents m) →
  Forall (λ x, unique_id x ∈ seen ∨ unique_id x ∈ uids → Q x)
    (person_agents (for_each_person body uids m)).
Proof.
  intros Hsame Hbody Hput. revert seen m. unfold for_each_person.
  induction uids as [|uid uids IH]; intros seen m Hm Hseen.
  - simpl. eapply Forall_impl; [exact Hseen|]. intros x Hx [?|Hn]; [auto|].
    by apply elem_of_nil in Hn.
  - simpl.
    set (m1 := match get_person m uid with
               | Some person => let '(m, person) := body m person in put_person m person
               | None => m
               end).
    assert (H1 : I m1 ∧ Forall (λ x, unique_id x ∈ uid :: seen → Q x) (person_agents m1)).
    { subst m1. destruct (get_person m uid) as [p|] eqn:Hget.
      - destruct (Hsame m p) as [Hpa Hid]. destruct (Hbody m p Hm) as [Hm' Hp'].
        pose proof (get_person_id _ _ _ Hget) as Hp.
        destruct (body m p) as [m' p']. simpl in *.
        split; [by apply Hput|].
        unfold put_person. simpl. rewrite Hpa.
        apply Forall_fmap. eapply Forall_impl; [exact Hseen|].
        intros x Hx. simpl. case_bool_decide as Hxp; [done|].
        intros [Hu|?]%elem_of_cons; [congruence | auto].
      - split; [done|]. rewrite Forall_forall in Hseen. apply Forall_forall.
        intros x Hx [Hu|?]%elem_of_cons; [|by apply Hseen].
        exfalso. unfold get_person in Hget.
        apply list_elem_of_In in Hx.
        pose proof (find_none _ _ Hget x Hx) as Hf. simpl in Hf.
        by rewrite bool_decide_eq_true_2 in Hf. }
    destruct H1 as [Hm1 Hs1].
    specialize (IH (uid :: seen) m1 Hm1 Hs1).
    eapply Forall_impl; [exact IH|].
    intros x Hx [?|[Hu|?]%elem_of_cons]; apply Hx; auto; left;
      apply elem_of_cons; auto.
Qed.

Lemma assign_route_pos m p r t : pos (assign_route m p r t).2 = pos p.
Proof.
  unfold assign_route. case_bool_decide; [done|].
  simpl. by destruct (r !! 0%nat), (r !! 1%nat).
Qed.

Lemma reroute_pos m p : pos (reroute m p).2 = pos p.
Proof.
  unfold reroute, recompute_route_for_person.
  destruct (route p); [done|].
  match goal with |- context [match ?t with Some _ => _ | None => (m, p, false) end] =>
    destruct t as [target|] end; [|done].
  case_bool_decide; [|done]. simpl. apply assign_route_pos.
Qed.

Section Dry.
Context `{FloatMath}.

Lemma post_step_dry m p :
  state (post_step m p).2 = evacuating →
  is_inundated (hazard m) (pos (post_step m p).2) (Some (sim_time m)) = false.
Proof.
  unfold post_step.
  case_bool_decide as Hs.
  2: { unfold cleanup. destruct (terminal (state p)); simpl; congruence. }
  unfold is_inundated.
  destruct (get_time_to_inundation (hazard m) (pos p)) as [a|] eqn:Ha.
  - destruct (nan_le a (sim_time m)) eqn:Hle; [done|].
    set (r1 := if nan_le (nan_sub a (sim_time m)) (reroute_threshold_s m)
               then reroute m p else (m, p)).
    assert (H1 : pos r1.2 = pos p).
    { subst r1. destruct (nan_le (nan_sub a (sim_time m)) _); [apply reroute_pos | done]. }
    destruct r1 as [m1 p1]. simpl in H1.
    set (r2 := match evac_center_id p1 ≫= get_evac_agent_by_id m1 with
               | Some e => _ | None => (m1, p1) end).
    assert (H2 : pos r2.2 = pos p1).
    { subst r2. destruct (_ ≫= _); [|done].
      destruct (negb _); [apply reroute_pos | done]. }
    destruct r2 as [m2 p2]. simpl in H2.
    intros _. unfold cleanup. destruct (terminal (state p2)); simpl;
      by rewrite H2, H1, Ha, Hle.
  - set (r2 := match evac_center_id p ≫= get_evac_agent_by_id m with
               | Some e => _ | None => (m, p) end).
    assert (H2 : pos r2.2 = pos p).
    { subst r2. destruct (_ ≫= _); [|done].
      destruct (negb _); [apply reroute_pos | done]. }
    destruct r2 as [m2 p2]. simpl in H2.
    intros _. unfold cleanup. destruct (terminal (state p2)); simpl;
      by rewrite H2, Ha.
Qed.

(** X30.  At the end of every tick nobody who is still evacuating stands
    where the wave has arrived: the clock of the hazard is the clock of the
    model, and the position of every evacuating person is not inundated at
    that time.  Whoever the wave has reached is overtaken by then. *)
Theorem nobody_evacuates_in_the_water (order : list Z) (m : EvacuationModel) :
  let m' := Model.step order m in
  current_time (hazard m') = sim_time m'
  ∧ Forall (λ p, state p = evacuating → is_inundated (hazard m') (pos p) None = false)
      (person_agents m').
Proof.
  intros m'.
  destruct (evolves_model_step order m) as [_ Ht Hh _ _ _ _]. fold m' in Ht, Hh.
  assert (Hnow : current_time (hazard m') = sim_time m') by by rewrite Hh, Ht.
  split; [done|].
  assert (Hq : Forall (λ p, state p = evacuating →
                 is_inundated (hazard m') (pos p) (Some (sim_time m')) = false)
                 (person_agents m')).
  2: { eapply Forall_impl; [exact Hq|]. intros p Hp Hs. specialize (Hp Hs).
       unfold is_inundated in *. by rewrite Hnow. }
  rewrite Hh, Ht. clear Hh Ht Hnow.
  subst m'. unfold Model.step in *. cbv zeta in *.
  set (m1 := schedule_step order (advance_clock m)) in *.
  assert (E1 : evolves (advance_clock m) m1).
  { subst m1. apply evolves_for_each_person, evolves_agent_step. }
  destruct E1 as [_ Ht1 Hh1 _ _ _ _].
  rewrite <-Hh1, <-Ht1.
  pose proof (for_each_person_covers
                (λ m, hazard m = hazard m1 ∧ sim_time m = sim_time m1)
                (λ p, state p = evacuating →
                      is_inundated (hazard m1) (pos p) (Some (sim_time m1)) = false)
                post_step (unique_id <$> person_agents m1) [] m1) as Hall.
  apply Forall_forall. intros p Hp.
  refine (proj1 (Forall_forall _ _) (Hall _ _ _ _ _) p Hp _).
  - apply post_step_same.
  - intros m2 q [Hm2 Ht2]. split.
    + destruct (evolves_post_step m2 q) as [_ E2 E3 _ _ _ _]. split; congruence.
    + rewrite <-Hm2, <-Ht2. apply post_step_dry.
  - done.
  - done.
  - apply Forall_forall. intros x _ Hx. by apply elem_of_nil in Hx.
  - right. rewrite <-(for_each_person_ids post_step (unique_id <$> person_agents m1) m1)
      by apply post_step_same.
    apply list_elem_of_fmap. by exists p.
Qed.

End Dry.

End SimulationFacts.
